(** * A shallow embedding of joi's reference, string and alternatives modules

    The development follows the JavaScript sources:
    - [lib/ref.js]                 references: create / resolve / describe / build
    - [lib/types/string/index.js]  the string type: coerce hook, base check, rules
    - [lib/types/alternatives.js]  the alternatives type: validate, try, when, label

    JavaScript values are embedded as an inductive type, exceptions as an
    error monad, and mutable objects (where a statement depends on aliasing)
    as cells of an explicit store. *)

From stdpp Require Import base option list strings pretty.
From Stdlib Require Import ZArith Lia Ascii String.

Set Warnings "-register-all".

Open Scope string_scope.
Open Scope list_scope.
Open Scope Z_scope.

(* ===================================================================== *)
(** * JavaScript values and built-ins *)
(* ===================================================================== *)

Module Js.

(** Object identity: two object values are the same reference iff their
    identifiers agree. *)
Definition ident := nat.

(** Numbers are restricted to integers. *)
Inductive JsVal : Type :=
| VUndef
| VNull
| VBool (b : bool)
| VNum (n : Z)
| VStr (s : string)
| VObj (id : ident) (fields : list (string * JsVal))
| VArr (id : ident) (items : list JsVal).

(** ToBoolean *)
Definition truthy (v : JsVal) : bool :=
  match v with
  | VUndef | VNull => false
  | VBool b => b
  | VNum n => negb (n =? 0)
  | VStr s => negb (String.eqb s "")
  | VObj _ _ | VArr _ _ => true
  end.


(** SameValueZero, the key comparison of [Map]: primitives by value,
    objects by reference. *)
Definition same_value_zero (a b : JsVal) : bool :=
  match a, b with
  | VUndef, VUndef => true
  | VNull, VNull => true
  | VBool x, VBool y => Bool.eqb x y
  | VNum x, VNum y => x =? y
  | VStr x, VStr y => String.eqb x y
  | VObj i _, VObj j _ => Nat.eqb i j
  | VArr i _, VArr j _ => Nat.eqb i j
  | _, _ => false
  end.

Definition is_undefined (v : JsVal) : bool :=
  match v with VUndef => true | _ => false end.

(** ** Exceptions *)

Inductive result (A : Type) : Type :=
| Ok (a : A)
| Throw (msg : string).
Arguments Ok {A} a.
Arguments Throw {A} msg.

Definition bind {A B} (m : result A) (k : A -> result B) : result B :=
  match m with
  | Ok a => k a
  | Throw msg => Throw msg
  end.

Notation "'let!' x ':=' m 'in' k" := (bind m (fun x => k))
  (at level 10, x pattern, m at level 100, k at level 200).

(** [Hoek.assert(condition, message)] *)
Definition assert (condition : bool) (message : string) : result unit :=
  if condition then Ok tt else Throw message.

Definition throws {A} (m : result A) : Prop := exists msg, m = Throw msg.

(** ** Strings *)

(** White space and line terminators removed by [String.prototype.trim],
    restricted to one-byte code units. *)
Definition is_space (c : ascii) : bool :=
  let n := nat_of_ascii c in
  ((9 <=? n)%nat && (n <=? 13)%nat) || (n =? 32)%nat || (n =? 160)%nat.

Fixpoint trim_start (s : string) : string :=
  match s with
  | String c s' => if is_space c then trim_start s' else s
  | EmptyString => EmptyString
  end.

(** Drops trailing white space: a character is kept when it is not a
    space or when something non-empty survives after it. *)
Fixpoint trim_end (s : string) : string :=
  match s with
  | String c s' =>
      match trim_end s' with
      | EmptyString => if is_space c then EmptyString else String c EmptyString
      | t => String c t
      end
  | EmptyString => EmptyString
  end.

Definition trim (s : string) : string := trim_end (trim_start s).

Definition startsWith (s p : string) : bool := String.prefix p s.

(** [s.slice(n)] for [0 <= n] *)
Fixpoint slice_from (n : nat) (s : string) : string :=
  match n, s with
  | O, _ => s
  | S n', String _ s' => slice_from n' s'
  | S _, EmptyString => EmptyString
  end.

(** [s.slice(0, n)] for [0 <= n] *)
Fixpoint take (n : nat) (s : string) : string :=
  match n, s with
  | O, _ => EmptyString
  | S n', String c s' => String c (take n' s')
  | S _, EmptyString => EmptyString
  end.

(** [s.slice(0, end)]: a negative [end] counts from the end of the string. *)
Definition slice0 (s : string) (end_ : Z) : string :=
  let len := Z.of_nat (String.length s) in
  let k := if end_ <? 0 then Z.max (len + end_) 0 else Z.min end_ len in
  take (Z.to_nat k) s.

(** [s[i]]: a one-character string, or undefined *)
Definition char_at (s : string) (i : nat) : option string :=
  match String.get i s with
  | Some c => Some (String c EmptyString)
  | None => None
  end.

(** [s.split(sep)] for a non-empty separator. [skip] counts the characters
    of a matched separator still to be passed over, [cur] holds the
    segment read so far (reversed). *)
Fixpoint split_aux (sep s : string) (cur : string) (skip : nat) : list string :=
  match s with
  | EmptyString => [String.rev cur]
  | String c s' =>
      match skip with
      | S k => split_aux sep s' cur k
      | O =>
          if String.prefix sep s
          then String.rev cur :: split_aux sep s' EmptyString (String.length sep - 1)
          else split_aux sep s' (String c cur) O
      end
  end.

Definition split (s sep : string) : list string := split_aux sep s EmptyString O.

(** [new Array(n).fill(s).join('')] *)
Fixpoint repeat_string (n : nat) (s : string) : string :=
  match n with
  | O => EmptyString
  | S n' => s +:+ repeat_string n' s
  end.

(** ToString, as used by [Array.prototype.join] and template literals *)
Fixpoint to_string (v : JsVal) : string :=
  match v with
  | VUndef => "undefined"
  | VNull => "null"
  | VBool true => "true"
  | VBool false => "false"
  | VNum n => pretty n
  | VStr s => s
  | VObj _ _ => "[object Object]"
  | VArr _ items =>
      (fix join (l : list JsVal) : string :=
         match l with
         | [] => EmptyString
         | x :: r =>
             let e := match x with VUndef | VNull => EmptyString | _ => to_string x end in
             match r with
             | [] => e
             | _ => e +:+ "," +:+ join r
             end
         end) items
  end.

(** [array.join(sep)]: undefined and null elements print as empty *)
Fixpoint join (l : list JsVal) (sep : string) : string :=
  match l with
  | [] => EmptyString
  | x :: r =>
      let e := match x with VUndef | VNull => EmptyString | _ => to_string x end in
      match r with
      | [] => e
      | _ => e +:+ sep +:+ join r sep
      end
  end.

(** ** Map *)

Definition entries := list (JsVal * JsVal).

(** [map.set(k, v)]: an existing key keeps its position *)
Fixpoint Map_set (m : entries) (k v : JsVal) : entries :=
  match m with
  | [] => [(k, v)]
  | (k', v') :: m' =>
      if same_value_zero k' k then (k', v) :: m' else (k', v') :: Map_set m' k v
  end.

(** [new Map(iterable)] *)
Definition Map_new (es : entries) : entries :=
  fold_left (fun m e => Map_set m (fst e) (snd e)) es [].

(** [map.get(k)] *)
Fixpoint Map_get (m : entries) (k : JsVal) : JsVal :=
  match m with
  | [] => VUndef
  | (k', v) :: m' => if same_value_zero k' k then v else Map_get m' k
  end.

(** The keys of a [Map] are pairwise distinct: no key is the same value
    as a later one. *)
Fixpoint nodup_keys (m : entries) : Prop :=
  match m with
  | [] => True
  | e :: m' =>
      Forall (fun e' => same_value_zero (fst e) (fst e') = false) m' /\ nodup_keys m'
  end.

(** [array[i]] *)
Definition index (l : list JsVal) (i : nat) : JsVal := default VUndef (l !! i).

End Js.

(* ===================================================================== *)
(** * References ([lib/ref.js]) *)
(* ===================================================================== *)

Module Ref.
Import Js.

Inductive RefType : Type := TValue | TGlobal | TLocal.

(** [ancestor]: a depth or the sentinel ['root'] *)
Inductive Anc : Type := AncRoot | AncNum (n : nat).

(** [separator]: a string, [false], or [undefined] *)
Inductive Sep : Type := SepUndef | SepFalse | SepStr (s : string).

Definition type_name (t : RefType) : string :=
  match t with TValue => "value" | TGlobal => "global" | TLocal => "local" end.

Definition is_value (t : RefType) : bool :=
  match t with TValue => true | _ => false end.

Definition sep_truthy (s : Sep) : bool :=
  match s with SepStr s => negb (String.eqb s "") | _ => false end.

(** [s === separator] for a string [s] *)
Definition sep_is (separator : Sep) (s : string) : bool :=
  match separator with SepStr x => String.eqb x s | _ => false end.

(** [key[i] !== separator] *)
Definition char_differs (key : string) (i : nat) (separator : Sep) : bool :=
  match char_at key i with
  | Some c => negb (sep_is separator c)
  | None => match separator with SepUndef => false | _ => true end
  end.

(** ToString of a separator, as [Array.prototype.join] and template
    literals see it ([join(undefined)] uses a comma) *)
Definition sep_join (s : Sep) : string :=
  match s with SepUndef => "," | SepFalse => "false" | SepStr x => x end.

Definition sep_display (s : Sep) : string :=
  match s with SepUndef => "undefined" | SepFalse => "false" | SepStr x => x end.

Record Prefix : Type := mkPrefix {
  p_global : option string;
  p_local : option string;
  p_root : option string }.

(** The options object of [create]. A field is [None] when the key is
    absent; [co_unknown] lists the keys outside the recognised ones. *)
Record CreateOptions : Type := mkCreateOptions {
  co_adjust : option (JsVal -> JsVal);
  co_ancestor : option Anc;
  co_iterables : option bool;
  co_map : option entries;
  co_prefix : option Prefix;
  co_separator : option Sep;
  co_unknown : list string }.

(** The options object of the [Ref] constructor, also the shape of the
    descriptor under [describe().ref]. *)
Record RefOptions : Type := mkRefOptions {
  o_adjust : option (JsVal -> JsVal);
  o_ancestor : option Anc;
  o_iterables : option bool;
  o_map : option entries;
  o_path : list JsVal;
  o_separator : option Sep;
  o_type : option RefType;
  o_unknown : list string }.

(** A constructed [internals.Ref] *)
Record Ref : Type := mkRef {
  adjust : option (JsVal -> JsVal);
  ancestor : option Anc;
  iterables : option bool;
  map : option entries;
  path : list JsVal;
  separator : Sep;
  type : RefType;
  depth : nat;
  key : option string;
  root : JsVal;
  display : string }.

(** Modelled from the spec: [Common.assertOptions] (lib/common.js is not
    among the sources) throws when the options object carries a key outside
    the allowed list ("unknown option key"). *)
Definition assertOptions (unknown : list string) : result unit :=
  match unknown with
  | [] => Ok tt
  | k :: _ => Throw ("Options contain unknown keys: " +:+ k)
  end.

Definition or_default (o : option string) (d : string) : string :=
  match o with
  | Some s => if String.eqb s "" then d else s
  | None => d
  end.

Record Context : Type := mkContext {
  c_key : string;
  c_type : RefType;
  c_root : bool }.

(** [internals.context] *)
Definition context (key : string) (prefix : Prefix) : Context :=
  let key := trim key in
  let globalp := or_default (p_global prefix) "$" in
  if startsWith key globalp then
    mkContext (slice_from (String.length globalp) key) TGlobal false
  else
    let local := or_default (p_local prefix) "#" in
    if startsWith key local then
      mkContext (slice_from (String.length local) key) TLocal false
    else
      let root := or_default (p_root prefix) "/" in
      if startsWith key root then
        mkContext (slice_from (String.length root) key) TValue true
      else
        mkContext key TValue false.

(** The loop [while (key[i] === separator) ++i], run over the part of the
    key that starts at position [i]. *)
Fixpoint ancestor_scan (rest : string) (separator : Sep) (i : nat) : nat :=
  match rest with
  | String c r =>
      if sep_is separator (String c EmptyString)
      then ancestor_scan r separator (S i)
      else i
  | EmptyString => i
  end.

(** [internals.ancestor]: the pair [ancestor, slice] *)
Definition ancestor_of (key : string) (separator : Sep) : nat * nat :=
  if negb (sep_truthy separator) then (1, 0)%nat
  else if char_differs key 0 separator then (1, 0)%nat
  else if char_differs key 1 separator then (0, 1)%nat
  else
    let i := ancestor_scan (slice_from 2 key) separator 2 in
    ((i - 1)%nat, i).

(** [updateDisplay] *)
Definition key_string (k : option string) : string :=
  match k with Some s => s | None => "null" end.

Definition updateDisplay (type : RefType) (separator : Sep)
    (ancestor : option Anc) (key : option string) : string :=
  if negb (is_value type) then
    "ref:" +:+ type_name type +:+ ":" +:+ key_string key
  else if negb (sep_truthy separator) then
    "ref:" +:+ key_string key
  else
    match ancestor with
    | None | Some (AncNum O) =>
        "ref:" +:+ sep_display separator +:+ key_string key
    | Some AncRoot =>
        "ref:root:" +:+ key_string key
    | Some (AncNum (S O)) =>
        "ref:" +:+ key_string key
    | Some (AncNum n) =>
        let lead := repeat_string (n + 1) (sep_display separator) in
        "ref:" +:+ lead +:+ match key with Some s => s | None => "" end
    end.

Definition valid_separator (s : option Sep) : bool :=
  match s with
  | None | Some SepUndef | Some SepFalse => true
  | Some (SepStr x) => (String.length x =? 1)%nat
  end.

(** The constructor of [internals.Ref] *)
Definition Ref_new (options : RefOptions) : result Ref :=
  let! _ := assertOptions (o_unknown options) in
  let! _ := assert (valid_separator (o_separator options)) "Invalid separator" in
  let! _ := assert (negb (bool_decide (is_Some (o_map options)))
                    || negb (bool_decide (is_Some (o_adjust options))))
              "Cannot set both map and adjust options" in
  let type := default TValue (o_type options) in
  let separator := default (SepStr ".") (o_separator options) in
  let ancestor := o_ancestor options in
  let! _ := assert (is_value type || negb (bool_decide (is_Some ancestor)))
              "Non-value references cannot reference ancestors" in
  let map := Map_new <$> o_map options in
  let path := o_path options in
  let key :=
    match path with
    | [] => None
    | _ => Some (join path (sep_join separator))
    end in
  Ok {| adjust := o_adjust options;
        ancestor := ancestor;
        iterables := o_iterables options;
        map := map;
        path := path;
        separator := separator;
        type := type;
        depth := List.length path;
        key := key;
        root := index path 0;
        display := updateDisplay type separator ancestor key |}.

Definition key_value (k : option string) : JsVal :=
  match k with Some s => VStr s | None => VNull end.

(** [exports.create] *)
Definition create (key : string) (options : CreateOptions) : result Ref :=
  let! _ := assertOptions (co_unknown options) in
  let separator := default (SepStr ".") (co_separator options) in
  let ctx := context key (default (mkPrefix None None None) (co_prefix options)) in
  let type := c_type ctx in
  let key := c_key ctx in
  let! ka :=
    if is_value type then
      let! ka1 :=
        if c_root ctx then
          let! _ := assert (negb (sep_truthy separator) || char_differs key 0 separator)
                      "Cannot specify relative path with root prefix" in
          Ok (if String.eqb key "" then None else Some key, Some AncRoot)
        else Ok (Some key, co_ancestor options) in
      let '(key, anc) := ka1 in
      if sep_truthy separator && match key with Some k => sep_is separator k | None => false end
      then Ok (None, Some (AncNum 0))
      else
        match anc with
        | Some _ =>
            let! _ := assert (negb (sep_truthy separator)
                              || match key with
                                 | Some k => String.eqb k "" || char_differs k 0 separator
                                 | None => true
                                 end)
                        "Cannot combine prefix with ancestor option" in
            Ok (key, anc)
        | None =>
            match key with
            | Some k =>
                let '(a, slice) := ancestor_of k separator in
                let k' :=
                  match slice with
                  | O => Some k
                  | _ => let s := slice_from slice k in
                         if String.eqb s "" then None else Some s
                  end in
                Ok (k', Some (AncNum a))
            | None => Throw "TypeError: Cannot read properties of null"
            end
        end
    else Ok (Some key, co_ancestor options) in
  let '(key, anc) := ka in
  let path :=
    if sep_truthy separator then
      match key with
      | None => []
      | Some k => VStr <$> split k (sep_join separator)
      end
    else [key_value key] in
  Ref_new {| o_adjust := co_adjust options;
             o_ancestor := anc;
             o_iterables := co_iterables options;
             o_map := co_map options;
             o_path := path;
             o_separator := Some separator;
             o_type := Some type;
             o_unknown := [] |}.

(** The validation state, as far as references read it
    ([state.ancestors], [state.mainstay.shadow]); [shadow] is the [get]
    method of the shadow object when [state.mainstay] carries one. *)
Record State : Type := mkState {
  ancestors : list JsVal;
  shadow : option (list JsVal -> JsVal) }.

Record Prefs : Type := mkPrefs {
  prefs_context : JsVal;
  prefs_convert : bool }.

Section Resolve.

(** [Hoek.reach(target, path, { iterables, functions: true })], from the
    external library @hapi/hoek. *)
Variable reach : JsVal -> list JsVal -> option bool -> JsVal.

(** [Ref.prototype._resolve]. [shadow_option] is [options.shadow]. *)
Definition _resolve (r : Ref) (target : JsVal) (state : State)
    (shadow_option : option bool) : JsVal :=
  let resolved :=
    match shadow state with
    | Some get =>
        if is_value (type r) && negb (bool_decide (shadow_option = Some false))
        then get (path r)
        else VUndef
    | None => VUndef
    end in
  let resolved :=
    if is_undefined resolved then reach target (path r) (iterables r) else resolved in
  let resolved :=
    match adjust r with
    | Some f => f resolved
    | None => resolved
    end in
  match map r with
  | Some m =>
      let mapped := Map_get m resolved in
      if is_undefined mapped then resolved else mapped
  | None => resolved
  end.

(** [Ref.prototype.resolve] *)
Definition resolve (r : Ref) (value : JsVal) (state : State) (prefs : Prefs)
    (local : JsVal) (shadow_option : option bool) : result JsVal :=
  match type r with
  | TGlobal => Ok (_resolve r (prefs_context prefs) state shadow_option)
  | TLocal => Ok (_resolve r local state shadow_option)
  | TValue =>
      match ancestor r with
      | None | Some (AncNum O) => Ok (_resolve r value state shadow_option)
      | Some AncRoot =>
          let target :=
            match List.length (ancestors state) with
            | O => VUndef
            | S n => index (ancestors state) n
            end in
          Ok (_resolve r target state shadow_option)
      | Some (AncNum (S n as a)) =>
          let! _ := assert (a <=? List.length (ancestors state))%nat
                      ("Invalid reference exceeds the schema root: " +:+ display r) in
          Ok (_resolve r (index (ancestors state) n) state shadow_option)
      end
  end.

End Resolve.

(** ** Resolution over data that can change

    The objects behind [value], [state.ancestors], [prefs.context] and
    [local] are mutable. Here what they hold is kept in a store:
    [Hoek.reach] reads it, and the call of [adjust] runs code of the
    caller, which returns a value and may write the store. The lookups
    in the shadow and in the map read these two objects only. *)
Section Stored.

Variable Store : Type.
Variable reach : Store -> JsVal -> list JsVal -> option bool -> JsVal.
(** [this.adjust(resolved)] *)
Variable call : (JsVal -> JsVal) -> JsVal -> Store -> JsVal * Store.

(** [Ref.prototype._resolve], with the store passed along *)
Definition _resolve_st (r : Ref) (target : JsVal) (state : State)
    (shadow_option : option bool) (σ : Store) : JsVal * Store :=
  let resolved :=
    match shadow state with
    | Some get =>
        if is_value (type r) && negb (bool_decide (shadow_option = Some false))
        then get (path r)
        else VUndef
    | None => VUndef
    end in
  let resolved :=
    if is_undefined resolved then reach σ target (path r) (iterables r) else resolved in
  let '(resolved, σ) :=
    match adjust r with
    | Some f => call f resolved σ
    | None => (resolved, σ)
    end in
  match map r with
  | Some m =>
      let mapped := Map_get m resolved in
      (if is_undefined mapped then resolved else mapped, σ)
  | None => (resolved, σ)
  end.

(** [Ref.prototype.resolve], with the store passed along *)
Definition resolve_st (r : Ref) (value : JsVal) (state : State) (prefs : Prefs)
    (local : JsVal) (shadow_option : option bool) (σ : Store)
    : result JsVal * Store :=
  let returned target :=
    let '(resolved, σ') := _resolve_st r target state shadow_option σ in
    (Ok resolved, σ') in
  match type r with
  | TGlobal => returned (prefs_context prefs)
  | TLocal => returned local
  | TValue =>
      match ancestor r with
      | None | Some (AncNum O) => returned value
      | Some AncRoot =>
          returned match List.length (ancestors state) with
                   | O => VUndef
                   | S n => index (ancestors state) n
                   end
      | Some (AncNum (S n as a)) =>
          if (a <=? List.length (ancestors state))%nat
          then returned (index (ancestors state) n)
          else (Throw ("Invalid reference exceeds the schema root: " +:+ display r), σ)
      end
  end.

End Stored.

Arguments _resolve_st {Store} reach call r target state shadow_option σ.
Arguments resolve_st {Store} reach call r value state prefs local shadow_option σ.

(** [ancestor === 1] *)
Definition is_parent (a : option Anc) : bool :=
  match a with Some (AncNum 1) => true | _ => false end.

(** [Ref.prototype.describe]: the object under the [ref] key *)
Definition describe (r : Ref) : RefOptions :=
  {| o_path := path r;
     o_type := if is_value (type r) then None else Some (type r);
     o_separator :=
       if sep_is (separator r) "." then None else Some (separator r);
     o_ancestor :=
       if is_value (type r) && negb (is_parent (ancestor r))
       then ancestor r else None;
     o_map := map r;
     o_adjust := adjust r;
     o_iterables := iterables r;
     o_unknown := [] |}.

(** [exports.build] *)
Definition build (desc : RefOptions) : result Ref :=
  let type := default TValue (o_type desc) in
  Ref_new {| o_adjust := o_adjust desc;
             o_ancestor :=
               match o_ancestor desc with
               | None => if is_value type then Some (AncNum 1) else None
               | a => a
               end;
             o_iterables := o_iterables desc;
             o_map := o_map desc;
             o_path := o_path desc;
             o_separator := Some (default (SepStr ".") (o_separator desc));
             o_type := Some type;
             o_unknown := o_unknown desc |}.

(** A plain-object instance of [Hoek.reach] used to run examples: each
    path segment selects a field of an object or an element of an array,
    and a missing segment yields undefined. *)
Definition reach_step (target key : JsVal) : JsVal :=
  match target, key with
  | VObj _ fields, VStr k =>
      default VUndef (snd <$> List.find (fun f => String.eqb (fst f) k) fields)
  | VArr _ items, VNum i =>
      if (i <? 0)%Z
      then index items (Z.to_nat (Z.of_nat (List.length items) + i))
      else index items (Z.to_nat i)
  | _, _ => VUndef
  end.

Definition reach_plain (target : JsVal) (path : list JsVal) (_ : option bool) : JsVal :=
  fold_left reach_step path target.

(** ** Notions used in the statements about references *)

(** The references a program can hold: those made by [create] or [build]. *)
Definition produced (r : Ref) : Prop :=
  (exists key options, create key options = Ok r) \/ (exists desc, build desc = Ok r).

(** The target the specification names for each kind of reference: the
    context for a global reference, the local map for a local one, and for
    a value reference the value itself at depth 0, the last ancestor for
    the root, and [ancestors[N - 1]] at depth N. *)
Definition claimed_target (r : Ref) (value : JsVal) (state : State) (prefs : Prefs)
    (local : JsVal) : JsVal :=
  match type r with
  | TGlobal => prefs_context prefs
  | TLocal => local
  | TValue =>
      match ancestor r with
      | None | Some (AncNum O) => value
      | Some AncRoot => index (ancestors state) (List.length (ancestors state) - 1)
      | Some (AncNum n) => index (ancestors state) (n - 1)
      end
  end.

(** The value that the shadow of the state holds for the path of a value
    reference, unless [options.shadow] is false; undefined when the state
    has no shadow or the shadow holds nothing for the path. *)
Definition shadowed (r : Ref) (state : State) (shadow_option : option bool) : JsVal :=
  match shadow state with
  | Some get =>
      if is_value (type r) && negb (bool_decide (shadow_option = Some false))
      then get (path r)
      else VUndef
  | None => VUndef
  end.

(** What is returned for the value found: the result of the [adjust]
    function on it when the reference has one, replaced by its image in
    the map when the reference has a map that holds one. *)
Definition adjusted (r : Ref) (found : JsVal) : JsVal :=
  let resolved :=
    match adjust r with
    | Some f => f found
    | None => found
    end in
  match map r with
  | Some m =>
      let mapped := Map_get m resolved in
      if is_undefined mapped then resolved else mapped
  | None => resolved
  end.

(** The outermost ancestor, [ancestors[ancestors.length - 1]] *)
Definition outermost (state : State) : JsVal := default VUndef (last (ancestors state)).

(** The options of [create] that leave the prefixes at their defaults and
    the separator at ["."], written out or by default. *)
Definition dot_separated (options : CreateOptions) : Prop :=
  co_prefix options = None /\
  (co_separator options = None \/ co_separator options = Some (SepStr ".")).

(** Example data: the reference [create("...x")] yields, and a chain of
    three ancestors, innermost first. *)
Definition default_options : CreateOptions :=
  mkCreateOptions None None None None None None [].

Definition ref_grandparent_x : Ref :=
  {| adjust := None; ancestor := Some (AncNum 2); iterables := None; map := None;
     path := [VStr "x"]; separator := SepStr "."; type := TValue; depth := 1;
     key := Some "x"; root := VStr "x"; display := "ref:...x" |}.

(** [create("a", { map: [[1, "x"], [1, "y"], [2, "z"]] })] and the
    reference it yields: the [Map] keeps one entry per key. *)
Definition options_with_map : CreateOptions :=
  mkCreateOptions None None None
    (Some [(VNum 1, VStr "x"); (VNum 1, VStr "y"); (VNum 2, VStr "z")]) None None [].

Definition ref_with_map : Ref :=
  {| adjust := None; ancestor := Some (AncNum 1); iterables := None;
     map := Some [(VNum 1, VStr "y"); (VNum 2, VStr "z")];
     path := [VStr "a"]; separator := SepStr "."; type := TValue; depth := 1;
     key := Some "a"; root := VStr "a"; display := "ref:a" |}.

Definition three_ancestors : State :=
  mkState [VObj 1%nat [("x", VNum 1)]; VObj 2%nat [("x", VNum 2)];
           VObj 3%nat [("x", VNum 3)]] None.

Definition no_ancestors : State := mkState [] None.

(** The reference to [x] of a given kind, as [create] yields it for the
    keys ["$x"], ["#x"], ["/x"] and for ["x"] with the ancestor option 0 *)
Definition ref_x (type : RefType) (ancestor : option Anc) (display : string) : Ref :=
  {| adjust := None; ancestor := ancestor; iterables := None; map := None;
     path := [VStr "x"]; separator := SepStr "."; type := type; depth := 1;
     key := Some "x"; root := VStr "x"; display := display |}.

(** [create("...x", { adjust })] for an [adjust] that adds one to a number *)
Definition add_one (v : JsVal) : JsVal :=
  match v with VNum n => VNum (n + 1) | _ => v end.

Definition ref_grandparent_adjusted : Ref :=
  {| adjust := Some add_one; ancestor := Some (AncNum 2); iterables := None;
     map := None; path := [VStr "x"]; separator := SepStr "."; type := TValue;
     depth := 1; key := Some "x"; root := VStr "x"; display := "ref:...x" |}.

(** The three ancestors with a shadow that holds 42 for every path *)
Definition shadowed_ancestors : State :=
  mkState (ancestors three_ancestors) (Some (fun _ => VNum 42)).

(** A store for the examples: it maps the identifier of an object to
    the fields the object has now, and a read follows the path through
    what the objects hold now. *)
Definition Objects : Type := list (ident * list (string * JsVal)).

Definition current (σ : Objects) (v : JsVal) : JsVal :=
  match v with
  | VObj id fields =>
      VObj id (default fields (snd <$> List.find (fun o => Nat.eqb (fst o) id) σ))
  | _ => v
  end.

Definition reach_objects (σ : Objects) (target : JsVal) (path : list JsVal)
    (_ : option bool) : JsVal :=
  fold_left (fun t key => reach_step (current σ t) key) path target.

(** A call that writes nothing, and a call whose function sets the
    field [x] of object 2 to 0 before it returns *)
Definition call_quiet (f : JsVal -> JsVal) (v : JsVal) (σ : Objects) : JsVal * Objects :=
  (f v, σ).
Definition call_writing (f : JsVal -> JsVal) (v : JsVal) (σ : Objects) : JsVal * Objects :=
  (f v, (2%nat, [("x", VNum 0)]) :: σ).

Definition some_prefs : Prefs := mkPrefs (VObj 9%nat [("x", VNum 99)]) true.

End Ref.

(* ===================================================================== *)
(** * Schemas, rules and error reports *)
(* ===================================================================== *)

Module Schema.
Import Js.

(** A regular expression: its source, its flags, and [regex.test] *)
Record RegExp : Type := mkRegExp {
  re_source : string;
  re_flags : string;
  re_test : string -> bool }.

(** A rule argument that may be a literal or a reference, and the values
    placed in the context of an error report. *)
Inductive Arg : Type :=
| AVal (v : JsVal)
| ARef (r : Ref.Ref)
| ARegExp (re : RegExp)
| ANames (l : list string).

(** An error report ([Errors.Report]): its code, the value it was raised
    for, and its context ([local]). The context of an aggregate holds
    [Errors.details(errors, { override: false })] of the collected
    errors, kept as that list. *)
Inductive Report : Type :=
| mkReport (code : string) (value : JsVal) (local : Local)
with Local : Type :=
| LFields (fields : list (string * Arg))
| LDetails (errors : list ErrItem)
with ErrItem : Type :=
| EReport (r : Report)
| EOther (e : JsVal).

Definition report_code (r : Report) : string :=
  match r with mkReport c _ _ => c end.
Definition report_value (r : Report) : JsVal :=
  match r with mkReport _ v _ => v end.
Definition report_local (r : Report) : Local :=
  match r with mkReport _ _ l => l end.

(** The [errors] member of a result: absent, one report, or an array *)
Inductive Errors : Type :=
| NoErrors
| OneError (r : Report)
| ErrorList (l : list ErrItem).

(** What a hook or [$_validate] returns: [{ value, errors }] *)
Record Outcome : Type := mkOutcome {
  out_value : JsVal;
  out_errors : Errors }.

(** [!result.errors]; an array is truthy even when empty *)
Definition no_errors (e : Errors) : bool :=
  match e with NoErrors => true | _ => false end.

(** [errors.push(...result.errors)] *)
Definition spread (e : Errors) : list ErrItem :=
  match e with
  | NoErrors => []
  | OneError r => [EReport r]
  | ErrorList l => l
  end.

(** The limit argument of [min], [max], [length] *)
Inductive Limit : Type :=
| LimNum (n : Z)
| LimRef (r : Ref.Ref).

(** The names under which [internals.length] registers a rule *)
Inductive LengthName : Type := NLength | NMax | NMin.

Definition length_name (n : LengthName) : string :=
  match n with NLength => "length" | NMax => "max" | NMin => "min" end.

(** A ruleset entry of the string type, with the arguments and the rule
    state ([operator], [errorCode]) that [$_addRule] receives. The rules
    whose checks rest on format validators outside these sources (email,
    uri, ip, guid, ...) are left out. *)
Inductive Rule : Type :=
| RNormalize (form : string)
| RCase (direction : string)
| RTrim (enabled : bool)
| RHex (byteAligned : bool)
| RIsoDate
| RLength (name : LengthName) (limit : Limit) (encoding : option string)
    (operator : string)
| RPattern (regex : RegExp) (invert : bool) (name : option string)
    (errorCode : string).

Definition rule_name (r : Rule) : string :=
  match r with
  | RNormalize _ => "normalize"
  | RCase _ => "case"
  | RTrim _ => "trim"
  | RHex _ => "hex"
  | RIsoDate => "isoDate"
  | RLength n _ _ _ => length_name n
  | RPattern _ _ _ _ => "pattern"
  end.

(** [{ pattern, replacement }] of [$_terms.replacements] *)
Record Replacement : Type := mkReplacement {
  rep_pattern : RegExp;
  rep_replacement : string }.

(** The flags set by the methods of the two types and by [label] and
    [required] of the base type *)
Record Flags : Type := mkFlags {
  f_insensitive : option bool;
  f_truncate : option bool;
  f_endedSwitch : option bool;
  f_arrayItems : option bool;
  f_label : option string;
  f_presence : option string }.

Definition no_flags : Flags := mkFlags None None None None None None.

(** A schema node, and an entry of [$_terms.matches]: [{ schema }] for
    [try], [{ ref, peek, is, then, otherwise }] for [when]. *)
Inductive Schema : Type :=
| mkSchema (type : string) (flags : Flags) (rules : list Rule)
    (matches : list Match) (replacements : option (list Replacement))
with Match : Type :=
| mkMatch (schema : option Schema) (ref : option Ref.Ref)
    (peek is_ then_ otherwise : option Schema).

Definition type (s : Schema) : string :=
  match s with mkSchema t _ _ _ _ => t end.
Definition flags (s : Schema) : Flags :=
  match s with mkSchema _ f _ _ _ => f end.
Definition rules (s : Schema) : list Rule :=
  match s with mkSchema _ _ r _ _ => r end.
Definition matches (s : Schema) : list Match :=
  match s with mkSchema _ _ _ m _ => m end.
Definition replacements (s : Schema) : option (list Replacement) :=
  match s with mkSchema _ _ _ _ r => r end.

Definition m_schema (m : Match) : option Schema :=
  match m with mkMatch s _ _ _ _ _ => s end.
Definition m_ref (m : Match) : option Ref.Ref :=
  match m with mkMatch _ r _ _ _ _ => r end.
Definition m_peek (m : Match) : option Schema :=
  match m with mkMatch _ _ p _ _ _ => p end.
Definition m_is (m : Match) : option Schema :=
  match m with mkMatch _ _ _ i _ _ => i end.
Definition m_then (m : Match) : option Schema :=
  match m with mkMatch _ _ _ _ t _ => t end.
Definition m_otherwise (m : Match) : option Schema :=
  match m with mkMatch _ _ _ _ _ o => o end.

Definition set_flags (s : Schema) (f : Flags) : Schema :=
  mkSchema (type s) f (rules s) (matches s) (replacements s).
Definition set_rules (s : Schema) (r : list Rule) : Schema :=
  mkSchema (type s) (flags s) r (matches s) (replacements s).
Definition set_matches (s : Schema) (m : list Match) : Schema :=
  mkSchema (type s) (flags s) (rules s) m (replacements s).
Definition set_replacements (s : Schema) (r : option (list Replacement)) : Schema :=
  mkSchema (type s) (flags s) (rules s) (matches s) r.

(** [schema.$_getRule(name)] *)
Definition getRule (s : Schema) (name : string) : option Rule :=
  List.find (fun r => String.eqb (rule_name r) name) (rules s).

(** [helpers.error(code, local)] / [schema.$_createError(code, value, local, ...)] *)
Definition error (code : string) (value : JsVal) (local : Local) : Report :=
  mkReport code value local.

End Schema.

(* ===================================================================== *)
(** * The parts of the base type that the builders call *)
(* ===================================================================== *)

Module Base.
Import Js Schema.

Definition with_insensitive (f : Flags) (b : bool) : Flags :=
  mkFlags (Some b) (f_truncate f) (f_endedSwitch f) (f_arrayItems f) (f_label f) (f_presence f).
Definition with_truncate (f : Flags) (b : bool) : Flags :=
  mkFlags (f_insensitive f) (Some b) (f_endedSwitch f) (f_arrayItems f) (f_label f) (f_presence f).
Definition with_endedSwitch (f : Flags) (b : bool) : Flags :=
  mkFlags (f_insensitive f) (f_truncate f) (Some b) (f_arrayItems f) (f_label f) (f_presence f).
Definition with_arrayItems (f : Flags) (b : bool) : Flags :=
  mkFlags (f_insensitive f) (f_truncate f) (f_endedSwitch f) (Some b) (f_label f) (f_presence f).
Definition with_label (f : Flags) (name : string) : Flags :=
  mkFlags (f_insensitive f) (f_truncate f) (f_endedSwitch f) (f_arrayItems f) (Some name) (f_presence f).
Definition with_presence (f : Flags) (p : string) : Flags :=
  mkFlags (f_insensitive f) (f_truncate f) (f_endedSwitch f) (f_arrayItems f) (f_label f) (Some p).

(** Modelled from the spec: [$_setFlag] of lib/base.js, which is not among
    the sources. Flags are "single-valued, overwrite-on-set configuration";
    the setter returns a node that differs from the receiver in that flag. *)
Definition setFlag (s : Schema) (set : Flags -> Flags) : Schema :=
  set_flags s (set (flags s)).

(** Modelled from the spec: [required()] of lib/base.js sets the presence
    flag to required. *)
Definition required (s : Schema) : Schema :=
  setFlag s (fun f => with_presence f "required").

(** Replaces the first rule of the same name, keeping its position *)
Fixpoint replace_rule (l : list Rule) (r : Rule) : list Rule :=
  match l with
  | [] => []
  | x :: l' =>
      if String.eqb (rule_name x) (rule_name r) then r :: l'
      else x :: replace_rule l' r
  end.

(** Modelled from the spec: [$_addRule] of lib/base.js, which is not among
    the sources. A literal argument that carries an [assert] predicate is
    checked when the rule is attached (the limit of the length rules, by
    [Common.limit]); a reference argument is left for validation time. The
    rule is appended, except that a rule that is not [multi] replaces an
    earlier rule of the same name in place. *)
Definition addRule (Common_limit : JsVal -> bool) (s : Schema) (r : Rule)
    (multi : bool) : result Schema :=
  let! _ :=
    match r with
    | RLength _ (LimNum n) _ _ =>
        assert (Common_limit (VNum n)) "limit must be a positive integer"
    | _ => Ok tt
    end in
  if negb multi && existsb (fun x => String.eqb (rule_name x) (rule_name r)) (rules s)
  then Ok (set_rules s (replace_rule (rules s) r))
  else Ok (set_rules s (rules s ++ [r])).

End Base.

(* ===================================================================== *)
(** * The string type ([lib/types/string/index.js]) *)
(* ===================================================================== *)

Module StringType.
Import Js Schema.

(** [s.includes(sub)] *)
Fixpoint includes (s sub : string) : bool :=
  String.prefix sub s ||
  match s with
  | String _ s' => includes s' sub
  | EmptyString => false
  end.

(** [internals.hexRegex]: [/^[a-f0-9]+$/i] *)
Definition is_hex_digit (c : ascii) : bool :=
  let n := nat_of_ascii c in
  ((48 <=? n) && (n <=? 57) || (65 <=? n) && (n <=? 70) || (97 <=? n) && (n <=? 102))%nat.

Fixpoint all_hex (s : string) : bool :=
  match s with
  | String c s' => is_hex_digit c && all_hex s'
  | EmptyString => true
  end.

Definition hexRegex_test (s : string) : bool :=
  negb (String.eqb s "") && all_hex s.

(** Modelled from the spec: [Common.compare] (lib/common.js is not among
    the sources) applies the comparison a length rule records as its
    operator: [>=], [<=] or [=]. *)
Definition compare (a b : Z) (operator : string) : bool :=
  if String.eqb operator "=" then a =? b
  else if String.eqb operator ">=" then b <=? a
  else if String.eqb operator "<=" then a <=? b
  else false.

Definition undefined_or (o : option string) : JsVal :=
  match o with Some s => VStr s | None => VUndef end.

Definition limit_arg (l : Limit) : Arg :=
  match l with LimNum n => AVal (VNum n) | LimRef r => ARef r end.

(** The string type of the factory: [initialize] sets
    [$_terms.replacements] to null. *)
Definition string_ : Schema := mkSchema "string" no_flags [] [] None.

Section Hooks.

(** Built-ins of the language and of Node.js *)
Variable normalize : string -> string -> string.
Variable toLocaleUpperCase : string -> string.
Variable toLocaleLowerCase : string -> string.
Variable replace : string -> RegExp -> string -> string.
Variable byteLength : string -> string -> Z.
(** [new Date(value)] followed by [toISOString()], when the date is valid *)
Variable toISOString : string -> option string.
(** [Hoek.reach], used by reference resolution *)
Variable reach : JsVal -> list JsVal -> option bool -> JsVal.
(** [Common.isIsoDate] and [Common.limit], from lib/common.js *)
Variable isIsoDate : string -> bool.
Variable Common_limit : JsVal -> bool.

(** [value.slice(0, limit)] once [limit] is known to be a number *)
Definition limit_number (v : JsVal) : Z :=
  match v with VNum n => n | _ => 0 end.

(** The steps of [coerce.method] up to the replacements *)
Definition coerce_normalize (schema : Schema) (value : string) : string :=
  match getRule schema "normalize" with
  | Some (RNormalize form) => normalize value form
  | _ => value
  end.

Definition coerce_case (schema : Schema) (value : string) : string :=
  match getRule schema "case" with
  | Some (RCase direction) =>
      if String.eqb direction "upper"
      then toLocaleUpperCase value else toLocaleLowerCase value
  | _ => value
  end.

Definition coerce_trim (schema : Schema) (value : string) : string :=
  match getRule schema "trim" with
  | Some (RTrim true) => trim value
  | _ => value
  end.

Definition coerce_replacements (schema : Schema) (value : string) : string :=
  match replacements schema with
  | Some l =>
      fold_left (fun v r => replace v (rep_pattern r) (rep_replacement r)) l value
  | None => value
  end.

Definition coerce_hex (schema : Schema) (value : string) : string :=
  match getRule schema "hex" with
  | Some (RHex true) =>
      if negb (Nat.even (String.length value)) then "0" +:+ value else value
  | _ => value
  end.

(** The value after normalize, case, trim, replacements and hex padding *)
Definition coerce_prepare (schema : Schema) (value : string) : string :=
  coerce_hex schema
    (coerce_replacements schema
       (coerce_trim schema
          (coerce_case schema
             (coerce_normalize schema value)))).

(** The isoDate step: the converted value, or the value that failed *)
Definition coerce_isoDate (schema : Schema) (value : string) : string + string :=
  match getRule schema "isoDate" with
  | Some _ =>
      if isIsoDate value then
        match toISOString value with
        | Some iso => inl iso
        | None => inr value
        end
      else inr value
  | None => inl value
  end.

(** [coerce.method] *)
Definition coerce (schema : Schema) (value : string) (state : Ref.State)
    (prefs : Ref.Prefs) : result Outcome :=
  let value := coerce_prepare schema value in
  match coerce_isoDate schema value with
  | inr value =>
      Ok (mkOutcome (VStr value)
            (OneError (error "string.isoDate" (VStr value) (LFields []))))
  | inl value =>
      if default false (f_truncate (flags schema)) then
        match getRule schema "max" with
        | Some (RLength _ (LimRef ref) _ _) =>
            let! limit := Ref.resolve reach ref (VStr value) state prefs VUndef None in
            if negb (Common_limit limit) then
              Ok (mkOutcome (VStr value)
                    (OneError (error "any.ref" limit
                       (LFields [("ref", ARef ref);
                                 ("arg", AVal (VStr "limit"));
                                 ("reason", AVal (VStr "must be a positive integer"))]))))
            else Ok (mkOutcome (VStr (slice0 value (limit_number limit))) NoErrors)
        | Some (RLength _ (LimNum limit) _ _) =>
            Ok (mkOutcome (VStr (slice0 value limit)) NoErrors)
        | _ => Ok (mkOutcome (VStr value) NoErrors)
        end
      else Ok (mkOutcome (VStr value) NoErrors)
  end.

(** The base [validate] hook; [None] when it returns nothing *)
Definition validate (value : JsVal) : option Outcome :=
  match value with
  | VStr s =>
      if String.eqb s ""
      then Some (mkOutcome value (OneError (error "string.empty" value (LFields []))))
      else None
  | _ => Some (mkOutcome value (OneError (error "string.base" value (LFields []))))
  end.

(** [rules.length.validate], shared by [length], [min] and [max]:
    [limit] is the resolved limit, [args_limit] the one given to the rule. *)
Definition length_validate (value : string) (limit : Z) (encoding : option string)
    (name : LengthName) (operator : string) (args_limit : Limit) : JsVal + Report :=
  let length :=
    match encoding with
    | Some e => if String.eqb e "" then Z.of_nat (String.length value)
                else byteLength value e
    | None => Z.of_nat (String.length value)
    end in
  if compare length limit operator then inl (VStr value)
  else inr (error ("string." +:+ length_name name) (VStr value)
              (LFields [("limit", limit_arg args_limit);
                        ("value", AVal (VStr value));
                        ("encoding", AVal (undefined_or encoding))])).

(** [rules.pattern.validate] *)
Definition pattern_validate (value : string) (regex : RegExp) (invert : bool)
    (name : option string) (errorCode : string) : JsVal + Report :=
  let patternMatch := re_test regex value in
  if xorb patternMatch invert then inl (VStr value)
  else inr (error errorCode (VStr value)
              (LFields [("name", AVal (undefined_or name));
                        ("regex", ARegExp regex);
                        ("value", AVal (VStr value))])).

(** The [validate] functions of the converting rules and of [hex] *)
Definition normalize_validate (value form : string) : JsVal + Report :=
  if String.eqb value (normalize value form) then inl (VStr value)
  else inr (error "string.normalize" (VStr value)
              (LFields [("value", AVal (VStr value)); ("form", AVal (VStr form))])).

Definition case_validate (value direction : string) : JsVal + Report :=
  if String.eqb direction "lower" && String.eqb value (toLocaleLowerCase value)
     || String.eqb direction "upper" && String.eqb value (toLocaleUpperCase value)
  then inl (VStr value)
  else inr (error ("string." +:+ direction +:+ "case") (VStr value) (LFields [])).

Definition trim_validate (value : string) (enabled : bool) : JsVal + Report :=
  if negb enabled || String.eqb value (trim value) then inl (VStr value)
  else inr (error "string.trim" (VStr value) (LFields [])).

Definition hex_validate (value : string) (byteAligned : bool) : JsVal + Report :=
  if negb (hexRegex_test value) then
    inr (error "string.hex" (VStr value) (LFields []))
  else if byteAligned && negb (Nat.even (String.length value)) then
    inr (error "string.hexAlign" (VStr value) (LFields []))
  else inl (VStr value).

Definition isoDate_validate (value : string) : JsVal + Report :=
  if isIsoDate value then inl (VStr value)
  else inr (error "string.isoDate" (VStr value) (LFields [])).

End Hooks.

(** ** Builder methods *)

(** The [regex] argument of [pattern] and the [pattern] argument of
    [replace]: a RegExp, a string, or some other value *)
Inductive PatternArg : Type :=
| PRegExp (re : RegExp)
| PString (s : string)
| POther (v : JsVal).

(** The [options] argument of [pattern]: a string (the name) or an object
    with the keys [invert] and [name]; [po_unknown] lists any other key. *)
Inductive PatternOptions : Type :=
| POName (name : string)
| POObject (po_invert : bool) (po_name : option string) (po_unknown : list string).

Section Builders.

Variable Common_limit : JsVal -> bool.
(** [Buffer.isEncoding] *)
Variable isEncoding : string -> bool.
(** [new RegExp(Hoek.escapeRegex(pattern), 'g')] *)
Variable escaped_global : string -> RegExp.

(** [internals.length] *)
Definition length_ (schema : Schema) (name : LengthName) (limit : Limit)
    (operator : string) (encoding : option string) : result Schema :=
  let! _ := assert (match encoding with
                    | Some e => String.eqb e "" || isEncoding e
                    | None => true
                    end) "Invalid encoding:" in
  Base.addRule Common_limit schema (RLength name limit encoding operator) false.

(** [rules.length.method], [rules.max.method], [rules.min.method] *)
Definition length (this : Schema) (limit : Limit) (encoding : option string) : result Schema :=
  length_ this NLength limit "=" encoding.
Definition max (this : Schema) (limit : Limit) (encoding : option string) : result Schema :=
  length_ this NMax limit "<=" encoding.
Definition min (this : Schema) (limit : Limit) (encoding : option string) : result Schema :=
  length_ this NMin limit ">=" encoding.

(** [rules.truncate.method]; [enabled] defaults to true *)
Definition truncate (this : Schema) (enabled : option JsVal) : result Schema :=
  match default (VBool true) enabled with
  | VBool b => Ok (Base.setFlag this (fun f => Base.with_truncate f b))
  | _ => Throw "enabled must be a boolean"
  end.

(** [rules.pattern.method] *)
Definition pattern (this : Schema) (regex : PatternArg) (options : option PatternOptions)
    : result Schema :=
  match regex with
  | PRegExp regex =>
      let! _ := assert (negb (includes (re_flags regex) "g")
                        && negb (includes (re_flags regex) "y"))
                  "regex should not use global or sticky mode" in
      let '(invert, name, unknown) :=
        match options with
        | None => (false, None, [])
        | Some (POName n) => (false, Some n, [])
        | Some (POObject i n u) => (i, n, u)
        end in
      let! _ := Ref.assertOptions unknown in
      let errorCode :=
        "string.pattern" +:+ (if invert then ".invert" else "")
        +:+ (match name with
             | Some n => if String.eqb n "" then ".base" else ".name"
             | None => ".base"
             end) in
      Base.addRule Common_limit this (RPattern regex invert name errorCode) true
  | _ => Throw "regex must be a RegExp"
  end.

(** [rules.replace.method] *)
Definition replace_ (this : Schema) (pattern : PatternArg) (replacement : JsVal)
    : result Schema :=
  let pattern :=
    match pattern with
    | PString s => PRegExp (escaped_global s)
    | p => p
    end in
  match pattern with
  | PRegExp pattern =>
      match replacement with
      | VStr replacement =>
          let obj := this in
          let l := default [] (replacements obj) in
          Ok (set_replacements obj (Some (l ++ [mkReplacement pattern replacement])))
      | _ => Throw "replacement must be a String"
      end
  | _ => Throw "pattern must be a RegExp"
  end.

End Builders.

End StringType.

(* ===================================================================== *)
(** * The alternatives type ([lib/types/alternatives.js]) *)
(* ===================================================================== *)

Module Alternatives.
Import Js Schema.

(** The alternatives type of the factory: [initialize] sets
    [$_terms.matches] to the empty array. *)
Definition alternatives : Schema := mkSchema "alternatives" no_flags [] [] None.

(** What a hook returns: [{ errors }] or the whole result of a branch *)
Record HookResult : Type := mkHookResult {
  h_value : option JsVal;
  h_errors : Errors }.

Definition of_outcome (o : Outcome) : HookResult :=
  mkHookResult (Some (out_value o)) (out_errors o).

(** ** Base validation *)

(** The type named by a report whose code reads [<type>.base...]: the
    second dot-separated part of the code is compared with ['base']. *)
Definition base_type (e : ErrItem) : option string :=
  match e with
  | EReport report =>
      match split (report_code report) "." with
      | type :: code :: _ => if String.eqb code "base" then Some type else None
      | _ => None
      end
  | EOther _ => None
  end.

(** The loop over the collected errors: [None] as soon as an entry is not
    a report or not a base error, otherwise the types collected *)
Fixpoint collect_types (errors : list ErrItem) (types : list string)
    : option (list string) :=
  match errors with
  | [] => Some types
  | report :: rest =>
      match base_type report with
      | Some type => collect_types rest (types ++ [type])
      | None => None
      end
  end.

(** The part of [validate] after the loop over the matches *)
Definition aggregate (value : JsVal) (errors : list ErrItem) : HookResult :=
  match errors with
  | [] => mkHookResult None (OneError (error "alternatives.base" value (LFields [])))
  | [_] => mkHookResult None (ErrorList errors)
  | _ =>
      match collect_types errors [] with
      | None =>
          mkHookResult None
            (OneError (error "alternatives.match" value (LDetails errors)))
      | Some types =>
          mkHookResult None
            (OneError (error "alternatives.types" value (LFields [("types", ANames types)])))
      end
  end.

Section Validate.

(** [schema.$_validate] and [schema.$_match] of the schemas held by the
    matches, [state.nest] and [state.entry], and [Hoek.reach] *)
Variable validate_ : Schema -> JsVal -> Ref.State -> Ref.Prefs -> result Outcome.
Variable match_ : Schema -> JsVal -> Ref.State -> Ref.Prefs -> result bool.
Variable nest : Ref.State -> Schema -> Ref.State.
Variable entry : Ref.State -> Schema -> JsVal -> Ref.State.
Variable reach : JsVal -> list JsVal -> option bool -> JsVal.

(** The loop over [schema.$_terms.matches]: the result returned from
    inside the loop, or the errors collected when it runs to its end *)
Fixpoint validate_matches (items : list Match) (value : JsVal) (state : Ref.State)
    (prefs : Ref.Prefs) (errors : list ErrItem) : result (Outcome + list ErrItem) :=
  match items with
  | [] => Ok (inr errors)
  | item :: rest =>
      match m_schema item with
      | Some schema =>
          let! result := validate_ schema value (nest state schema) prefs in
          if no_errors (out_errors result) then Ok (inl result)
          else validate_matches rest value state prefs (errors ++ spread (out_errors result))
      | None =>
          let! input :=
            match m_is item with
            | Some _ =>
                match m_ref item with
                | Some ref => Ref.resolve reach ref value state prefs VUndef None
                | None => Throw "TypeError: Cannot read properties of null"
                end
            | None => Ok value
            end in
          (* const is = item.peek || item.is *)
          let! matched :=
            match m_peek item with
            | Some is_ =>
                match_ is_ input (entry state is_ (index (Ref.ancestors state) 0)) prefs
            | None =>
                match m_is item with
                | Some is_ =>
                    match_ is_ input (entry state is_ (index (Ref.ancestors state) 0)) prefs
                | None => Throw "TypeError: Cannot read properties of undefined"
                end
            end in
          if negb matched then
            match m_otherwise item with
            | Some otherwise =>
                let! result := validate_ otherwise value (nest state otherwise) prefs in
                Ok (inl result)
            | None => validate_matches rest value state prefs errors
            end
          else
            match m_then item with
            | Some then_ =>
                let! result := validate_ then_ value (nest state then_) prefs in
                Ok (inl result)
            | None => validate_matches rest value state prefs errors
            end
      end
  end.

(** The [validate] hook *)
Definition validate (schema : Schema) (value : JsVal) (state : Ref.State)
    (prefs : Ref.Prefs) : result HookResult :=
  let! r := validate_matches (matches schema) value state prefs [] in
  match r with
  | inl result => Ok (of_outcome result)
  | inr errors => Ok (aggregate value errors)
  end.

End Validate.

(** ** Rebuild *)

Definition is_array_schema (o : option Schema) : bool :=
  match o with Some s => String.eqb (type s) "array" | None => false end.

(** The [rebuild] hook, as far as the flags go: [_arrayItems] is set when
    a schema of a match is of type array. (The registration of references
    with the reference manager is not part of the schema model.) *)
Definition rebuild (schema : Schema) : Schema :=
  if existsb (fun m => is_array_schema (m_schema m) || is_array_schema (m_then m)
                       || is_array_schema (m_otherwise m)) (matches schema)
  then Base.setFlag schema (fun f => Base.with_arrayItems f true)
  else schema.

(** [$_mutateRebuild], which runs the [rebuild] hook and returns the node *)
Definition mutateRebuild (schema : Schema) : Schema := rebuild schema.

(** ** Builder methods *)

(** A value given where a schema is expected: a schema, a reference, or
    a literal that [$_compile] turns into a schema *)
Inductive Like : Type :=
| LSchema (s : Schema)
| LRef (r : Ref.Ref)
| LVal (v : JsVal).

Definition like_truthy (x : Like) : bool :=
  match x with LVal v => truthy v | _ => true end.

(** [x !== undefined] for an option key that may be absent *)
Definition defined (x : option Like) : bool :=
  match x with
  | None | Some (LVal VUndef) => false
  | Some _ => true
  end.

(** The argument of [try]: one schema, or an array of them *)
Inductive TryArg : Type :=
| TryOne (schema : Like)
| TryMany (schemas : list Like).

(** The [condition] argument of [when] *)
Inductive Condition : Type :=
| CondRef (r : Ref.Ref)
| CondStr (s : string)
| CondSchema (s : Schema)
| CondOther (v : JsVal).

Definition isSchema (c : Condition) : bool :=
  match c with CondSchema _ => true | _ => false end.

(** [{ is, then, otherwise }], the settings of one condition *)
Record Settings : Type := mkSettings {
  s_is : option Like;
  s_then : option Like;
  s_otherwise : option Like }.

(** An entry of [options.switch]; [t_unknown] lists its other keys *)
Record Case : Type := mkCase {
  t_is : option Like;
  t_then : option Like;
  t_otherwise : option Like;
  t_unknown : list string }.

Inductive Switch : Type :=
| SwitchArray (cases : list Case)
| SwitchOther (v : JsVal).

(** The [options] object of [when]; [w_unknown] lists the keys other than
    [is], [then], [otherwise], [switch]. *)
Record WhenOptions : Type := mkWhenOptions {
  w_is : option Like;
  w_then : option Like;
  w_otherwise : option Like;
  w_switch : option Switch;
  w_unknown : list string }.

(** The second argument of [when]: an options object or an array *)
Inductive WhenArg : Type :=
| WhenObject (options : WhenOptions)
| WhenArray (cases : list Case).

(** [if (Array.isArray(options)) options = { switch: options }] *)
Definition when_options (options : WhenArg) : WhenOptions :=
  match options with
  | WhenArray cases => mkWhenOptions None None None (Some (SwitchArray cases)) []
  | WhenObject o => o
  end.

Definition switch_truthy (s : option Switch) : bool :=
  match s with
  | None => false
  | Some (SwitchArray _) => true
  | Some (SwitchOther v) => truthy v
  end.

Definition switch_defined (s : option Switch) : bool :=
  match s with
  | None | Some (SwitchOther VUndef) => false
  | Some _ => true
  end.

(** The double quote, for the messages that quote option names *)
Definition dq : string := String (ascii_of_nat 34) EmptyString.
Definition quoted (s : string) : string := dq +:+ s +:+ dq.

Section Builders.

(** [obj.$_compile] (lib/compile.js), [Compile.ref] and [required()] *)
Variable compile : Like -> result Schema.
Variable compile_ref : Condition -> result Ref.Ref.
Variable required : Schema -> Schema.

(** The loop of [try] over the schemas *)
Fixpoint try_push (obj : Schema) (schemas : list Like) : result Schema :=
  match schemas with
  | [] => Ok obj
  | schema :: rest =>
      let! compiled := compile schema in
      try_push
        (set_matches obj (matches obj ++ [mkMatch (Some compiled) None None None None None]))
        rest
  end.

(** [rules.try.method] *)
Definition try (this : Schema) (schemas : TryArg) : result Schema :=
  let! _ := assert (match schemas with TryOne x => like_truthy x | TryMany _ => true end)
              "Missing alternative schemas" in
  let! _ := assert (negb (default false (f_endedSwitch (flags this))))
              "Unreachable condition" in
  let schemas := match schemas with TryOne x => [x] | TryMany l => l end in
  let obj := this in
  let! obj := try_push obj schemas in
  Ok (mutateRebuild obj).

(** A call [this.try(a, b, ...)]: the method declares the one parameter
    [schemas], which receives the first argument (undefined when there
    is none); further arguments are not read. *)
Definition try_call (this : Schema) (args : list TryArg) : result Schema :=
  try this (match args with
            | schemas :: _ => schemas
            | [] => TryOne (LVal VUndef)
            end).

Definition compile_opt (x : option Like) : result (option Schema) :=
  if defined x then
    match x with
    | Some y => let! c := compile y in Ok (Some c)
    | None => Ok None
    end
  else Ok None.

(** The closure [normalize] of [when]; the node [obj] it may flag is
    passed through. *)
Definition normalize (obj : Schema) (match_ : Condition) (settings : Settings)
    : result (Match * Schema) :=
  let! ref :=
    match match_ with
    | CondSchema _ => Ok None
    | _ => let! r := compile_ref match_ in Ok (Some r)
    end in
  let peek := match match_ with CondSchema s => Some s | _ => None end in
  let! then_ := compile_opt (s_then settings) in
  let! otherwise := compile_opt (s_otherwise settings) in
  let! is_ :=
    if defined (s_is settings) then
      match s_is settings with
      | Some (LVal v) => let! c := compile (LVal v) in Ok (Some (required c))
      | Some y => let! c := compile y in Ok (Some c)
      | None => Ok None
      end
    else Ok None in
  let obj :=
    match then_, otherwise with
    | Some _, Some _ => Base.setFlag obj (fun f => Base.with_endedSwitch f true)
    | _, _ => obj
    end in
  Ok (mkMatch None ref peek is_ then_ otherwise, obj).

Definition push (obj : Schema) (item : Match) : Schema :=
  set_matches obj (matches obj ++ [item]).

(** The loop of [when] over [options.switch] *)
Fixpoint when_switch (obj : Schema) (condition : Condition) (options : WhenOptions)
    (cases : list Case) : result Schema :=
  match cases with
  | [] => Ok obj
  | test :: rest =>
      let! _ := assert (defined (t_is test))
                  ("Switch statement missing " +:+ quoted "is") in
      let! _ := assert (defined (t_then test))
                  ("Switch statement missing " +:+ quoted "then") in
      match rest with
      | _ :: _ =>
          let! _ := Ref.assertOptions
                      (match t_otherwise test with
                       | Some _ => "otherwise" :: t_unknown test
                       | None => t_unknown test
                       end) in
          let! io := normalize obj condition
                       (mkSettings (t_is test) (t_then test) (t_otherwise test)) in
          when_switch (push (snd io) (fst io)) condition options rest
      | [] =>
          let! _ := Ref.assertOptions (t_unknown test) in
          let! _ := assert (negb (defined (w_otherwise options))
                            || negb (defined (t_otherwise test)))
                      ("Cannot specify " +:+ quoted "otherwise"
                       +:+ " inside and outside a " +:+ quoted "switch") in
          let otherwise :=
            if defined (w_otherwise options) then w_otherwise options
            else t_otherwise test in
          let! io := normalize obj condition
                       (mkSettings (t_is test) (t_then test) otherwise) in
          Ok (push (snd io) (fst io))
      end
  end.

(** [overrides.when] *)
Definition when (this : Schema) (condition : Condition) (options : WhenArg)
    : result Schema :=
  let options := when_options options in
  let! _ := Ref.assertOptions (w_unknown options) in
  let schemaCondition := isSchema condition in
  let! _ := assert (negb (default false (f_endedSwitch (flags this))))
              "Unreachable condition" in
  let! _ := assert (match condition with CondOther _ => false | _ => true end)
              "Invalid condition:" in
  let! _ := assert (negb (switch_truthy (w_switch options)) || negb (defined (w_is options)))
              ("Cannot combine " +:+ quoted "switch" +:+ " with " +:+ quoted "is") in
  let! _ := assert (negb (switch_truthy (w_switch options)) || negb (defined (w_then options)))
              ("Cannot combine " +:+ quoted "switch" +:+ " with " +:+ quoted "then") in
  let! _ := assert (switch_defined (w_switch options) || defined (w_then options)
                    || defined (w_otherwise options))
              ("options must have at least one of " +:+ quoted "then" +:+ ", "
               +:+ quoted "otherwise" +:+ ", or " +:+ quoted "switch") in
  let! _ := assert (negb schemaCondition || negb (defined (w_is options)))
              (quoted "is" +:+ " can not be used with a schema condition") in
  let! _ := assert (negb schemaCondition || negb (switch_defined (w_switch options)))
              (quoted "switch" +:+ " can not be used with a schema condition") in
  let! _ := assert (schemaCondition || defined (w_is options)
                    || switch_defined (w_switch options))
              ("Missing " +:+ quoted "is" +:+ " or " +:+ quoted "switch" +:+ " option") in
  let! _ := assert (match w_switch options with
                    | Some (SwitchOther v) => is_undefined v
                    | _ => true
                    end)
              (quoted "switch" +:+ " must be an array") in
  let obj := this in
  match w_switch options with
  | Some (SwitchArray cases) =>
      let! obj := when_switch obj condition options cases in
      Ok (mutateRebuild obj)
  | _ =>
      let! io := normalize obj condition
                   (mkSettings (w_is options) (w_then options) (w_otherwise options)) in
      Ok (mutateRebuild (push (snd io) (fst io)))
  end.

End Builders.

End Alternatives.

(* ===================================================================== *)
(** * The validation pipeline of a schema node *)
(* ===================================================================== *)

Module Engine.
Import Js Schema.

(** Modelled from the spec: the number type (lib/types/number.js is not
    among the sources). Its base check rejects a value that is not a
    number with the base error of the type, [number.base]. The conversion
    of numeric strings is left out. *)
Definition number : Schema := mkSchema "number" no_flags [] [] None.

Definition number_validate (value : JsVal) : option Outcome :=
  match value with
  | VNum _ => None
  | _ => Some (mkOutcome value (OneError (error "number.base" value (LFields []))))
  end.

(** The rules that declare [convert: true] *)
Definition is_convert_rule (r : Rule) : bool :=
  match r with
  | RNormalize _ | RCase _ | RTrim _ | RIsoDate => true
  | _ => false
  end.

(** The [errors] member as the pipeline returns it: an array, or nothing *)
Definition as_list (e : Errors) : Errors :=
  match e with
  | OneError r => ErrorList [EReport r]
  | e => e
  end.

(** Modelled from the spec: [state.nest] of lib/state.js (not among the
    sources) opens the nested state of a schema applied to the same value;
    the ancestors and the shadow are carried over. *)
Definition nest (state : Ref.State) (_ : Schema) : Ref.State := state.

Section Pipeline.

Variable normalize : string -> string -> string.
Variable toLocaleUpperCase : string -> string.
Variable toLocaleLowerCase : string -> string.
Variable replace : string -> RegExp -> string -> string.
Variable byteLength : string -> string -> Z.
Variable toISOString : string -> option string.
Variable reach : JsVal -> list JsVal -> option bool -> JsVal.
Variable isIsoDate : string -> bool.
Variable Common_limit : JsVal -> bool.
(** [state.entry] of lib/state.js, in which the condition of [when] is
    matched *)
Variable entry : Ref.State -> Schema -> JsVal -> Ref.State.

(** Modelled from the spec: one ruleset entry is run by resolving a
    reference argument against the current state, checking the resolved
    value with the argument's [assert] predicate ([any.ref] when it
    fails), and calling the [validate] function of the rule. *)
Definition run_rule (r : Rule) (value : string) (state : Ref.State)
    (prefs : Ref.Prefs) : result (JsVal + Report) :=
  match r with
  | RLength name limit encoding operator =>
      match limit with
      | LimNum n =>
          Ok (StringType.length_validate byteLength value n encoding name operator limit)
      | LimRef ref =>
          let! v := Ref.resolve reach ref (VStr value) state prefs VUndef None in
          if Common_limit v then
            Ok (StringType.length_validate byteLength value
                  (StringType.limit_number v) encoding name operator limit)
          else
            Ok (inr (error "any.ref" (VStr value)
                       (LFields [("arg", AVal (VStr "limit"));
                                 ("ref", ARef ref);
                                 ("reason", AVal (VStr "must be a positive integer"))])))
      end
  | RPattern regex invert name errorCode =>
      Ok (StringType.pattern_validate value regex invert name errorCode)
  | RNormalize form => Ok (StringType.normalize_validate normalize value form)
  | RCase direction =>
      Ok (StringType.case_validate toLocaleUpperCase toLocaleLowerCase value direction)
  | RTrim enabled => Ok (StringType.trim_validate value enabled)
  | RHex byteAligned => Ok (StringType.hex_validate value byteAligned)
  | RIsoDate => Ok (StringType.isoDate_validate isIsoDate value)
  end.

(** Modelled from the spec (§4.2, execution order and abort semantics,
    with [abortEarly] at its default): the rules run in attachment order
    and the first error ends the run; under [convert] a rule that declares
    [convert] has had its effect in the coerce hook and is not run. *)
Fixpoint run_rules (rules : list Rule) (value : JsVal) (state : Ref.State)
    (prefs : Ref.Prefs) : result Outcome :=
  match rules with
  | [] => Ok (mkOutcome value NoErrors)
  | r :: rest =>
      if Ref.prefs_convert prefs && is_convert_rule r then
        run_rules rest value state prefs
      else
        match value with
        | VStr s =>
            let! res := run_rule r s state prefs in
            match res with
            | inl v => run_rules rest v state prefs
            | inr e => Ok (mkOutcome value (ErrorList [EReport e]))
            end
        | _ => run_rules rest value state prefs
        end
  end.

(** Modelled from the spec (§4.4): [$_validate] of lib/base.js and
    lib/validator.js, which are not among the sources, reduced to the steps
    the two types take part in: presence of an undefined value, the coerce
    hook under [prefs.convert] (for a value of the type the hook converts
    from), the base [validate] hook of the type, then the ruleset. The
    value goes on as the [value] member of what the hook returns, which
    is undefined when the hook returns [{ errors }] alone.
    [$_match] holds when this yields no errors. *)
Fixpoint validate_ (s : Schema) (value : JsVal) (state : Ref.State)
    (prefs : Ref.Prefs) {struct s} : result Outcome :=
  match s with
  | mkSchema type flags rules matches replacements =>
      if is_undefined value then
        match f_presence flags with
        | Some "required" =>
            Ok (mkOutcome value (ErrorList [EReport (error "any.required" value (LFields []))]))
        | _ => Ok (mkOutcome value NoErrors)
        end
      else
        let! coerced :=
          match value with
          | VStr v =>
              if Ref.prefs_convert prefs && String.eqb type "string" then
                StringType.coerce normalize toLocaleUpperCase toLocaleLowerCase replace
                  toISOString reach isIsoDate Common_limit
                  (mkSchema type flags rules matches replacements) v state prefs
              else Ok (mkOutcome value NoErrors)
          | _ => Ok (mkOutcome value NoErrors)
          end in
        if negb (no_errors (out_errors coerced)) then
          Ok (mkOutcome (out_value coerced) (as_list (out_errors coerced)))
        else
          let value := out_value coerced in
          let! base :=
            if String.eqb type "string" then Ok (StringType.validate value)
            else if String.eqb type "number" then Ok (number_validate value)
            else if String.eqb type "alternatives" then
              let! h :=
                Alternatives.validate
                  (fun sch => validate_ sch)
                  (fun sch v st p =>
                     let! o := validate_ sch v st p in Ok (no_errors (out_errors o)))
                  nest entry reach
                  (mkSchema type flags rules matches replacements) value state prefs in
              Ok (Some (mkOutcome (default VUndef (Alternatives.h_value h))
                          (Alternatives.h_errors h)))
            else Ok None in
          match base with
          | Some o => Ok (mkOutcome (out_value o) (as_list (out_errors o)))
          | None => run_rules rules value state prefs
          end
  end.

End Pipeline.

End Engine.

(* ===================================================================== *)
(** * Schema nodes as mutable objects *)
(* ===================================================================== *)

(** The builders of the two types clone the receiver and then mutate the
    clone in place ([push] on a term array, assignment to a term, a flag set
    with [clone: false]). Whether the receiver is left alone depends on
    which objects the clone shares with it, so here nodes, flag objects,
    term arrays and match objects are cells of a store and the builders are
    store transformers. *)

Module Heap.
Import Js Schema.

(** Addresses are positions in the store. *)
Abbreviation addr := nat.

(** A match object: its schemas are held by reference *)
Record MatchObj : Type := mkMatchObj {
  mo_schema : option addr;
  mo_ref : option Ref.Ref;
  mo_peek : option addr;
  mo_is : option addr;
  mo_then : option addr;
  mo_otherwise : option addr }.

(** An array element: a match object (by reference) or a replacement
    (never written to after its creation, held by value) *)
Inductive Elem : Type :=
| EMatch (a : addr)
| EReplacement (r : Replacement).

(** A schema object: [_flags] and the term arrays are references *)
Record Node : Type := mkNode {
  n_type : string;
  n_flags : addr;
  n_rules : list Rule;
  n_matches : option addr;
  n_replacements : option addr }.

(** The store: the schema objects, the flags objects, the arrays and the
    match objects, each kind with its own addresses *)
Record Store : Type := mkStore {
  nodes : list Node;
  flagss : list Flags;
  arrays : list (list Elem);
  matchs : list MatchObj }.

(** Store transformers that may throw; the store survives a throw *)
Definition M (A : Type) : Type := Store -> result A * Store.

Definition ret {A} (a : A) : M A := fun σ => (Ok a, σ).

Definition raise {A} (msg : string) : M A := fun σ => (Throw msg, σ).

Definition mbind {A B} (m : M A) (k : A -> M B) : M B :=
  fun σ =>
    match m σ with
    | (Ok a, σ') => k a σ'
    | (Throw msg, σ') => (Throw msg, σ')
    end.

Notation "'do!' x ':=' m 'in' k" := (mbind m (fun x => k))
  (at level 10, x pattern, m at level 100, k at level 200).

Definition lift {A} (r : result A) : M A := fun σ => (r, σ).

(** [new]: the fresh object is placed after the existing ones of its kind *)
Definition alloc_node (n : Node) : M addr :=
  fun σ => (Ok (List.length (nodes σ)),
            mkStore (nodes σ ++ [n]) (flagss σ) (arrays σ) (matchs σ)).
Definition alloc_flags (f : Flags) : M addr :=
  fun σ => (Ok (List.length (flagss σ)),
            mkStore (nodes σ) (flagss σ ++ [f]) (arrays σ) (matchs σ)).
Definition alloc_array (l : list Elem) : M addr :=
  fun σ => (Ok (List.length (arrays σ)),
            mkStore (nodes σ) (flagss σ) (arrays σ ++ [l]) (matchs σ)).
Definition alloc_match (m : MatchObj) : M addr :=
  fun σ => (Ok (List.length (matchs σ)),
            mkStore (nodes σ) (flagss σ) (arrays σ) (matchs σ ++ [m])).

(** Assignment to the object at [a] *)
Definition write_node (a : addr) (n : Node) : M unit :=
  fun σ => (Ok tt, mkStore (<[a := n]> (nodes σ)) (flagss σ) (arrays σ) (matchs σ)).
Definition write_flags (a : addr) (f : Flags) : M unit :=
  fun σ => (Ok tt, mkStore (nodes σ) (<[a := f]> (flagss σ)) (arrays σ) (matchs σ)).
Definition write_array (a : addr) (l : list Elem) : M unit :=
  fun σ => (Ok tt, mkStore (nodes σ) (flagss σ) (<[a := l]> (arrays σ)) (matchs σ)).
Definition write_match (a : addr) (m : MatchObj) : M unit :=
  fun σ => (Ok tt, mkStore (nodes σ) (flagss σ) (arrays σ) (<[a := m]> (matchs σ))).

Definition read_node (a : addr) : M Node :=
  fun σ => match nodes σ !! a with
           | Some n => (Ok n, σ)
           | None => (Throw "TypeError: not a schema", σ)
           end.

Definition read_flags (a : addr) : M Flags :=
  fun σ => match flagss σ !! a with
           | Some f => (Ok f, σ)
           | None => (Throw "TypeError: not a flags object", σ)
           end.

Definition read_array (a : addr) : M (list Elem) :=
  fun σ => match arrays σ !! a with
           | Some l => (Ok l, σ)
           | None => (Throw "TypeError: not an array", σ)
           end.

Definition read_match (a : addr) : M MatchObj :=
  fun σ => match matchs σ !! a with
           | Some m => (Ok m, σ)
           | None => (Throw "TypeError: not a match", σ)
           end.

(** [array.push(x)] *)
Definition push (a : addr) (x : Elem) : M unit :=
  do! l := read_array a in write_array a (l ++ [x]).

(** [array.slice()] of a term that may be null *)
Definition slice_term (t : option addr) : M (option addr) :=
  match t with
  | Some a =>
      do! l := read_array a in
      do! a' := alloc_array l in
      ret (Some a')
  | None => ret None
  end.

(** Modelled from the spec: [clone()] of lib/base.js, which is not among
    the sources. The clone is a new node with the type, rules and term
    entries of the receiver; "the receiver's terms and flags are cloned
    before mutation": the flags object and each term array are copied, the
    elements of the arrays are shared. *)
Definition clone (this : addr) : M addr :=
  do! n := read_node this in
  do! f := read_flags (n_flags n) in
  do! f' := alloc_flags f in
  do! ms := slice_term (n_matches n) in
  do! rs := slice_term (n_replacements n) in
  alloc_node (mkNode (n_type n) f' (n_rules n) ms rs).

(** Modelled from the spec: [$_setFlag(name, value, { clone: false })] of
    lib/base.js writes the flag into the flags object of the node. *)
Definition setFlag_here (obj : addr) (set : Flags -> Flags) : M unit :=
  do! n := read_node obj in
  do! f := read_flags (n_flags n) in
  write_flags (n_flags n) (set f).

(** Modelled from the spec: [$_setFlag(name, value)] of lib/base.js sets
    the flag on a clone and returns the clone. *)
Definition setFlag (this : addr) (set : Flags -> Flags) : M addr :=
  do! obj := clone this in
  do! _ := setFlag_here obj set in
  ret obj.

(** Modelled from the spec: [label(name)] of the base type, lib/base.js,
    requires a non-empty name and sets the label flag. *)
Definition base_label (this : addr) (name : string) : M addr :=
  do! _ := lift (assert (negb (String.eqb name "")) "Label name must be a non-empty string") in
  setFlag this (fun f => Base.with_label f name).

(** ** string: [rules.replace.method] *)

Definition replace_ (escaped_global : string -> RegExp) (this : addr)
    (pattern : StringType.PatternArg) (replacement : JsVal) : M addr :=
  let pattern :=
    match pattern with
    | StringType.PString s => StringType.PRegExp (escaped_global s)
    | p => p
    end in
  match pattern with
  | StringType.PRegExp pattern =>
      match replacement with
      | VStr replacement =>
          do! obj := clone this in
          do! n := read_node obj in
          do! arr :=
            match n_replacements n with
            | Some a => ret a
            | None =>
                do! a := alloc_array [] in
                do! _ := write_node obj (mkNode (n_type n) (n_flags n) (n_rules n)
                                           (n_matches n) (Some a)) in
                ret a
            end in
          do! _ := push arr (EReplacement (mkReplacement pattern replacement)) in
          ret obj
      | _ => raise "replacement must be a String"
      end
  | _ => raise "pattern must be a RegExp"
  end.

(** ** alternatives: the [rebuild] hook and [$_mutateRebuild] *)

Definition node_is_array (o : option addr) : M bool :=
  match o with
  | Some a => do! n := read_node a in ret (String.eqb (n_type n) "array")
  | None => ret false
  end.

Fixpoint any_array (items : list Elem) : M bool :=
  match items with
  | [] => ret false
  | EMatch a :: rest =>
      do! m := read_match a in
      do! b1 := node_is_array (mo_schema m) in
      do! b2 := node_is_array (mo_then m) in
      do! b3 := node_is_array (mo_otherwise m) in
      if b1 || b2 || b3 then ret true else any_array rest
  | EReplacement _ :: rest => any_array rest
  end.

Definition mutateRebuild (schema : addr) : M addr :=
  do! n := read_node schema in
  do! items :=
    match n_matches n with
    | Some a => read_array a
    | None => raise "TypeError: matches is not iterable"
    end in
  do! b := any_array items in
  do! _ := if b then setFlag_here schema (fun f => Base.with_arrayItems f true)
           else ret tt in
  ret schema.

(** ** alternatives: [rules.try.method], for an array of schema objects
    (which [$_compile] returns as they are; an array passes the check
    that schemas were given) *)

Fixpoint try_push (matches : addr) (schemas : list addr) : M unit :=
  match schemas with
  | [] => ret tt
  | schema :: rest =>
      do! m := alloc_match (mkMatchObj (Some schema) None None None None None) in
      do! _ := push matches (EMatch m) in
      try_push matches rest
  end.

Definition try (this : addr) (schemas : list addr) : M addr :=
  do! n := read_node this in
  do! f := read_flags (n_flags n) in
  do! _ := lift (assert (negb (default false (f_endedSwitch f))) "Unreachable condition") in
  do! obj := clone this in
  do! n' := read_node obj in
  do! _ :=
    match n_matches n' with
    | Some a => try_push a schemas
    | None =>
        match schemas with
        | [] => ret tt
        | _ => raise "TypeError: Cannot read properties of undefined"
        end
    end in
  mutateRebuild obj.

(** ** alternatives: [overrides.when], for a condition given as a
    reference or a schema object and for [is], [then], [otherwise] given
    as schema objects (the checks on the kind of the condition and of
    [switch] then hold by the types of the arguments) *)

Inductive Condition : Type :=
| CondRef (r : Ref.Ref)
| CondSchema (a : addr).

Record Settings : Type := mkSettings {
  s_is : option addr;
  s_then : option addr;
  s_otherwise : option addr }.

Record Case : Type := mkCase {
  t_is : option addr;
  t_then : option addr;
  t_otherwise : option addr;
  t_unknown : list string }.

Record WhenOptions : Type := mkWhenOptions {
  w_is : option addr;
  w_then : option addr;
  w_otherwise : option addr;
  w_switch : option (list Case);
  w_unknown : list string }.

Definition is_some {A} (o : option A) : bool :=
  match o with Some _ => true | None => false end.

(** The closure [normalize] of [when], acting on the clone [obj] *)
Definition normalize (obj : addr) (match_ : Condition) (settings : Settings)
    : M MatchObj :=
  let item :=
    mkMatchObj None
      (match match_ with CondRef r => Some r | CondSchema _ => None end)
      (match match_ with CondSchema a => Some a | CondRef _ => None end)
      (s_is settings) (s_then settings) (s_otherwise settings) in
  do! _ :=
    if is_some (s_then settings) && is_some (s_otherwise settings)
    then setFlag_here obj (fun f => Base.with_endedSwitch f true)
    else ret tt in
  ret item.

(** [obj.$_terms.matches.push(normalize(condition, settings))] *)
Definition push_normalized (obj : addr) (condition : Condition) (settings : Settings)
    : M unit :=
  do! n := read_node obj in
  do! item := normalize obj condition settings in
  do! m := alloc_match item in
  match n_matches n with
  | Some a => push a (EMatch m)
  | None => raise "TypeError: Cannot read properties of undefined"
  end.

Fixpoint when_switch (obj : addr) (condition : Condition) (options : WhenOptions)
    (cases : list Case) : M unit :=
  match cases with
  | [] => ret tt
  | test :: rest =>
      do! _ := lift (assert (is_some (t_is test))
                       ("Switch statement missing " +:+ Alternatives.quoted "is")) in
      do! _ := lift (assert (is_some (t_then test))
                       ("Switch statement missing " +:+ Alternatives.quoted "then")) in
      match rest with
      | _ :: _ =>
          do! _ := lift (Ref.assertOptions
                           (match t_otherwise test with
                            | Some _ => "otherwise" :: t_unknown test
                            | None => t_unknown test
                            end)) in
          do! _ := push_normalized obj condition
                     (mkSettings (t_is test) (t_then test) (t_otherwise test)) in
          when_switch obj condition options rest
      | [] =>
          do! _ := lift (Ref.assertOptions (t_unknown test)) in
          do! _ := lift (assert (negb (is_some (w_otherwise options))
                                 || negb (is_some (t_otherwise test)))
                           ("Cannot specify " +:+ Alternatives.quoted "otherwise"
                            +:+ " inside and outside a " +:+ Alternatives.quoted "switch")) in
          let otherwise :=
            if is_some (w_otherwise options) then w_otherwise options
            else t_otherwise test in
          push_normalized obj condition (mkSettings (t_is test) (t_then test) otherwise)
      end
  end.

Definition when (this : addr) (condition : Condition) (options : WhenOptions) : M addr :=
  do! _ := lift (Ref.assertOptions (w_unknown options)) in
  let schemaCondition := match condition with CondSchema _ => true | _ => false end in
  do! n := read_node this in
  do! f := read_flags (n_flags n) in
  do! _ := lift (assert (negb (default false (f_endedSwitch f))) "Unreachable condition") in
  do! _ := lift (assert (negb (is_some (w_switch options)) || negb (is_some (w_is options)))
                   ("Cannot combine " +:+ Alternatives.quoted "switch" +:+ " with "
                    +:+ Alternatives.quoted "is")) in
  do! _ := lift (assert (negb (is_some (w_switch options)) || negb (is_some (w_then options)))
                   ("Cannot combine " +:+ Alternatives.quoted "switch" +:+ " with "
                    +:+ Alternatives.quoted "then")) in
  do! _ := lift (assert (is_some (w_switch options) || is_some (w_then options)
                         || is_some (w_otherwise options))
                   ("options must have at least one of " +:+ Alternatives.quoted "then"
                    +:+ ", " +:+ Alternatives.quoted "otherwise" +:+ ", or "
                    +:+ Alternatives.quoted "switch")) in
  do! _ := lift (assert (negb schemaCondition || negb (is_some (w_is options)))
                   (Alternatives.quoted "is" +:+ " can not be used with a schema condition")) in
  do! _ := lift (assert (negb schemaCondition || negb (is_some (w_switch options)))
                   (Alternatives.quoted "switch"
                    +:+ " can not be used with a schema condition")) in
  do! _ := lift (assert (schemaCondition || is_some (w_is options)
                         || is_some (w_switch options))
                   ("Missing " +:+ Alternatives.quoted "is" +:+ " or "
                    +:+ Alternatives.quoted "switch" +:+ " option")) in
  do! obj := clone this in
  do! _ :=
    match w_switch options with
    | None =>
        push_normalized obj condition
          (mkSettings (w_is options) (w_then options) (w_otherwise options))
    | Some cases => when_switch obj condition options cases
    end in
  mutateRebuild obj.

(** ** alternatives: [overrides.label] *)

(** Store transformers whose recursion through the store is bounded by
    fuel: [None] when the fuel runs out *)
Definition MF (A : Type) : Type := Store -> option (result A * Store).

Definition fret {A} (a : A) : MF A := fun σ => Some (Ok a, σ).

Definition run {A} (m : M A) : MF A := fun σ => Some (m σ).

Definition fbind {A B} (m : MF A) (k : A -> MF B) : MF B :=
  fun σ =>
    match m σ with
    | Some (Ok a, σ') => k a σ'
    | Some (Throw msg, σ') => Some (Throw msg, σ')
    | None => None
    end.

Notation "'fdo!' x ':=' m 'in' k" := (fbind m (fun x => k))
  (at level 10, x pattern, m at level 100, k at level 200).

Definition with_then (m : MatchObj) (t : addr) : MatchObj :=
  mkMatchObj (mo_schema m) (mo_ref m) (mo_peek m) (mo_is m) (Some t) (mo_otherwise m).
Definition with_otherwise (m : MatchObj) (o : addr) : MatchObj :=
  mkMatchObj (mo_schema m) (mo_ref m) (mo_peek m) (mo_is m) (mo_then m) (Some o).

Section Label.

(** The method call [schema.label(name)] on a schema of a match *)
Variable label_call : addr -> string -> MF addr.

(** The function mapped over [obj.$_terms.matches] *)
Definition label_match (name : string) (e : Elem) : MF Elem :=
  match e with
  | EMatch a =>
      fdo! m := run (read_match a) in
      match mo_schema m with
      | Some schema =>
          fdo! schema' := label_call schema name in
          fdo! a' := run (alloc_match (mkMatchObj (Some schema') None None None None None)) in
          fret (EMatch a')
      | None =>
          (* match = Object.assign({}, match) *)
          fdo! a' := run (alloc_match m) in
          fdo! _ :=
            match mo_then m with
            | Some t =>
                fdo! t' := label_call t name in
                fdo! m' := run (read_match a') in
                run (write_match a' (with_then m' t'))
            | None => fret tt
            end in
          fdo! _ :=
            match mo_otherwise m with
            | Some o =>
                fdo! o' := label_call o name in
                fdo! m' := run (read_match a') in
                run (write_match a' (with_otherwise m' o'))
            | None => fret tt
            end in
          fret (EMatch a')
      end
  | EReplacement r => fret (EReplacement r)
  end.

(** [array.map(f)] *)
Fixpoint map_elems (f : Elem -> MF Elem) (items : list Elem) : MF (list Elem) :=
  match items with
  | [] => fret []
  | x :: rest =>
      fdo! y := f x in
      fdo! ys := map_elems f rest in
      fret (y :: ys)
  end.

(** The body of [overrides.label] *)
Definition label_override (this : addr) (name : string) : MF addr :=
  fdo! obj := run (base_label this name) in
  fdo! n := run (read_node obj) in
  fdo! items :=
    match n_matches n with
    | Some a => run (read_array a)
    | None => run (raise "TypeError: Cannot read properties of undefined")
    end in
  fdo! items' := map_elems (label_match name) items in
  fdo! arr := run (alloc_array items') in
  fdo! _ := run (write_node obj (mkNode (n_type n) (n_flags n) (n_rules n)
                                   (Some arr) (n_replacements n))) in
  fret obj.

End Label.

(** [schema.label(name)]: an alternatives node runs the override, which
    calls [label] on the schemas of its matches; any other node runs the
    method of the base type. One unit of fuel is spent per level of nesting. *)
Fixpoint label (fuel : nat) (this : addr) (name : string) : MF addr :=
  match fuel with
  | O => fun _ => None
  | S fuel' =>
      fdo! n := run (read_node this) in
      if String.eqb (n_type n) "alternatives"
      then label_override (label fuel') this name
      else run (base_label this name)
  end.

(** ** Reading a schema out of the store *)

Definition read_elem_replacement (e : Elem) : option Replacement :=
  match e with EReplacement r => Some r | EMatch _ => None end.

Section Read.

Variable read_child : addr -> option Schema.

Definition read_opt (o : option addr) : option (option Schema) :=
  match o with
  | None => Some None
  | Some a => match read_child a with Some s => Some (Some s) | None => None end
  end.

Definition read_match_obj (σ : Store) (e : Elem) : option Match :=
  match e with
  | EMatch a =>
      match matchs σ !! a with
      | Some m =>
          match read_opt (mo_schema m), read_opt (mo_peek m), read_opt (mo_is m),
                read_opt (mo_then m), read_opt (mo_otherwise m) with
          | Some s, Some p, Some i, Some t, Some o => Some (mkMatch s (mo_ref m) p i t o)
          | _, _, _, _, _ => None
          end
      | None => None
      end
  | EReplacement _ => None
  end.

End Read.

(** Modelled from the spec: [describe()] of lib/base.js and lib/manifest.js,
    which are not among the sources, "capturing type, flags, rules, terms"
    with the sub-schemas described recursively. The description is given as
    the schema value that the node and the objects it refers to make up;
    an absent term array reads as an empty one. [None] when the fuel runs
    out or a reference does not lead to an object of the expected kind. *)
Fixpoint describe (fuel : nat) (σ : Store) (a : addr) : option Schema :=
  match fuel with
  | O => None
  | S fuel' =>
      match nodes σ !! a with
      | Some n =>
          match flagss σ !! n_flags n with
          | Some f =>
              let ms :=
                match n_matches n with
                | None => Some []
                | Some arr =>
                    match arrays σ !! arr with
                    | Some items => mapM (read_match_obj (describe fuel' σ) σ) items
                    | None => None
                    end
                end in
              let rs :=
                match n_replacements n with
                | None => Some None
                | Some arr =>
                    match arrays σ !! arr with
                    | Some items =>
                        match mapM read_elem_replacement items with
                        | Some l => Some (Some l)
                        | None => None
                        end
                    | None => None
                    end
                end in
              match ms, rs with
              | Some ms, Some rs => Some (mkSchema (n_type n) f (n_rules n) ms rs)
              | _, _ => None
              end
          | None => None
          end
      | None => None
      end
  end.

(** ** Notions used in the statements about the store *)

(** Every object of the first store is in the second, unchanged. *)
Definition extends (σ0 σ : Store) : Prop :=
  nodes σ0 `prefix_of` nodes σ /\
  flagss σ0 `prefix_of` flagss σ /\
  arrays σ0 `prefix_of` arrays σ /\
  matchs σ0 `prefix_of` matchs σ.

(** The flags object and the term arrays of the node were made after the
    store [σ0] was taken. *)
Definition fresh_node (σ0 : Store) (n : Node) : Prop :=
  (List.length (flagss σ0) <= n_flags n)%nat /\
  (forall a, n_matches n = Some a -> (List.length (arrays σ0) <= a)%nat) /\
  (forall a, n_replacements n = Some a -> (List.length (arrays σ0) <= a)%nat).

(** The node at [obj] was made after [σ0] was taken, with a flags object
    and term arrays of its own. *)
Definition owned (σ0 σ : Store) (obj : addr) : Prop :=
  (List.length (nodes σ0) <= obj)%nat /\
  exists n, nodes σ !! obj = Some n /\ fresh_node σ0 n.

(** A step from [σ] to [σ'] that keeps the objects of [σ0] and the
    ownership of the later nodes *)
Definition keeps (σ0 σ σ' : Store) : Prop :=
  extends σ0 σ' /\ forall obj, owned σ0 σ obj -> owned σ0 σ' obj.

(** A store transformer run from a store that extends [σ0] and
    satisfies [Pre] keeps the objects of [σ0], and its result, if any,
    satisfies [Post] in the store it leaves behind. *)
Definition spec {A} (σ0 : Store) (Pre : Store -> Prop) (m : M A)
    (Post : A -> Store -> Prop) : Prop :=
  forall σ, extends σ0 σ -> Pre σ ->
    keeps σ0 σ (snd (m σ)) /\ forall a, fst (m σ) = Ok a -> Post a (snd (m σ)).

(** The same for a transformer bounded by fuel, when it returns *)
Definition specF {A} (σ0 : Store) (Pre : Store -> Prop) (m : MF A)
    (Post : A -> Store -> Prop) : Prop :=
  forall σ r σ', extends σ0 σ -> Pre σ -> m σ = Some (r, σ') ->
    keeps σ0 σ σ' /\ forall a, r = Ok a -> Post a σ'.

(** A transformer bounded by fuel returns (a result or a throw) from
    the store: the fuel is enough. *)
Definition returns {A} (m : MF A) (σ : Store) : Prop :=
  exists r σ', m σ = Some (r, σ').

(** The schemas of a match object that the override of [label] calls
    [label] on *)
Definition label_targets (m : MatchObj) : list addr :=
  match mo_schema m with
  | Some s => [s]
  | None => option_list (mo_then m) ++ option_list (mo_otherwise m)
  end.

(** The call of [label] on the schema [c] returns from every store that
    extends [σ0]. *)
Definition callable (σ0 : Store) (label_call : addr -> string -> MF addr)
    (name : string) (c : addr) : Prop :=
  forall σ, extends σ0 σ -> returns (label_call c name) σ.

(** The array element is a match object of [σ0] whose schemas to be
    labelled satisfy [P]. *)
Definition labellable (σ0 : Store) (P : addr -> Prop) (e : Elem) : Prop :=
  match e with
  | EMatch a => exists m, matchs σ0 !! a = Some m /\ Forall P (label_targets m)
  | EReplacement _ => True
  end.

(** A property of the store that steps keeping [σ0] preserve *)
Definition stable (σ0 : Store) (Pre : Store -> Prop) : Prop :=
  forall σ σ', keeps σ0 σ σ' -> Pre σ -> Pre σ'.

(** Example data: a store with a string schema at node 0 and an
    alternatives schema at node 1 (with an empty array of matches) *)
Definition two_schemas : Store :=
  mkStore [mkNode "string" 0%nat [] None None;
           mkNode "alternatives" 1%nat [] (Some 0%nat) None]
          [no_flags; no_flags] [[]] [].

(** [two_schemas] after [alternatives.try(string)]: the alternatives
    schema at node 2 has the string schema of node 0 as its only match *)
Definition three_schemas : Store := snd (try 1%nat [0%nat] two_schemas).

End Heap.

(* ===================================================================== *)
(** * Notions and example data used in the statements *)
(* ===================================================================== *)

Module Scenario.
Import Js Schema.

(** ** Stand-ins for the built-ins, used to run examples *)

Definition plain_normalize (value _ : string) : string := value.
Definition plain_case (value : string) : string := value.
Definition plain_replace (value : string) (_ : RegExp) (_ : string) : string := value.
Definition plain_byteLength (value _ : string) : Z := Z.of_nat (String.length value).
Definition no_date (_ : string) : option string := None.
Definition not_iso (_ : string) : bool := false.
Definition any_encoding (_ : string) : bool := true.

(** A stand-in for [Common.limit]: a number that is not negative *)
Definition nonneg_limit (v : JsVal) : bool :=
  match v with VNum n => 0 <=? n | _ => false end.

(** A stand-in for [state.entry] of lib/state.js, which is not among the
    sources: the state in which a condition is matched has the entered
    value as its only ancestor and carries the shadow over. *)
Definition plain_entry (state : Ref.State) (_ : Schema) (value : JsVal) : Ref.State :=
  Ref.mkState [value] (Ref.shadow state).

(** [$_compile] on a schema returns the schema. *)
Definition compile_schema (x : Alternatives.Like) : result Schema :=
  match x with
  | Alternatives.LSchema s => Ok s
  | _ => Throw "not a schema"
  end.

(** [Compile.ref] on a reference returns it, on a string creates one. *)
Definition compile_ref (c : Alternatives.Condition) : result Ref.Ref :=
  match c with
  | Alternatives.CondRef r => Ok r
  | Alternatives.CondStr s => Ref.create s Ref.default_options
  | _ => Throw "Invalid reference key"
  end.

(** The pipeline with the built-ins as parameters, and run on the stand-ins *)
Definition run_validate : Schema -> JsVal -> Ref.State -> Ref.Prefs -> result Outcome :=
  Engine.validate_ plain_normalize plain_case plain_case plain_replace plain_byteLength
    no_date Ref.reach_plain not_iso nonneg_limit plain_entry.

(** ** The schemas of the scenarios *)

(** [string().min(n)] *)
Definition string_min (n : Z) : Schema :=
  mkSchema "string" no_flags [RLength NMin (LimNum n) None ">="] [] None.

(** [string()] with one length rule on a literal limit, and the two
    other instances of it: [string().max(n)] and [string().length(n)] *)
Definition string_rule (name : LengthName) (n : Z) (operator : string) : Schema :=
  mkSchema "string" no_flags [RLength name (LimNum n) None operator] [] None.
Definition string_max (n : Z) : Schema := string_rule NMax n "<=".
Definition string_length (n : Z) : Schema := string_rule NLength n "=".

Definition try_item (s : Schema) : Match := mkMatch (Some s) None None None None None.

(** [alternatives().try([number(), string().min(3)])] *)
Definition number_or_string_min3 : Schema :=
  mkSchema "alternatives" no_flags []
    [try_item Engine.number; try_item (string_min 3)] None.

(** [alternatives().try(number())] *)
Definition number_alone : Schema :=
  mkSchema "alternatives" no_flags [] [try_item Engine.number] None.

(** The report of a failed length rule *)
Definition length_report (name : LengthName) (value : string) (limit : Limit)
    (encoding : option string) : Report :=
  mkReport ("string." +:+ length_name name) (VStr value)
    (LFields [("limit", StringType.limit_arg limit);
              ("value", AVal (VStr value));
              ("encoding", AVal (StringType.undefined_or encoding))]).

Definition base_report (code : string) (value : JsVal) : Report :=
  mkReport code value (LFields []).

(** [string().isoDate().max(5).truncate()] *)
Definition iso_max5_truncate : Schema :=
  mkSchema "string" (Base.with_truncate no_flags true)
    [RIsoDate; RLength NMax (LimNum 5) None "<="] [] None.

(** [string().max(5).truncate()] *)
Definition max5_truncate : Schema :=
  mkSchema "string" (Base.with_truncate no_flags true)
    [RLength NMax (LimNum 5) None "<="] [] None.

(** [$_match] on the stand-ins *)
Definition run_match (s : Schema) (v : JsVal) (state : Ref.State) (prefs : Ref.Prefs)
    : result bool :=
  let! o := run_validate s v state prefs in Ok (no_errors (out_errors o)).

(** A pattern without flags that matches nothing, and one with the
    global flag *)
Definition never_matches : RegExp := mkRegExp "$^" "" (fun _ => false).

(** [when('a', { is: number(), then: number(), otherwise: string() })] *)
Definition when_number_else_string : Alternatives.WhenArg :=
  Alternatives.WhenObject
    (Alternatives.mkWhenOptions
       (Some (Alternatives.LSchema Engine.number))
       (Some (Alternatives.LSchema Engine.number))
       (Some (Alternatives.LSchema StringType.string_))
       None []).

(** ** Notions for the aggregation of alternatives *)

(** An error is a base error when it is a report whose code has ['base']
    as its second part. *)
Definition is_base_error (e : ErrItem) : bool :=
  match Alternatives.base_type e with Some _ => true | None => false end.

(** The type names of the base errors among the collected ones *)
Definition type_names (errors : list ErrItem) : list string :=
  omap Alternatives.base_type errors.

(** The length that a length rule compares: the byte length under an
    encoding, the length of the string otherwise *)
Definition measured (byteLength : string -> string -> Z) (value : string)
    (encoding : option string) : Z :=
  match encoding with
  | Some e => if String.eqb e "" then Z.of_nat (String.length value) else byteLength value e
  | None => Z.of_nat (String.length value)
  end.

(** The [any.ref] error of the coerce hook for a limit that resolved to
    [limit] *)
Definition ref_report (limit : JsVal) (ref : Ref.Ref) : Report :=
  mkReport "any.ref" limit
    (LFields [("ref", ARef ref);
              ("arg", AVal (VStr "limit"));
              ("reason", AVal (VStr "must be a positive integer"))]).

(** The options of a [when] call that supplies both [then] and
    [otherwise]: in a single condition, or in the last case of a switch
    (whose [then] is mandatory) with [otherwise] given inside or outside
    the switch. *)
Definition exhaustive (options : Alternatives.WhenArg) : Prop :=
  let o := Alternatives.when_options options in
  match Alternatives.w_switch o with
  | Some (Alternatives.SwitchArray cases) =>
      match last cases with
      | Some test =>
          Alternatives.defined (Alternatives.w_otherwise o)
          || Alternatives.defined (Alternatives.t_otherwise test) = true
      | None => False
      end
  | _ =>
      Alternatives.defined (Alternatives.w_then o) = true /\
      Alternatives.defined (Alternatives.w_otherwise o) = true
  end.

End Scenario.

(* ===================================================================== *)
(** * More of [lib/ref.js]: [clone], and the keys that [create] parses *)
(* ===================================================================== *)

Module RefMethods.
Import Js Ref.

(** [Ref.prototype.clone]: [new internals.Ref(this)]. The keys of a
    reference are those the constructor allows. Its [map], when set, is a
    [Map] and not an array, which the constructor refuses; with no map
    the check that [map] and [adjust] are not both set holds. *)
Definition clone (this : Ref) : result Ref :=
  let! _ := assert (valid_separator (Some (separator this))) "Invalid separator" in
  let! _ := assert (negb (bool_decide (is_Some (map this)))) "options.map must be an array" in
  let! _ := assert (is_value (type this) || negb (bool_decide (is_Some (ancestor this))))
              "Non-value references cannot reference ancestors" in
  let key :=
    match path this with
    | [] => None
    | _ => Some (join (path this) (sep_join (separator this)))
    end in
  Ok {| adjust := adjust this;
        ancestor := ancestor this;
        iterables := iterables this;
        map := map this;
        path := path this;
        separator := separator this;
        type := type this;
        depth := List.length (path this);
        key := key;
        root := index (path this) 0;
        display := updateDisplay (type this) (separator this) (ancestor this) key |}.

(** [Ref.prototype.toString] *)
Definition toString (this : Ref) : string := display this.

(** ** Notions used in the statements about [create] *)

(** The ancestor that [n] leading separators stand for: none for the
    parent, one for the value itself, and from two on one less than their
    number. *)
Definition leading_depth (n : nat) : nat :=
  match n with
  | O => 1
  | S O => 0
  | S (S k) => S k
  end.

(** The options of [create] that set neither a prefix nor an ancestor,
    leave the separator at ["."], and do not set both [map] and [adjust] *)
Definition plain_options (options : CreateOptions) : Prop :=
  dot_separated options /\ co_ancestor options = None /\ co_unknown options = [] /\
  (co_map options = None \/ co_adjust options = None).

(** The key starts with none of the default prefixes. *)
Definition unprefixed (key : string) : Prop :=
  startsWith key "$" = false /\ startsWith key "#" = false /\ startsWith key "/" = false.

(** The reference that a key of [n] dots followed by [rest] stands for *)
Definition dotted_ref (options : CreateOptions) (n : nat) (rest : string) : Ref :=
  let path := VStr <$> split rest "." in
  {| adjust := co_adjust options;
     ancestor := Some (AncNum (leading_depth n));
     iterables := co_iterables options;
     map := Map_new <$> co_map options;
     path := path;
     separator := SepStr ".";
     type := TValue;
     depth := List.length path;
     key := Some rest;
     root := index path 0;
     display := "ref:" +:+ (match n with 2%nat => "" | _ => repeat_string n "." end) +:+ rest |}.

(** The reference that a key with the global or local prefix stands for *)
Definition prefixed_ref (options : CreateOptions) (type : RefType) (rest : string) : Ref :=
  let path := VStr <$> split rest "." in
  {| adjust := co_adjust options;
     ancestor := None;
     iterables := co_iterables options;
     map := Map_new <$> co_map options;
     path := path;
     separator := SepStr ".";
     type := type;
     depth := List.length path;
     key := Some rest;
     root := index path 0;
     display := "ref:" +:+ type_name type +:+ ":" +:+ rest |}.

(** The reference that a key with the root prefix stands for; the key
    may be the prefix alone *)
Definition root_ref (options : CreateOptions) (rest : string) : Ref :=
  let path := if String.eqb rest "" then [] else VStr <$> split rest "." in
  let key := if String.eqb rest "" then None else Some rest in
  {| adjust := co_adjust options;
     ancestor := Some AncRoot;
     iterables := co_iterables options;
     map := Map_new <$> co_map options;
     path := path;
     separator := SepStr ".";
     type := TValue;
     depth := List.length path;
     key := key;
     root := index path 0;
     display := "ref:root:" +:+ key_string key |}.

End RefMethods.

(* ===================================================================== *)
(** * The reference manager ([exports.Manager] of [lib/ref.js]) *)
(* ===================================================================== *)

Module Manager.
Import Js Ref.

(** An entry of [Manager.refs]: [{ ancestor, root }] *)
Record Entry : Type := mkEntry {
  e_ancestor : nat;
  e_root : JsVal }.

(** What [register] is given: nothing (a falsy value), an array of
    sources, a schema (with the entries of its own manager,
    [source._refs.refs]), a reference, a template (with the array that
    [source.refs()] returns), or some other value. *)
Inductive Source : Type :=
| SFalsy
| SArray (items : list Source)
| SSchema (refs : list Entry)
| SRef (r : Ref)
| STemplate (refs : list Source)
| SOther.

Definition toSibling : nat := 0.
Definition toParent : nat := 1.

(** [if (ancestor - target >= 0) this.refs.push({ ancestor: ancestor - target, root })] *)
Definition push_entry (refs : list Entry) (ancestor : nat) (root : JsVal) (target : nat)
    : list Entry :=
  if (target <=? ancestor)%nat then refs ++ [mkEntry (ancestor - target) root] else refs.

(** [Manager.prototype.register] for a given [target], as a function of
    [this.refs]. The difference [ancestor - target] is NaN for the root
    sentinel and for an absent ancestor, so nothing is pushed for them. *)
Fixpoint register (refs : list Entry) (source : Source) (target : nat) : list Entry :=
  match source with
  | SFalsy => refs
  | SArray items =>
      (fix each (items : list Source) (refs : list Entry) : list Entry :=
         match items with
         | [] => refs
         | ref :: rest => each rest (register refs ref target)
         end) items refs
  | SSchema items =>
      fold_left (fun refs item => push_entry refs (e_ancestor item) (e_root item) target)
        items refs
  | SRef r =>
      if is_value (type r) then
        match ancestor r with
        | Some (AncNum n) => push_entry refs n (root r) target
        | _ => refs
        end
      else refs
  | STemplate items =>
      (fix each (items : list Source) (refs : list Entry) : list Entry :=
         match items with
         | [] => refs
         | ref :: rest => each rest (register refs ref target)
         end) items refs
  | SOther => refs
  end.

(** The method with its optional argument: an absent [target] is [toParent]. *)
Definition register_method (refs : list Entry) (source : Source) (target : option nat)
    : list Entry :=
  register refs source (default toParent target).

(** [get length], [reset], [roots] *)
Definition length (refs : list Entry) : nat := List.length refs.
Definition reset (refs : list Entry) : list Entry := [].
Definition roots (refs : list Entry) : list JsVal :=
  e_root <$> List.filter (fun ref => Nat.eqb (e_ancestor ref) 0) refs.

(** ** Notions used in the statements about the manager *)

(** The references a source stands for, in the order [register] meets
    them: those of a value reference with a numeric ancestor, and the
    entries of a schema. *)
Fixpoint deps (source : Source) : list Entry :=
  match source with
  | SFalsy | SOther => []
  | SArray items | STemplate items =>
      (fix each (items : list Source) : list Entry :=
         match items with
         | [] => []
         | ref :: rest => deps ref ++ each rest
         end) items
  | SSchema items => items
  | SRef r =>
      if is_value (type r) then
        match ancestor r with
        | Some (AncNum n) => [mkEntry n (root r)]
        | _ => []
        end
      else []
  end.

(** An entry seen from [target] levels up, if it reaches that far *)
Definition lift (target : nat) (e : Entry) : option Entry :=
  if (target <=? e_ancestor e)%nat
  then Some (mkEntry (e_ancestor e - target) (e_root e))
  else None.

End Manager.

(* ===================================================================== *)
(** * Rebuilding an alternatives schema from its description *)
(* ===================================================================== *)

Module AlternativesBuild.
Import Js Schema Alternatives.

Section Build.

Variable compile : Like -> result Schema.
Variable compile_ref : Condition -> result Ref.Ref.
Variable required : Schema -> Schema.

(** [ref || peek], the condition that the [build] hook hands to [when] *)
Definition condition_of (m : Match) : Condition :=
  match m_ref m with
  | Some ref => CondRef ref
  | None =>
      match m_peek m with
      | Some peek => CondSchema peek
      | None => CondOther VUndef
      end
  end.

(** One turn of the loop of the [build] hook *)
Definition build_step (obj : Schema) (m : Match) : result Schema :=
  match m_schema m with
  | Some schema => try compile obj (TryOne (LSchema schema))
  | None =>
      when compile compile_ref required obj (condition_of m)
        (WhenObject
           (mkWhenOptions (LSchema <$> m_is m) (LSchema <$> m_then m)
              (LSchema <$> m_otherwise m) None []))
  end.

(** The [build] hook of the type *)
Fixpoint build (obj : Schema) (matches : list Match) : result Schema :=
  match matches with
  | [] => Ok obj
  | m :: rest =>
      let! obj := build_step obj m in
      build obj rest
  end.

End Build.

(** ** Notions used in the statements about the builders *)

(** The flags after the [rebuild] hook has seen an array schema *)
Definition array_flagged (s : Schema) : Schema :=
  set_flags s (Base.with_arrayItems (flags s) true).

Definition has_array (ms : list Match) : bool :=
  existsb (fun m => is_array_schema (m_schema m) || is_array_schema (m_then m)
                    || is_array_schema (m_otherwise m)) ms.

(** An entry of [matches] as [try] makes it *)
Definition tried (m : Match) : bool :=
  match m with
  | mkMatch (Some _) None None None None None => true
  | _ => false
  end.

(** An entry as [when] makes it: a reference with [is], or a schema to
    peek at without [is], and at least one branch *)
Definition conditional (m : Match) : bool :=
  match m with
  | mkMatch None (Some _) None (Some _) t o => bool_decide (is_Some t) || bool_decide (is_Some o)
  | mkMatch None None (Some _) None t o => bool_decide (is_Some t) || bool_decide (is_Some o)
  | _ => false
  end.

(** An entry with both branches, after which nothing can follow *)
Definition complete (m : Match) : bool :=
  match m_schema m, m_then m, m_otherwise m with
  | None, Some _, Some _ => true
  | _, _, _ => false
  end.

(** A list of entries as a chain of [try] and [when] calls leaves it: a
    complete conditional only at the end *)
Fixpoint buildable (ms : list Match) : bool :=
  match ms with
  | [] => true
  | m :: rest =>
      (tried m || conditional m)
      && (negb (complete m) || match rest with [] => true | _ => false end)
      && buildable rest
  end.

(** The schema that the builders leave for the entries [ms] added to
    [obj]: [_endedSwitch] when the last entry is complete, [_arrayItems]
    when an array schema is among the entries of the node *)
Definition built (obj : Schema) (ms : list Match) : Schema :=
  let ended :=
    match last ms with
    | Some m => if complete m then Base.with_endedSwitch (flags obj) true else flags obj
    | None => flags obj
    end in
  let s := mkSchema (type obj) ended (rules obj) (matches obj ++ ms) (replacements obj) in
  if has_array (matches obj ++ ms) then array_flagged s else s.

(** The alternatives schemas that a program can make: the one of the
    factory, and what [try] and [when] return for one of them *)
Inductive made (compile : Like -> result Schema)
    (compile_ref : Condition -> result Ref.Ref) (required : Schema -> Schema)
    : Schema -> Prop :=
| made_alternatives : made compile compile_ref required alternatives
| made_try (this : Schema) (schemas : TryArg) (obj : Schema) :
    made compile compile_ref required this ->
    try compile this schemas = Ok obj ->
    made compile compile_ref required obj
| made_when (this : Schema) (condition : Condition) (options : WhenArg) (obj : Schema) :
    made compile compile_ref required this ->
    when compile compile_ref required this condition options = Ok obj ->
    made compile compile_ref required obj.

End AlternativesBuild.

(* ===================================================================== *)
(** * More rules of the string type *)
(* ===================================================================== *)

Module StringRules.
Import Js Schema.

(** ** Character classes of the patterns *)

Definition is_digit (c : ascii) : bool :=
  let n := nat_of_ascii c in (48 <=? n)%nat && (n <=? 57)%nat.
Definition is_upper (c : ascii) : bool :=
  let n := nat_of_ascii c in (65 <=? n)%nat && (n <=? 90)%nat.
Definition is_lower (c : ascii) : bool :=
  let n := nat_of_ascii c in (97 <=? n)%nat && (n <=? 122)%nat.

(** [[a-zA-Z0-9]] and [\w] *)
Definition is_alphanum (c : ascii) : bool := is_lower c || is_upper c || is_digit c.
Definition is_word (c : ascii) : bool := is_alphanum c || Ascii.eqb c "_".

(** [/^[class]+$/.test(value)] *)
Fixpoint all_chars (class : ascii -> bool) (s : string) : bool :=
  match s with
  | String c s' => class c && all_chars class s'
  | EmptyString => true
  end.

Definition one_or_more (class : ascii -> bool) (value : string) : bool :=
  negb (String.eqb value "") && all_chars class value.

(** [rules.alphanum.validate]: [/^[a-zA-Z0-9]+$/] *)
Definition alphanum_validate (value : string) : JsVal + Report :=
  if one_or_more is_alphanum value then inl (VStr value)
  else inr (error "string.alphanum" (VStr value) (LFields [])).

(** [rules.token.validate]: [/^\w+$/] *)
Definition token_validate (value : string) : JsVal + Report :=
  if one_or_more is_word value then inl (VStr value)
  else inr (error "string.token" (VStr value) (LFields [])).

(** ** base64 *)

(** The alphabets of [internals.base64Regex]: [[\w\-]] when [urlSafe],
    [[A-Za-z0-9+\/]] otherwise *)
Definition base64_char (urlSafe : bool) (c : ascii) : bool :=
  if urlSafe then is_word c || Ascii.eqb c "-"
  else is_alphanum c || Ascii.eqb c "+" || Ascii.eqb c "/".

(** [internals.base64Regex[paddingRequired][urlSafe].test(value)], for
    the alphabet [A]: groups of four characters of [A], then at most one
    tail, which is [A{2}==] or [A{3}=] and, when padding is not required,
    may also be [A{2}] or [A{3}]. The sign [=] is not in [A], so a run of
    four characters of [A] can only be a group. *)
Fixpoint base64Regex_test (paddingRequired urlSafe : bool) (value : string) : bool :=
  match value with
  | EmptyString => true
  | String a (String b rest) =>
      base64_char urlSafe a && base64_char urlSafe b &&
      match rest with
      | EmptyString => negb paddingRequired
      | String c EmptyString => negb paddingRequired && base64_char urlSafe c
      | String c (String d rest') =>
          if base64_char urlSafe c && base64_char urlSafe d
          then base64Regex_test paddingRequired urlSafe rest'
          else
            (Ascii.eqb c "=" && Ascii.eqb d "=" && String.eqb rest' "")
            || (base64_char urlSafe c && Ascii.eqb d "=" && String.eqb rest' "")
      end
  | String _ EmptyString => false
  end.

(** The options of [base64]: a key is [None] when absent *)
Record Base64Options : Type := mkBase64Options {
  b_paddingRequired : option JsVal;
  b_urlSafe : option JsVal;
  b_unknown : list string }.

(** [rules.base64.method], up to the call of [$_addRule]: the options
    that the rule is given *)
Definition base64_args (options : Base64Options) : result (bool * bool) :=
  let! _ := Ref.assertOptions (b_unknown options) in
  let paddingRequired := default (VBool true) (b_paddingRequired options) in
  let urlSafe := default (VBool false) (b_urlSafe options) in
  match paddingRequired with
  | VBool p =>
      match urlSafe with
      | VBool u => Ok (p, u)
      | _ => Throw "urlSafe must be boolean"
      end
  | _ => Throw "paddingRequired must be boolean"
  end.

(** [rules.base64.validate] *)
Definition base64_validate (value : string) (paddingRequired urlSafe : bool)
    : JsVal + Report :=
  if base64Regex_test paddingRequired urlSafe value then inl (VStr value)
  else inr (error "string.base64" (VStr value) (LFields [])).

(** ** The [build] hook *)

Section Build.

Variable escaped_global : string -> RegExp.

(** [build]: [obj = obj.replace(pattern, replacement)] for each of
    [desc.replacements] *)
Fixpoint build (obj : Schema) (replacements : list Replacement) : result Schema :=
  match replacements with
  | [] => Ok obj
  | r :: rest =>
      let! obj := StringType.replace_ escaped_global obj
                    (StringType.PRegExp (rep_pattern r)) (VStr (rep_replacement r)) in
      build obj rest
  end.

End Build.

End StringRules.

(* ===================================================================== *)
(** * The credit-card rule of the string type *)
(* ===================================================================== *)

Module CreditCard.
Import Js Schema.

(** [ch * 1] for a one-character string [ch]: a digit converts to its
    value, a white-space character to 0 (the string trims to the empty
    string) and any other character to NaN, which is [None]. *)
Definition char_number (c : ascii) : option Z :=
  let n := nat_of_ascii c in
  if (48 <=? n)%nat && (n <=? 57)%nat then Some (Z.of_nat n - 48)
  else if is_space c then Some 0
  else None.

(** One turn of the loop of [rules.creditCard.validate]:
    [char = value.charAt(i) * mul], [sum = sum + (char - (char > 9) * 9)],
    [mul = mul ^ 3]. A NaN [sum] stays NaN. *)
Definition step (st : option Z * Z) (c : ascii) : option Z * Z :=
  let '(sum, mul) := st in
  let char := (fun n => n * mul) <$> char_number c in
  let sum :=
    match sum, char with
    | Some sum, Some char => Some (sum + (char - (if 9 <? char then 1 else 0) * 9))
    | _, _ => None
    end in
  (sum, Z.lxor mul 3).

(** [while (i--)] from [i = value.length]: the characters are visited
    from the last to the first. *)
Definition checksum (value : string) : option Z :=
  fst (fold_left step (rev (list_ascii_of_string value)) (Some 0, 1)).

(** [rules.creditCard.validate] *)
Definition validate (value : string) : JsVal + Report :=
  match checksum value with
  | Some sum =>
      if (0 <? sum) && (Z.rem sum 10 =? 0) then inl (VStr value)
      else inr (error "string.creditCard" (VStr value) (LFields []))
  | None => inr (error "string.creditCard" (VStr value) (LFields []))
  end.

Definition is_digit (c : ascii) : bool :=
  let n := nat_of_ascii c in (48 <=? n)%nat && (n <=? 57)%nat.

(** ** Notions used in the statements about the rule *)

(** The characters that convert to a number: digits and white space *)
Definition numeric (s : string) : Prop :=
  Forall (fun c => is_Some (char_number c)) (list_ascii_of_string s).

Definition digits (s : string) : Prop :=
  Forall (fun c => is_digit c = true) (list_ascii_of_string s).

Definition accepted (value : string) : Prop := validate value = inl (VStr value).

Definition rejected (value : string) : Prop :=
  validate value = inr (error "string.creditCard" (VStr value) (LFields [])).

(** What a character adds to the sum under the multiplier [mul] *)
Definition weight (mul : Z) (c : ascii) : Z :=
  match char_number c with
  | Some n => let char := n * mul in char - (if 9 <? char then 1 else 0) * 9
  | None => 0
  end.

(** What a run of characters adds, starting under the multiplier [mul] *)
Fixpoint total (l : list ascii) (mul : Z) : Z :=
  match l with
  | [] => 0
  | c :: r => weight mul c + total r (Z.lxor mul 3)
  end.

(** The multiplier after [n] turns *)
Fixpoint turn (n : nat) (mul : Z) : Z :=
  match n with
  | O => mul
  | S n' => turn n' (Z.lxor mul 3)
  end.

End CreditCard.

(* ===================================================================== *)
(** * The address options of [domain], [email] and [uri] *)
(* ===================================================================== *)

Module Address.
Import Js.

(** A table of top-level domains, [tlds.allow] or [tlds.deny]: absent, a
    boolean, an array, a [Set] (its elements in insertion order), or some
    other value *)
Inductive Table : Type :=
| TblUndef
| TblBool (b : bool)
| TblArray (items : list JsVal)
| TblSet (items : list JsVal)
| TblOther (v : JsVal).

(** [options.tlds]: absent, a boolean, or an object with [allow] and
    [deny] *)
Inductive Tlds : Type :=
| TldsUndef
| TldsBool (b : bool)
| TldsObject (allow deny : Table).

(** The options handed to [internals.addressOptions]; [a_other] holds the
    keys that it does not look at. *)
Record Options : Type := mkOptions {
  a_tlds : Tlds;
  a_minDomainSegments : option JsVal;
  a_other : list (string * JsVal) }.

(** [new Set(array)]: the elements in order, each once *)
Definition Set_new (items : list JsVal) : list JsVal :=
  fold_left (fun set x => if existsb (same_value_zero x) set then set else set ++ [x])
    items [].

(** The closure [normalizeTable]. It is called once the assertions have
    excluded a table that is neither absent, a boolean, an array nor a
    [Set]; such a table is left as it is here. *)
Definition normalizeTable (table : Table) : Table :=
  match table with
  | TblUndef | TblBool _ | TblSet _ => table
  | TblArray items => TblSet (Set_new items)
  | TblOther v => TblOther v
  end.

(** [Number.isSafeInteger(n) && n > 0] *)
Definition positive_safe_integer (v : JsVal) : bool :=
  match v with
  | VNum n => (0 <? n) && (n <=? 9007199254740991)
  | _ => false
  end.

(** [internals.addressOptions] *)
Definition addressOptions (options : Options) : result Options :=
  let! options :=
    match a_tlds options with
    | TldsObject allow deny =>
        let! _ := assert (match allow with TblOther _ => false | _ => true end)
                    "tlds.allow must be an array, Set, or boolean" in
        let! _ := assert (match deny with TblOther _ | TblBool _ => false | _ => true end)
                    "tlds.deny must be an array or Set" in
        Ok (mkOptions (TldsObject (normalizeTable allow) (normalizeTable deny))
              (a_minDomainSegments options) (a_other options))
    | _ => Ok options
    end in
  let! _ := assert (match a_minDomainSegments options with
                    | None | Some VUndef => true
                    | Some v => positive_safe_integer v
                    end) "minDomainSegments must be a positive integer" in
  Ok options.

(** ** Notions used in the statements *)

Definition is_array (t : Table) : bool :=
  match t with TblArray _ => true | _ => false end.

End Address.

(* ===================================================================== *)
(** * Properties of references *)
(* ===================================================================== *)

Module RefTheory.
Import Js Ref.

(** ** The error monad *)

Lemma bind_Ok {A B} (m : result A) (k : A -> result B) (b : B) :
  bind m k = Ok b -> exists a, m = Ok a /\ k a = Ok b.
Proof. destruct m as [a|msg]; simpl; [eauto | discriminate]. Qed.

Lemma assert_Ok (c : bool) (msg : string) (u : unit) :
  assert c msg = Ok u -> c = true.
Proof. destruct c; simpl; [reflexivity | discriminate]. Qed.

Lemma assert_true (c : bool) (msg : string) :
  c = true -> assert c msg = Ok tt.
Proof. intros ->. reflexivity. Qed.

Lemma assertOptions_Ok (l : list string) (u : unit) :
  assertOptions l = Ok u -> l = [].
Proof. destruct l; simpl; [reflexivity | discriminate]. Qed.

(** Splits a hypothesis [bind m k = Ok b] into its two steps. *)
Ltac bind_inv H :=
  let a := fresh "a" in
  let Ha := fresh "Hstep" in
  apply bind_Ok in H; destruct H as (a & Ha & H).

Tactic Notation "bind_split" hyp(H) "as" ident(a) ident(Ha) :=
  apply bind_Ok in H; destruct H as (a & Ha & H).

(** ** Maps *)

Lemma Map_set_Forall_key (P : JsVal -> Prop) (m : entries) (k v : JsVal) :
  Forall (fun e => P (fst e)) m -> P k -> Forall (fun e => P (fst e)) (Map_set m k v).
Proof.
  induction m as [|[k' v'] m IH]; simpl; intros Hm Hk.
  - constructor; [exact Hk | constructor].
  - inversion Hm as [|? ? Hhd Htl]; subst.
    destruct (same_value_zero k' k); constructor; auto.
Qed.

Lemma Map_set_nodup (m : entries) (k v : JsVal) :
  nodup_keys m -> nodup_keys (Map_set m k v).
Proof.
  induction m as [|[k' v'] m IH]; simpl.
  - intros _. split; [constructor | exact I].
  - intros [Hhd Htl].
    destruct (same_value_zero k' k) eqn:E; simpl.
    + split; assumption.
    + split; [| auto].
      apply (Map_set_Forall_key (fun x => same_value_zero k' x = false)); assumption.
Qed.

Lemma Map_set_fresh (m : entries) (k v : JsVal) :
  Forall (fun e => same_value_zero (fst e) k = false) m ->
  Map_set m k v = m ++ [(k, v)].
Proof.
  induction m as [|[k' v'] m IH]; simpl; intros Hm; [reflexivity|].
  inversion Hm as [|? ? Hhd Htl]; subst. simpl in Hhd.
  rewrite Hhd, IH by assumption. reflexivity.
Qed.

Lemma nodup_keys_app_head (acc : entries) (e : JsVal * JsVal) (es : entries) :
  nodup_keys (acc ++ e :: es) ->
  Forall (fun e' => same_value_zero (fst e') (fst e) = false) acc.
Proof.
  induction acc as [|x acc IH]; simpl; intros H; [constructor|].
  destruct H as [Hx Hrest]. constructor; [| auto].
  rewrite Forall_forall in Hx. apply Hx.
  apply list_elem_of_In, in_or_app. right. left. reflexivity.
Qed.

Lemma fold_Map_set_nodup (es acc : entries) :
  nodup_keys acc ->
  nodup_keys (fold_left (fun m e => Map_set m (fst e) (snd e)) es acc).
Proof.
  revert acc. induction es as [|e es IH]; simpl; intros acc H; [exact H|].
  apply IH, Map_set_nodup, H.
Qed.

Lemma fold_Map_set_id (es acc : entries) :
  nodup_keys (acc ++ es) ->
  fold_left (fun m e => Map_set m (fst e) (snd e)) es acc = acc ++ es.
Proof.
  revert acc. induction es as [|[k v] es IH]; simpl; intros acc H.
  - symmetry. apply app_nil_r.
  - rewrite Map_set_fresh by exact (nodup_keys_app_head acc (k, v) es H).
    rewrite IH; rewrite <- app_assoc; [reflexivity | exact H].
Qed.

Lemma Map_new_nodup (es : entries) : nodup_keys (Map_new es).
Proof. apply fold_Map_set_nodup. exact I. Qed.

(** Rebuilding a [Map] from its own entries gives the same [Map]. *)
Lemma Map_new_idem (es : entries) : Map_new (Map_new es) = Map_new es.
Proof.
  unfold Map_new at 1. apply (fold_Map_set_id (Map_new es) []).
  simpl. apply Map_new_nodup.
Qed.

(** ** The constructor *)

(** What the constructor makes of its options *)
Lemma Ref_new_inv (o : RefOptions) (r : Ref) :
  Ref_new o = Ok r ->
  o_unknown o = [] /\
  valid_separator (o_separator o) = true /\
  negb (bool_decide (is_Some (o_map o))) || negb (bool_decide (is_Some (o_adjust o))) = true /\
  is_value (default TValue (o_type o)) || negb (bool_decide (is_Some (o_ancestor o))) = true /\
  r = {| adjust := o_adjust o;
         ancestor := o_ancestor o;
         iterables := o_iterables o;
         map := Map_new <$> o_map o;
         path := o_path o;
         separator := default (SepStr ".") (o_separator o);
         type := default TValue (o_type o);
         depth := List.length (o_path o);
         key := match o_path o with
                | [] => None
                | _ => Some (join (o_path o) (sep_join (default (SepStr ".") (o_separator o))))
                end;
         root := index (o_path o) 0;
         display := updateDisplay (default TValue (o_type o))
                      (default (SepStr ".") (o_separator o)) (o_ancestor o)
                      match o_path o with
                      | [] => None
                      | _ => Some (join (o_path o) (sep_join (default (SepStr ".") (o_separator o))))
                      end |}.
Proof.
  unfold Ref_new. intros H.
  bind_inv H. apply assertOptions_Ok in Hstep.
  bind_inv H. apply assert_Ok in Hstep0.
  bind_inv H. apply assert_Ok in Hstep1.
  bind_inv H. apply assert_Ok in Hstep2.
  inversion H. auto.
Qed.

Lemma valid_separator_default (s : option Sep) :
  valid_separator s = true -> valid_separator (Some (default (SepStr ".") s)) = true.
Proof. destruct s as [[| |x]|]; simpl; auto. Qed.

Lemma sep_is_dot (s : Sep) : sep_is s "." = true -> s = SepStr ".".
Proof.
  destruct s as [| |x]; simpl; try discriminate.
  intros H. apply String.eqb_eq in H. congruence.
Qed.

Lemma is_parent_true (a : option Anc) : is_parent a = true -> a = Some (AncNum 1).
Proof. destruct a as [[|[|[|n]]]|]; simpl; congruence. Qed.

(** ** Describe and build *)

(** Building from the description of a constructed reference whose
    ancestor is set (when it is a value reference) gives the reference back. *)
Lemma build_describe (o : RefOptions) (r : Ref) :
  Ref_new o = Ok r ->
  (type r = TValue -> is_Some (ancestor r)) ->
  build (describe r) = Ok r.
Proof.
  intros Hnew Hanc.
  destruct (Ref_new_inv o r Hnew) as (Hu & Hsep & Hma & Hta & Hr).
  assert (Hanc' : is_value (default TValue (o_type o)) = true -> is_Some (o_ancestor o)).
  { intros Hv. subst r. simpl in Hanc. apply Hanc.
    destruct (default TValue (o_type o)); [reflexivity | discriminate..]. }
  clear Hanc Hnew.
  assert (Hsep' := valid_separator_default _ Hsep).
  set (sep := default (SepStr ".") (o_separator o)) in *.
  set (ty := default TValue (o_type o)) in *.
  assert (Hmap : Map_new <$> (Map_new <$> o_map o) = Map_new <$> o_map o).
  { destruct (o_map o); simpl; [rewrite Map_new_idem|]; reflexivity. }
  assert (Hmapsome : bool_decide (is_Some (Map_new <$> o_map o))
                     = bool_decide (is_Some (o_map o))).
  { destruct (o_map o); reflexivity. }
  subst r. unfold build, describe, Ref_new.
  cbn [adjust ancestor iterables map path separator type
       o_adjust o_ancestor o_iterables o_map o_path o_separator o_type o_unknown].
  assert (Hty : default TValue (if is_value ty then None else Some ty) = ty).
  { destruct ty; reflexivity. }
  assert (Hs : default (SepStr ".") (if sep_is sep "." then None else Some sep) = sep).
  { destruct (sep_is sep ".") eqn:E; [apply sep_is_dot in E; rewrite E|]; reflexivity. }
  rewrite Hty, Hs, Hmap, Hmapsome.
  assert (Ha : match (if is_value ty && negb (is_parent (o_ancestor o))
                      then o_ancestor o else None) with
               | None => if is_value ty then Some (AncNum 1) else None
               | a => a
               end = o_ancestor o).
  { destruct (is_value ty) eqn:Ev; simpl.
    - destruct (Hanc' eq_refl) as [a Ha]. rewrite Ha.
      destruct (is_parent (Some a)) eqn:Ep; simpl;
        [apply is_parent_true in Ep; congruence | reflexivity].
    - simpl in Hta. destruct (o_ancestor o); [discriminate | reflexivity]. }
  rewrite Ha.
  simpl assertOptions. cbn [bind].
  rewrite (assert_true _ _ Hsep'). cbn [bind].
  rewrite (assert_true _ _ Hma). cbn [bind].
  rewrite (assert_true _ _ Hta). cbn [bind].
  reflexivity.
Qed.

(** Every reference made by [create] comes out of the constructor, and a
    value reference among them has its ancestor set. *)
Lemma create_constructed (key : string) (options : CreateOptions) (r : Ref) :
  create key options = Ok r ->
  exists o, Ref_new o = Ok r /\ (type r = TValue -> is_Some (ancestor r)).
Proof.
  unfold create. intros H.
  bind_split H as u Hu. bind_split H as ka Hka. destruct ka as [k anc].
  eexists. split; [exact H|].
  apply Ref_new_inv in H. destruct H as (_ & _ & _ & _ & ->). simpl.
  intros Hty. rewrite Hty in Hka. simpl in Hka.
  bind_split Hka as ka1 Hka1. destruct ka1 as [k1 anc1].
  destruct (sep_truthy _ && _).
  - inversion Hka. eauto.
  - destruct anc1 as [a1|].
    + bind_split Hka as u1 Hu1. inversion Hka. eauto.
    + destruct k1 as [k1|]; [| discriminate].
      destruct (ancestor_of k1 _) as [a slice]. inversion Hka. eauto.
Qed.

(** The same for [build], which fills in the parent as the default. *)
Lemma build_constructed (desc : RefOptions) (r : Ref) :
  build desc = Ok r ->
  exists o, Ref_new o = Ok r /\ (type r = TValue -> is_Some (ancestor r)).
Proof.
  unfold build. intros H. eexists. split; [exact H|].
  apply Ref_new_inv in H. destruct H as (_ & _ & _ & _ & ->). simpl.
  intros ->. destruct (o_ancestor desc); simpl; eauto.
Qed.

Lemma produced_roundtrip (r : Ref) : produced r -> build (describe r) = Ok r.
Proof.
  intros [(key & options & H) | (desc & H)].
  - destruct (create_constructed _ _ _ H) as (o & Ho & Hanc).
    eapply build_describe; eauto.
  - destruct (build_constructed _ _ H) as (o & Ho & Hanc).
    eapply build_describe; eauto.
Qed.

(** ** Resolution *)

Lemma resolve_in_range reach (r : Ref) value state prefs local so (n : nat) :
  type r = TValue -> ancestor r = Some (AncNum (S n)) ->
  (S n <= List.length (ancestors state))%nat ->
  resolve reach r value state prefs local so
  = Ok (_resolve reach r (index (ancestors state) n) state so).
Proof.
  intros Ht Ha Hle. unfold resolve. rewrite Ht, Ha.
  rewrite assert_true; [reflexivity|]. apply Nat.leb_le. exact Hle.
Qed.

Lemma resolve_exceeds reach (r : Ref) value state prefs local so (n : nat) :
  type r = TValue -> ancestor r = Some (AncNum n) ->
  (List.length (ancestors state) < n)%nat ->
  resolve reach r value state prefs local so
  = Throw ("Invalid reference exceeds the schema root: " +:+ display r).
Proof.
  intros Ht Ha Hlt. unfold resolve. rewrite Ht, Ha.
  destruct n as [|n]; [lia|].
  replace (S n <=? List.length (ancestors state))%nat with false; [reflexivity|].
  symmetry. apply Nat.leb_gt. exact Hlt.
Qed.

(** With no shadow, no adjust and no map, [_resolve] is the read of the
    path from the target. *)
Lemma _resolve_plain reach (r : Ref) target state so :
  shadow state = None -> adjust r = None -> map r = None ->
  _resolve reach r target state so = reach target (path r) (iterables r).
Proof. intros Hs Ha Hm. unfold _resolve. rewrite Hs, Ha, Hm. reflexivity. Qed.

Lemma create_grandparent (options : CreateOptions) (r : Ref) :
  dot_separated options ->
  create "...x" options = Ok r ->
  type r = TValue /\ ancestor r = Some (AncNum 2) /\ path r = [VStr "x"] /\
  adjust r = co_adjust options /\ iterables r = co_iterables options /\
  map r = Map_new <$> co_map options.
Proof.
  intros [Hp Hs] H. unfold create in H. rewrite Hp in H.
  assert (Hsep : default (SepStr ".") (co_separator options) = SepStr ".").
  { destruct Hs as [-> | ->]; reflexivity. }
  rewrite Hsep in H.
  bind_split H as u Hu. clear Hu.
  change (context "...x" (default (mkPrefix None None None) None))
    with (mkContext "...x" TValue false) in H.
  cbn [c_type c_key c_root is_value] in H.
  destruct (co_ancestor options) as [a0|].
  - simpl in H. discriminate.
  - simpl in H. apply Ref_new_inv in H. destruct H as (_ & _ & _ & _ & ->).
    simpl. auto 10.
Qed.

(** ** The statements *)

(** C1. A reference created from the key ["...x"] with the separator ["."]
    has ancestor depth 2 and path [["x"]]; resolving it reads from
    [state.ancestors[1]], and with no shadow, adjust or map the result is
    the read of ["x"] from that ancestor. A value reference whose depth
    exceeds the number of ancestors makes [resolve] throw the
    "exceeds the schema root" error. *)
Theorem C1_grandparent_key_and_depth_guard
    (reach : JsVal -> list JsVal -> option bool -> JsVal)
    (options : CreateOptions) (r : Ref)
    (value local : JsVal) (state : State) (prefs : Prefs) (so : option bool) :
  dot_separated options ->
  create "...x" options = Ok r ->
  (type r = TValue /\ ancestor r = Some (AncNum 2) /\ path r = [VStr "x"]) /\
  ((2 <= List.length (ancestors state))%nat ->
     resolve reach r value state prefs local so
     = Ok (_resolve reach r (index (ancestors state) 1) state so) /\
     (shadow state = None -> co_adjust options = None -> co_map options = None ->
        resolve reach r value state prefs local so
        = Ok (reach (index (ancestors state) 1) [VStr "x"] (co_iterables options)))) /\
  (forall (r' : Ref) (n : nat),
     type r' = TValue -> ancestor r' = Some (AncNum n) ->
     (List.length (ancestors state) < n)%nat ->
     resolve reach r' value state prefs local so
     = Throw ("Invalid reference exceeds the schema root: " +:+ display r')).
Proof.
  intros Hdot Hcreate.
  destruct (create_grandparent options r Hdot Hcreate)
    as (Ht & Ha & Hp & Hadj & Hit & Hmap).
  split; [auto|]. split.
  - intros Hlen.
    assert (Hres := resolve_in_range reach r value state prefs local so 1 Ht Ha Hlen).
    split; [exact Hres|].
    intros Hsh Hna Hnm. rewrite Hres. f_equal.
    rewrite _resolve_plain; [rewrite Hp, Hit; reflexivity | assumption | congruence |].
    rewrite Hmap, Hnm. reflexivity.
  - intros r' n Ht' Ha' Hlt. eapply resolve_exceeds; eauto.
Qed.

Lemma C1_witness :
  dot_separated default_options /\
  create "...x" default_options = Ok ref_grandparent_x /\
  resolve reach_plain ref_grandparent_x (VNum 0) three_ancestors some_prefs VUndef None
  = Ok (VNum 2) /\
  resolve reach_plain ref_grandparent_x (VNum 0) no_ancestors some_prefs VUndef None
  = Throw "Invalid reference exceeds the schema root: ref:...x".
Proof.
  assert (Hdot : dot_separated default_options) by (split; [reflexivity | left; reflexivity]).
  assert (Hcreate : create "...x" default_options = Ok ref_grandparent_x) by reflexivity.
  split; [exact Hdot|]. split; [exact Hcreate|]. split.
  - destruct (C1_grandparent_key_and_depth_guard reach_plain default_options
                ref_grandparent_x (VNum 0) VUndef three_ancestors some_prefs None
                Hdot Hcreate) as (_ & Hin & _).
    destruct Hin as [_ Hread]; [simpl; lia|].
    rewrite Hread; reflexivity.
  - destruct (C1_grandparent_key_and_depth_guard reach_plain default_options
                ref_grandparent_x (VNum 0) VUndef no_ancestors some_prefs None
                Hdot Hcreate) as (_ & _ & Hout).
    rewrite (Hout ref_grandparent_x 2%nat); [reflexivity | reflexivity | reflexivity |].
    simpl. lia.
Defined.

Lemma _resolve_adjusted reach (r : Ref) target state so :
  _resolve reach r target state so
  = adjusted r (if is_undefined (shadowed r state so)
                then reach target (path r) (iterables r)
                else shadowed r state so).
Proof. reflexivity. Qed.

Lemma shadowed_not_value (r : Ref) state so :
  type r <> TValue -> shadowed r state so = VUndef.
Proof.
  intros H. unfold shadowed. destruct (shadow state); [| reflexivity].
  destruct (type r); [contradiction | reflexivity | reflexivity].
Qed.

Lemma is_undefined_false (v : JsVal) : v <> VUndef -> is_undefined v = false.
Proof. destruct v; [contradiction | reflexivity..]. Qed.

Lemma index_last (l : list JsVal) :
  match List.length l with
  | O => VUndef
  | S n => index l n
  end = default VUndef (last l).
Proof.
  destruct l as [|x l] using rev_ind; [reflexivity|].
  rewrite length_app, last_snoc. cbn [List.length]. rewrite Nat.add_1_r.
  unfold index. rewrite lookup_app_r by lia. rewrite Nat.sub_diag. reflexivity.
Qed.

(** The store after [_resolve] is the one it was given, unless the
    reference has an [adjust] function: then it is the store that the
    call of this function leaves. *)
Lemma _resolve_st_store {Store : Type}
    (reach : Store -> JsVal -> list JsVal -> option bool -> JsVal)
    (call : (JsVal -> JsVal) -> JsVal -> Store -> JsVal * Store)
    (r : Ref) target state so (σ : Store) :
  match adjust r with
  | None =>
      _resolve_st reach call r target state so σ
      = (_resolve (reach σ) r target state so, σ)
  | Some f =>
      exists v, snd (_resolve_st reach call r target state so σ) = snd (call f v σ) /\
                (call f v σ = (f v, σ) ->
                 _resolve_st reach call r target state so σ
                 = (_resolve (reach σ) r target state so, σ))
  end.
Proof.
  unfold _resolve_st, _resolve. destruct (adjust r) as [f|].
  - exists (if is_undefined (shadowed r state so)
            then reach σ target (path r) (iterables r)
            else shadowed r state so).
    unfold shadowed. split.
    + destruct (call f _ σ) as [v' σ']. destruct (map r); reflexivity.
    + intros ->. destruct (map r); reflexivity.
  - destruct (map r); reflexivity.
Qed.

(** C2, as the code has it. [resolve] reads the path of the reference
    with [Hoek.reach] from the target named for its kind: the context for
    a global reference, the local map for a local one, and for a value
    reference the value at depth 0, the outermost ancestor for the root,
    and [ancestors[N - 1]] at depth N provided N does not exceed the
    number of ancestors (beyond it [resolve] throws, see C1). A value
    reference for whose path the shadow of the state holds a value takes
    that value instead and does not read its target. What was found goes
    through the [adjust] function and the map of the reference. The last
    two parts are about the target data as a store: if the [adjust]
    function writes nothing, [resolve] returns what it reads from the
    store and leaves the store as it was; in any case the store it leaves
    is the one it was given or the one the call of [adjust] left. *)
Theorem C2_resolve_dispatch
    (reach : JsVal -> list JsVal -> option bool -> JsVal)
    (r : Ref) (value local : JsVal) (state : State) (prefs : Prefs) (so : option bool) :
  (type r = TGlobal ->
     resolve reach r value state prefs local so
     = Ok (adjusted r (reach (prefs_context prefs) (path r) (iterables r)))) /\
  (type r = TLocal ->
     resolve reach r value state prefs local so
     = Ok (adjusted r (reach local (path r) (iterables r)))) /\
  (type r = TValue -> shadowed r state so = VUndef ->
     (ancestor r = None \/ ancestor r = Some (AncNum 0) ->
        resolve reach r value state prefs local so
        = Ok (adjusted r (reach value (path r) (iterables r)))) /\
     (ancestor r = Some AncRoot ->
        resolve reach r value state prefs local so
        = Ok (adjusted r (reach (outermost state) (path r) (iterables r)))) /\
     (forall n : nat,
        ancestor r = Some (AncNum (S n)) ->
        (S n <= List.length (ancestors state))%nat ->
        resolve reach r value state prefs local so
        = Ok (adjusted r (reach (index (ancestors state) n) (path r) (iterables r))))) /\
  (type r = TValue -> shadowed r state so <> VUndef ->
     (forall n : nat, ancestor r = Some (AncNum n) ->
        (n <= List.length (ancestors state))%nat) ->
     resolve reach r value state prefs local so
     = Ok (adjusted r (shadowed r state so))) /\
  (forall n : nat,
     type r = TValue -> ancestor r = Some (AncNum n) ->
     (List.length (ancestors state) < n)%nat ->
     resolve reach r value state prefs local so
     = Throw ("Invalid reference exceeds the schema root: " +:+ display r)) /\
  (forall (Store : Type)
          (reach_st : Store -> JsVal -> list JsVal -> option bool -> JsVal)
          (call : (JsVal -> JsVal) -> JsVal -> Store -> JsVal * Store) (σ : Store),
     (forall f v, adjust r = Some f -> call f v σ = (f v, σ)) ->
     resolve_st reach_st call r value state prefs local so σ
     = (resolve (reach_st σ) r value state prefs local so, σ)) /\
  (forall (Store : Type)
          (reach_st : Store -> JsVal -> list JsVal -> option bool -> JsVal)
          (call : (JsVal -> JsVal) -> JsVal -> Store -> JsVal * Store) (σ : Store),
     snd (resolve_st reach_st call r value state prefs local so σ) = σ \/
     exists f v,
       adjust r = Some f /\
       snd (resolve_st reach_st call r value state prefs local so σ)
       = snd (call f v σ)).
Proof.
  split; [| split; [| split; [| split; [| split; [| split]]]]].
  - intros Ht. unfold resolve. rewrite Ht, _resolve_adjusted.
    rewrite shadowed_not_value by (rewrite Ht; discriminate). reflexivity.
  - intros Ht. unfold resolve. rewrite Ht, _resolve_adjusted.
    rewrite shadowed_not_value by (rewrite Ht; discriminate). reflexivity.
  - intros Ht Hs. split; [| split].
    + intros Ha. unfold resolve. rewrite Ht.
      destruct Ha as [-> | ->]; rewrite _resolve_adjusted, Hs; reflexivity.
    + intros Ha. unfold resolve. rewrite Ht, Ha, _resolve_adjusted, Hs.
      unfold outermost. rewrite <- index_last. reflexivity.
    + intros n Ha Hle.
      rewrite (resolve_in_range reach r value state prefs local so n Ht Ha Hle).
      rewrite _resolve_adjusted, Hs. reflexivity.
  - intros Ht Hs Hrange. apply is_undefined_false in Hs.
    unfold resolve. rewrite Ht.
    destruct (ancestor r) as [[|[|n]]|] eqn:Ha;
      try (rewrite _resolve_adjusted, Hs; reflexivity).
    rewrite assert_true by (apply Nat.leb_le, Hrange; reflexivity).
    cbn [bind]. rewrite _resolve_adjusted, Hs. reflexivity.
  - intros n Ht Ha Hlt. apply (resolve_exceeds reach r value state prefs local so n Ht Ha Hlt).
  - intros Store reach_st call σ Hquiet.
    assert (H : forall target,
               _resolve_st reach_st call r target state so σ
               = (_resolve (reach_st σ) r target state so, σ)).
    { intros target. pose proof (_resolve_st_store reach_st call r target state so σ) as H.
      destruct (adjust r) as [f|] eqn:Ea; [| exact H].
      destruct H as (v & _ & H). apply H, Hquiet. reflexivity. }
    unfold resolve_st, resolve.
    destruct (type r); [| rewrite H; reflexivity..].
    destruct (ancestor r) as [[|[|n]]|]; try (rewrite H; reflexivity).
    unfold assert.
    destruct (S n <=? List.length (ancestors state))%nat; [rewrite H|]; reflexivity.
  - intros Store reach_st call σ.
    assert (H : forall target,
               snd (_resolve_st reach_st call r target state so σ) = σ \/
               exists f v, adjust r = Some f /\
                 snd (_resolve_st reach_st call r target state so σ)
                 = snd (call f v σ)).
    { intros target. pose proof (_resolve_st_store reach_st call r target state so σ) as H.
      destruct (adjust r) as [f|] eqn:Ea.
      - destruct H as (v & H & _). right. exists f, v. split; [reflexivity | exact H].
      - left. rewrite H. reflexivity. }
    assert (H' : forall target,
               snd (let '(resolved, σ') :=
                      _resolve_st reach_st call r target state so σ in
                    (Ok resolved, σ'))
               = snd (_resolve_st reach_st call r target state so σ)).
    { intros target. destruct (_resolve_st _ _ _ _ _ _ _); reflexivity. }
    unfold resolve_st.
    destruct (type r); [| rewrite H'; apply H..].
    destruct (ancestor r) as [[|[|n]]|]; try (rewrite H'; apply H).
    destruct (S n <=? List.length (ancestors state))%nat; [rewrite H'; apply H|].
    left. reflexivity.
Qed.

Lemma C2_witness :
  resolve reach_plain (ref_x TGlobal None "ref:global:x") (VObj 5%nat [("x", VNum 5)])
    three_ancestors some_prefs (VObj 8%nat [("x", VNum 8)]) None = Ok (VNum 99) /\
  resolve reach_plain (ref_x TLocal None "ref:local:x") (VObj 5%nat [("x", VNum 5)])
    three_ancestors some_prefs (VObj 8%nat [("x", VNum 8)]) None = Ok (VNum 8) /\
  resolve reach_plain (ref_x TValue (Some (AncNum 0)) "ref:.x") (VObj 5%nat [("x", VNum 5)])
    three_ancestors some_prefs (VObj 8%nat [("x", VNum 8)]) None = Ok (VNum 5) /\
  resolve reach_plain (ref_x TValue (Some AncRoot) "ref:root:x") (VObj 5%nat [("x", VNum 5)])
    three_ancestors some_prefs (VObj 8%nat [("x", VNum 8)]) None = Ok (VNum 3) /\
  resolve reach_plain ref_grandparent_x (VObj 5%nat [("x", VNum 5)])
    three_ancestors some_prefs (VObj 8%nat [("x", VNum 8)]) None = Ok (VNum 2) /\
  resolve reach_plain ref_grandparent_x (VObj 5%nat [("x", VNum 5)])
    shadowed_ancestors some_prefs (VObj 8%nat [("x", VNum 8)]) None = Ok (VNum 42) /\
  resolve reach_plain ref_with_map (VObj 5%nat [("a", VNum 1)])
    (mkState [VObj 1%nat [("a", VNum 2)]] None) some_prefs VUndef None = Ok (VStr "z") /\
  resolve_st reach_objects call_quiet ref_grandparent_adjusted (VNum 0)
    three_ancestors some_prefs VUndef None [(2%nat, [("x", VNum 7)])]
  = (Ok (VNum 8), [(2%nat, [("x", VNum 7)])]) /\
  resolve_st reach_objects call_writing ref_grandparent_adjusted (VNum 0)
    three_ancestors some_prefs VUndef None []
  = (Ok (VNum 3), [(2%nat, [("x", VNum 0)])]).
Proof.
  pose (v := VObj 5%nat [("x", VNum 5)]). pose (l := VObj 8%nat [("x", VNum 8)]).
  repeat apply conj.
  - exact (proj1 (C2_resolve_dispatch reach_plain (ref_x TGlobal None "ref:global:x")
                    v l three_ancestors some_prefs None) eq_refl).
  - exact (proj1 (proj2 (C2_resolve_dispatch reach_plain (ref_x TLocal None "ref:local:x")
                           v l three_ancestors some_prefs None)) eq_refl).
  - destruct (C2_resolve_dispatch reach_plain (ref_x TValue (Some (AncNum 0)) "ref:.x")
                v l three_ancestors some_prefs None) as (_ & _ & H & _).
    exact (proj1 (H eq_refl eq_refl) (or_intror eq_refl)).
  - destruct (C2_resolve_dispatch reach_plain (ref_x TValue (Some AncRoot) "ref:root:x")
                v l three_ancestors some_prefs None) as (_ & _ & H & _).
    exact (proj1 (proj2 (H eq_refl eq_refl)) eq_refl).
  - destruct (C2_resolve_dispatch reach_plain ref_grandparent_x
                v l three_ancestors some_prefs None) as (_ & _ & H & _).
    apply (proj2 (proj2 (H eq_refl eq_refl)) 1%nat eq_refl). simpl. lia.
  - destruct (C2_resolve_dispatch reach_plain ref_grandparent_x
                v l shadowed_ancestors some_prefs None) as (_ & _ & _ & H & _).
    apply H; [reflexivity | discriminate |].
    intros n Ha. inversion Ha. simpl. lia.
  - destruct (C2_resolve_dispatch reach_plain ref_with_map (VObj 5%nat [("a", VNum 1)])
                VUndef (mkState [VObj 1%nat [("a", VNum 2)]] None) some_prefs None)
      as (_ & _ & H & _).
    apply (proj2 (proj2 (H eq_refl eq_refl)) 0%nat eq_refl). simpl. lia.
  - destruct (C2_resolve_dispatch (reach_objects [(2%nat, [("x", VNum 7)])])
                ref_grandparent_adjusted (VNum 0) VUndef three_ancestors some_prefs None)
      as (_ & _ & _ & _ & _ & H & _).
    apply (H Objects reach_objects call_quiet [(2%nat, [("x", VNum 7)])]).
    reflexivity.
  - reflexivity.
Defined.

(** C2 as stated fails for a value reference of depth 2 resolved with no
    ancestors: [resolve] throws instead of reading from [ancestors[1]]. *)
Lemma C2_counterexample :
  resolve reach_plain ref_grandparent_x (VNum 0) no_ancestors some_prefs VUndef None
  = Throw "Invalid reference exceeds the schema root: ref:...x" /\
  resolve reach_plain ref_grandparent_x (VNum 0) no_ancestors some_prefs VUndef None
  <> Ok (_resolve reach_plain ref_grandparent_x
           (claimed_target ref_grandparent_x (VNum 0) no_ancestors some_prefs VUndef)
           no_ancestors None).
Proof. split; [reflexivity | discriminate]. Qed.

(** C3. The description of a reference holds the path, the type unless it
    is value, the separator unless it is ["."], the ancestor of a value
    reference unless it is 1, and the entries of the map; [build] applied
    to it gives back a reference that is equal to the original, so that
    both resolve alike on every input. *)
Theorem C3_describe_build_roundtrip (r : Ref) :
  produced r ->
  (o_path (describe r) = path r /\
   o_type (describe r) = (if is_value (type r) then None else Some (type r)) /\
   o_separator (describe r)
   = (if sep_is (separator r) "." then None else Some (separator r)) /\
   o_ancestor (describe r)
   = (if is_value (type r) && negb (is_parent (ancestor r)) then ancestor r else None) /\
   o_map (describe r) = map r) /\
  exists r' : Ref,
    build (describe r) = Ok r' /\ r' = r /\
    forall reach value state prefs local so,
      resolve reach r' value state prefs local so
      = resolve reach r value state prefs local so.
Proof.
  intros Hp. split; [repeat split|].
  exists r. split; [apply produced_roundtrip, Hp|]. split; reflexivity.
Qed.

Lemma C3_witness :
  produced ref_with_map /\
  build (describe ref_with_map) = Ok ref_with_map.
Proof.
  assert (Hp : produced ref_with_map).
  { left. exists "a", options_with_map. reflexivity. }
  split; [exact Hp|].
  destruct (C3_describe_build_roundtrip ref_with_map Hp) as (_ & r' & Hb & -> & _).
  exact Hb.
Defined.

End RefTheory.

(* ===================================================================== *)
(** * Properties of the string type *)
(* ===================================================================== *)

Module StringTheory.
Import Js Schema Scenario RefTheory.

Lemma throws_bind {A B} (m : result A) (k : A -> result B) :
  throws m -> throws (bind m k).
Proof. intros [msg ->]. exists msg. reflexivity. Qed.

Lemma throws_assert {B} (c : bool) (msg : string) (k : unit -> result B) :
  (c = true -> throws (k tt)) -> throws (bind (assert c msg) k).
Proof. destruct c; simpl; intros H; [auto | exists msg; reflexivity]. Qed.

Lemma throws_assertOptions {B} (l : list string) (k : unit -> result B) :
  (l = [] -> throws (k tt)) -> throws (bind (Ref.assertOptions l) k).
Proof. destruct l; simpl; intros H; [auto | eexists; reflexivity]. Qed.

Lemma throws_Throw {A} (msg : string) : throws (@Throw A msg).
Proof. exists msg. reflexivity. Qed.

(** ** Slicing *)

Lemma take_length (n : nat) (s : string) : (String.length (take n s) <= n)%nat.
Proof.
  revert s. induction n as [|n IH]; intros s; simpl; [lia|].
  destruct s; simpl; [lia|]. specialize (IH s). lia.
Qed.

Lemma slice0_length (s : string) (n : Z) :
  0 <= n -> Z.of_nat (String.length (slice0 s n)) <= n.
Proof.
  intros Hn. unfold slice0.
  destruct (n <? 0) eqn:E; [apply Z.ltb_lt in E; lia|].
  pose proof (take_length (Z.to_nat (Z.min n (Z.of_nat (String.length s)))) s). lia.
Qed.

Section Hooks.

Variable normalize : string -> string -> string.
Variable toLocaleUpperCase : string -> string.
Variable toLocaleLowerCase : string -> string.
Variable replace : string -> RegExp -> string -> string.
Variable byteLength : string -> string -> Z.
Variable toISOString : string -> option string.
Variable reach : JsVal -> list JsVal -> option bool -> JsVal.
Variable isIsoDate : string -> bool.
Variable Common_limit : JsVal -> bool.
Variable entry : Ref.State -> Schema -> JsVal -> Ref.State.
Variable isEncoding : string -> bool.

Local Abbreviation validate_ :=
  (Engine.validate_ normalize toLocaleUpperCase toLocaleLowerCase replace
     byteLength toISOString reach isIsoDate Common_limit entry).
Local Abbreviation coerce :=
  (StringType.coerce normalize toLocaleUpperCase toLocaleLowerCase replace
     toISOString reach isIsoDate Common_limit).
Local Abbreviation prepare :=
  (StringType.coerce_prepare normalize toLocaleUpperCase toLocaleLowerCase replace).

(** ** The length rules *)

Lemma length_validate_spec value limit encoding name operator args_limit :
  StringType.length_validate byteLength value limit encoding name operator args_limit
  = if StringType.compare (measured byteLength value encoding) limit operator
    then inl (VStr value)
    else inr (length_report name value args_limit encoding).
Proof. reflexivity. Qed.

Lemma replace_rule_In (l : list Rule) (r : Rule) :
  existsb (fun x => String.eqb (rule_name x) (rule_name r)) l = true ->
  In r (Base.replace_rule l r).
Proof.
  induction l as [|x l IH]; simpl; [discriminate|].
  destruct (String.eqb (rule_name x) (rule_name r)); simpl; auto.
Qed.

Lemma addRule_In (s s' : Schema) (r : Rule) (multi : bool) :
  Base.addRule Common_limit s r multi = Ok s' -> In r (rules s').
Proof.
  unfold Base.addRule. intros H. bind_split H as u Hu.
  destruct (negb multi && existsb _ (rules s)) eqn:E; inversion H; subst; clear H.
  - apply andb_prop in E. destruct E as [_ E]. destruct s; simpl in *.
    apply replace_rule_In, E.
  - destruct s; simpl. apply in_or_app. right. left. reflexivity.
Qed.

Lemma length_builder_In this name limit operator encoding s :
  StringType.length_ Common_limit isEncoding this name limit operator encoding = Ok s ->
  In (RLength name limit encoding operator) (rules s).
Proof.
  unfold StringType.length_. intros H. bind_split H as u Hu.
  eapply addRule_In, H.
Qed.

Lemma min_builds (n : Z) :
  Common_limit (VNum n) = true ->
  StringType.min Common_limit isEncoding StringType.string_ (LimNum n) None
  = Ok (string_min n).
Proof.
  intros H. unfold StringType.min, StringType.length_, Base.addRule. simpl.
  rewrite H. reflexivity.
Qed.

Lemma length_builds (name : LengthName) (n : Z) (operator : string) :
  Common_limit (VNum n) = true ->
  StringType.length_ Common_limit isEncoding StringType.string_ name (LimNum n) operator None
  = Ok (string_rule name n operator).
Proof.
  intros H. unfold StringType.length_, Base.addRule. simpl. rewrite H. reflexivity.
Qed.

(** The builder returns when the encoding is one that [Buffer.isEncoding]
    knows (or is absent) and a literal limit passes [Common.limit]. *)
Lemma length_builder_returns this name limit operator encoding :
  match encoding with
  | Some e => String.eqb e "" || isEncoding e
  | None => true
  end = true ->
  (forall n, limit = LimNum n -> Common_limit (VNum n) = true) ->
  exists s,
    StringType.length_ Common_limit isEncoding this name limit operator encoding = Ok s /\
    In (RLength name limit encoding operator) (rules s).
Proof.
  intros He Hl.
  assert (H : exists s, StringType.length_ Common_limit isEncoding this name limit operator
                          encoding = Ok s).
  { unfold StringType.length_. rewrite He. cbn [assert bind]. unfold Base.addRule.
    assert (Hassert : match limit with
                      | LimNum n => assert (Common_limit (VNum n))
                                      "limit must be a positive integer"
                      | LimRef _ => Ok tt
                      end = Ok tt).
    { destruct limit as [n|ref]; [rewrite (Hl n eq_refl)|]; reflexivity. }
    rewrite Hassert. cbn [bind].
    destruct (negb false && existsb _ (rules this)); eexists; reflexivity. }
  destruct H as [s Hs]. exists s. split; [exact Hs|].
  eapply length_builder_In, Hs.
Qed.

Lemma length_builder_throws this name limit operator encoding :
  (exists e, encoding = Some e /\ String.eqb e "" = false /\ isEncoding e = false) \/
  (exists n, limit = LimNum n /\ Common_limit (VNum n) = false) ->
  throws (StringType.length_ Common_limit isEncoding this name limit operator encoding).
Proof.
  unfold StringType.length_.
  intros [(e & -> & He & Hi) | (n & -> & Hn)].
  - rewrite He, Hi. eexists; reflexivity.
  - apply throws_assert. intros _. unfold Base.addRule. rewrite Hn.
    eexists; reflexivity.
Qed.

Lemma coerce_prepare_string_rule name (n : Z) op (v : string) :
  prepare (string_rule name n op) v = v.
Proof. destruct name; reflexivity. Qed.

Lemma validate_string_rule name (n : Z) op (v : string) state prefs :
  v <> "" ->
  validate_ (string_rule name n op) (VStr v) state prefs
  = Ok (if StringType.compare (Z.of_nat (String.length v)) n op
        then mkOutcome (VStr v) NoErrors
        else mkOutcome (VStr v)
               (ErrorList [EReport (length_report name v (LimNum n) None)])).
Proof.
  intros Hne.
  assert (E : String.eqb v "" = false) by (apply String.eqb_neq; exact Hne).
  destruct name; unfold string_rule; simpl.
  all: destruct (Ref.prefs_convert prefs); simpl.
  all: try match goal with
       | |- context [mkSchema "string" no_flags [RLength ?nm (LimNum ?k) None ?o] [] None] =>
           change (mkSchema "string" no_flags [RLength nm (LimNum k) None o] [] None)
             with (string_rule nm k o);
           rewrite !coerce_prepare_string_rule
       end.
  all: rewrite E; simpl.
  all: unfold StringType.length_validate; simpl;
       destruct (StringType.compare (Z.of_nat (String.length v)) n op); reflexivity.
Qed.

Lemma coerce_prepare_string_min (n : Z) (v : string) : prepare (string_min n) v = v.
Proof. reflexivity. Qed.

Lemma validate_string_min (n : Z) (v : string) state prefs :
  v <> "" ->
  validate_ (string_min n) (VStr v) state prefs
  = Ok (if n <=? Z.of_nat (String.length v)
        then mkOutcome (VStr v) NoErrors
        else mkOutcome (VStr v)
               (ErrorList [EReport (length_report NMin v (LimNum n) None)])).
Proof.
  intros Hne. unfold string_min. simpl.
  assert (E : String.eqb v "" = false) by (apply String.eqb_neq; exact Hne).
  destruct (Ref.prefs_convert prefs); simpl.
  1: change (mkSchema "string" no_flags [RLength NMin (LimNum n) None ">="] [] None)
       with (string_min n); rewrite !coerce_prepare_string_min.
  all: rewrite E; simpl.
  all: unfold StringType.length_validate; simpl;
       change (StringType.compare (Z.of_nat (String.length v)) n ">=")
         with (n <=? Z.of_nat (String.length v));
       destruct (n <=? Z.of_nat (String.length v)); reflexivity.
Qed.

(** C5. For [string().min(2)], the input ["a"] is rejected with the code
    [string.min] and the limit 2 in the context, and ["ab"] is accepted
    unchanged, both through the pipeline and on the [validate] function
    of the rule. The [validate] function shared by [min], [max] and
    [length] compares the length of the string, or its byte length under
    an encoding, with the limit, using the operator the rule records:
    [>=] for [min], [<=] for [max], [=] for [length]. Each of the three
    builders returns a schema that holds its rule whenever the encoding
    is absent or known and a literal limit passes [Common.limit], and
    throws otherwise; on the plain string type they give the schemas
    that accept a non-empty string exactly when its length is at least,
    at most, or equal to the limit, and reject it with [string.min],
    [string.max] or [string.length]. *)
Theorem C5_string_min_and_length_rules (state : Ref.State) (prefs : Ref.Prefs) :
  Common_limit (VNum 2) = true ->
  (exists s : Schema,
     StringType.min Common_limit isEncoding StringType.string_ (LimNum 2) None = Ok s /\
     validate_ s (VStr "a") state prefs
     = Ok (mkOutcome (VStr "a")
             (ErrorList [EReport (mkReport "string.min" (VStr "a")
                                    (LFields [("limit", AVal (VNum 2));
                                              ("value", AVal (VStr "a"));
                                              ("encoding", AVal VUndef)]))])) /\
     validate_ s (VStr "ab") state prefs = Ok (mkOutcome (VStr "ab") NoErrors)) /\
  (StringType.length_validate byteLength "a" 2 None NMin ">=" (LimNum 2)
   = inr (mkReport "string.min" (VStr "a")
            (LFields [("limit", AVal (VNum 2));
                      ("value", AVal (VStr "a"));
                      ("encoding", AVal VUndef)])) /\
   StringType.length_validate byteLength "ab" 2 None NMin ">=" (LimNum 2)
   = inl (VStr "ab")) /\
  (forall (this s : Schema) (limit : Limit) (encoding : option string),
     (StringType.min Common_limit isEncoding this limit encoding = Ok s ->
      In (RLength NMin limit encoding ">=") (rules s)) /\
     (StringType.max Common_limit isEncoding this limit encoding = Ok s ->
      In (RLength NMax limit encoding "<=") (rules s)) /\
     (StringType.length Common_limit isEncoding this limit encoding = Ok s ->
      In (RLength NLength limit encoding "=") (rules s))) /\
  (forall (value : string) (limit : Z) (encoding : option string) (name : LengthName)
          (args_limit : Limit),
     let len := measured byteLength value encoding in
     let run := StringType.length_validate byteLength value limit encoding name in
     let failure := inr (length_report name value args_limit encoding) in
     run ">=" args_limit = (if limit <=? len then inl (VStr value) else failure) /\
     run "<=" args_limit = (if len <=? limit then inl (VStr value) else failure) /\
     run "=" args_limit = (if len =? limit then inl (VStr value) else failure)) /\
  (forall (this : Schema) (limit : Limit) (encoding : option string),
     match encoding with
     | Some e => String.eqb e "" || isEncoding e
     | None => true
     end = true ->
     (forall n, limit = LimNum n -> Common_limit (VNum n) = true) ->
     exists s_min s_max s_length : Schema,
       StringType.min Common_limit isEncoding this limit encoding = Ok s_min /\
       In (RLength NMin limit encoding ">=") (rules s_min) /\
       StringType.max Common_limit isEncoding this limit encoding = Ok s_max /\
       In (RLength NMax limit encoding "<=") (rules s_max) /\
       StringType.length Common_limit isEncoding this limit encoding = Ok s_length /\
       In (RLength NLength limit encoding "=") (rules s_length)) /\
  (forall (this : Schema) (limit : Limit) (encoding : option string),
     (exists e, encoding = Some e /\ String.eqb e "" = false /\ isEncoding e = false) \/
     (exists n, limit = LimNum n /\ Common_limit (VNum n) = false) ->
     throws (StringType.min Common_limit isEncoding this limit encoding) /\
     throws (StringType.max Common_limit isEncoding this limit encoding) /\
     throws (StringType.length Common_limit isEncoding this limit encoding)) /\
  (forall n : Z,
     Common_limit (VNum n) = true ->
     StringType.min Common_limit isEncoding StringType.string_ (LimNum n) None
     = Ok (string_min n) /\
     StringType.max Common_limit isEncoding StringType.string_ (LimNum n) None
     = Ok (string_max n) /\
     StringType.length Common_limit isEncoding StringType.string_ (LimNum n) None
     = Ok (string_length n) /\
     forall v : string,
       v <> "" ->
       let len := Z.of_nat (String.length v) in
       let accepted := Ok (mkOutcome (VStr v) NoErrors) in
       let rejected name :=
         Ok (mkOutcome (VStr v)
               (ErrorList [EReport (length_report name v (LimNum n) None)])) in
       validate_ (string_min n) (VStr v) state prefs
       = (if n <=? len then accepted else rejected NMin) /\
       validate_ (string_max n) (VStr v) state prefs
       = (if len <=? n then accepted else rejected NMax) /\
       validate_ (string_length n) (VStr v) state prefs
       = (if len =? n then accepted else rejected NLength)).
Proof.
  intros Hlim. split; [| split; [| split; [| split; [| split; [| split]]]]].
  - exists (string_min 2). split; [apply min_builds, Hlim|].
    split; rewrite validate_string_min by discriminate; reflexivity.
  - split; reflexivity.
  - intros this s limit encoding. repeat split; apply length_builder_In.
  - intros value limit encoding name args_limit. cbv zeta.
    rewrite !length_validate_spec. repeat split; reflexivity.
  - intros this limit encoding He Hl.
    destruct (length_builder_returns this NMin limit ">=" encoding He Hl) as (s1 & H1 & I1).
    destruct (length_builder_returns this NMax limit "<=" encoding He Hl) as (s2 & H2 & I2).
    destruct (length_builder_returns this NLength limit "=" encoding He Hl)
      as (s3 & H3 & I3).
    exists s1, s2, s3. repeat split; assumption.
  - intros this limit encoding H. repeat split; apply length_builder_throws, H.
  - intros n Hn. split; [| split; [| split]]; try (apply length_builds, Hn).
    intros v Hv. cbv zeta.
    change (string_min n) with (string_rule NMin n ">=").
    unfold string_max, string_length.
    rewrite !validate_string_rule by exact Hv.
    change (StringType.compare (Z.of_nat (String.length v)) n ">=")
      with (n <=? Z.of_nat (String.length v)).
    change (StringType.compare (Z.of_nat (String.length v)) n "<=")
      with (Z.of_nat (String.length v) <=? n).
    change (StringType.compare (Z.of_nat (String.length v)) n "=")
      with (Z.of_nat (String.length v) =? n).
    repeat split;
      match goal with |- Ok (if ?c then _ else _) = _ => destruct c; reflexivity end.
Qed.

(** ** The coerce hook *)

Lemma coerce_truncate schema value state prefs name limit enc op v' :
  f_truncate (flags schema) = Some true ->
  getRule schema "max" = Some (RLength name limit enc op) ->
  StringType.coerce_isoDate toISOString isIsoDate schema (prepare schema value) = inl v' ->
  match limit with
  | LimNum n =>
      coerce schema value state prefs = Ok (mkOutcome (VStr (slice0 v' n)) NoErrors)
  | LimRef ref =>
      forall lv, Ref.resolve reach ref (VStr v') state prefs VUndef None = Ok lv ->
        coerce schema value state prefs
        = Ok (if Common_limit lv
              then mkOutcome (VStr (slice0 v' (StringType.limit_number lv))) NoErrors
              else mkOutcome (VStr v') (OneError (ref_report lv ref)))
  end.
Proof.
  intros Ht Hmax Hiso. unfold StringType.coerce. rewrite Hiso, Ht, Hmax. simpl.
  destruct limit as [n|ref]; [reflexivity|].
  intros lv ->. simpl. destruct (Common_limit lv); reflexivity.
Qed.

(** C9, as the code has it. With the truncate flag set and a max rule
    present, and unless the isoDate step has already returned its error,
    the coerce hook returns the value, after normalize, case, trim, the
    replacements (and the hex padding and date conversion) in that
    order, sliced to the limit of the rule, so of length at most the limit.
    When the limit is a reference, the slice uses the resolved value if
    [Common.limit] accepts it, and otherwise the hook returns the value
    with an [any.ref] error. *)
Theorem C9_truncate_after_conversions
    (schema : Schema) (value : string) (state : Ref.State) (prefs : Ref.Prefs)
    (name : LengthName) (limit : Limit) (enc : option string) (op : string) (v' : string) :
  (forall lv, Common_limit lv = true -> exists n, lv = VNum n /\ 0 <= n) ->
  f_truncate (flags schema) = Some true ->
  getRule schema "max" = Some (RLength name limit enc op) ->
  StringType.coerce_isoDate toISOString isIsoDate schema
    (StringType.coerce_hex schema
       (StringType.coerce_replacements replace schema
          (StringType.coerce_trim schema
             (StringType.coerce_case toLocaleUpperCase toLocaleLowerCase schema
                (StringType.coerce_normalize normalize schema value))))) = inl v' ->
  match limit with
  | LimNum n =>
      coerce schema value state prefs = Ok (mkOutcome (VStr (slice0 v' n)) NoErrors) /\
      (0 <= n -> Z.of_nat (String.length (slice0 v' n)) <= n)
  | LimRef ref =>
      forall lv, Ref.resolve reach ref (VStr v') state prefs VUndef None = Ok lv ->
        (Common_limit lv = false ->
           coerce schema value state prefs
           = Ok (mkOutcome (VStr v') (OneError (ref_report lv ref)))) /\
        (Common_limit lv = true ->
           exists n, lv = VNum n /\
             coerce schema value state prefs
             = Ok (mkOutcome (VStr (slice0 v' n)) NoErrors) /\
             Z.of_nat (String.length (slice0 v' n)) <= n)
  end.
Proof.
  intros Hlimit Ht Hmax Hiso.
  pose proof (coerce_truncate schema value state prefs name limit enc op v' Ht Hmax Hiso) as H.
  destruct limit as [n|ref].
  - split; [exact H | apply slice0_length].
  - intros lv Hres. specialize (H lv Hres). split; intros Hl; rewrite Hl in H.
    + exact H.
    + destruct (Hlimit lv Hl) as (n & -> & Hn). exists n.
      split; [reflexivity|]. split; [exact H | apply slice0_length, Hn].
Qed.

(** ** The builders *)




End Hooks.

Lemma C5_witness :
  nonneg_limit (VNum 2) = true /\
  run_validate (string_min 2) (VStr "a") Ref.no_ancestors Ref.some_prefs
  = Ok (mkOutcome (VStr "a")
          (ErrorList [EReport (length_report NMin "a" (LimNum 2) None)])) /\
  StringType.max nonneg_limit any_encoding StringType.string_ (LimNum 2) None
  = Ok (string_max 2) /\
  StringType.length nonneg_limit any_encoding StringType.string_ (LimNum 2) None
  = Ok (string_length 2) /\
  run_validate (string_max 2) (VStr "abc") Ref.no_ancestors Ref.some_prefs
  = Ok (mkOutcome (VStr "abc")
          (ErrorList [EReport (length_report NMax "abc" (LimNum 2) None)])) /\
  run_validate (string_length 2) (VStr "ab") Ref.no_ancestors Ref.some_prefs
  = Ok (mkOutcome (VStr "ab") NoErrors).
Proof.
  split; [reflexivity|].
  destruct (C5_string_min_and_length_rules plain_normalize plain_case plain_case
              plain_replace plain_byteLength no_date Ref.reach_plain not_iso
              nonneg_limit plain_entry any_encoding Ref.no_ancestors Ref.some_prefs eq_refl)
    as ((s & Hs & Ha & _) & _ & _ & _ & _ & _ & Hbuilt).
  destruct (Hbuilt 2 eq_refl) as (_ & Hmax & Hlength & Hrun).
  split; [rewrite min_builds in Hs by reflexivity; inversion Hs; subst s; exact Ha|].
  split; [exact Hmax|]. split; [exact Hlength|].
  split.
  - destruct (Hrun "abc") as (_ & H & _); [discriminate | exact H].
  - destruct (Hrun "ab") as (_ & _ & H); [discriminate | exact H].
Defined.

Lemma C9_witness :
  StringType.coerce plain_normalize plain_case plain_case plain_replace no_date
    Ref.reach_plain not_iso nonneg_limit max5_truncate "hello world"
    Ref.no_ancestors Ref.some_prefs
  = Ok (mkOutcome (VStr "hello") NoErrors).
Proof.
  assert (Hlimit : forall lv, nonneg_limit lv = true -> exists n, lv = VNum n /\ 0 <= n).
  { intros [| | |n| | |]; simpl; try discriminate.
    intros H. exists n. split; [reflexivity | apply Z.leb_le, H]. }
  destruct (C9_truncate_after_conversions plain_normalize plain_case plain_case
              plain_replace no_date Ref.reach_plain not_iso nonneg_limit
              max5_truncate "hello world" Ref.no_ancestors Ref.some_prefs
              NMax (LimNum 5) None "<=" "hello world" Hlimit eq_refl eq_refl eq_refl)
    as [H _].
  exact H.
Defined.

(** C9 as stated fails when the schema also has the isoDate rule and the
    value is not an ISO date: the hook returns the error of that step with
    the value at its full length. *)
Lemma C9_counterexample :
  f_truncate (flags iso_max5_truncate) = Some true /\
  getRule iso_max5_truncate "max" = Some (RLength NMax (LimNum 5) None "<=") /\
  StringType.coerce plain_normalize plain_case plain_case plain_replace no_date
    Ref.reach_plain not_iso nonneg_limit iso_max5_truncate "hello world"
    Ref.no_ancestors Ref.some_prefs
  = Ok (mkOutcome (VStr "hello world")
          (OneError (base_report "string.isoDate" (VStr "hello world")))) /\
  VStr "hello world" <> VStr (slice0 "hello world" 5) /\
  ~ (Z.of_nat (String.length "hello world") <= 5).
Proof.
  split; [reflexivity|]. split; [reflexivity|]. split; [reflexivity|].
  split; [discriminate|]. simpl. lia.
Qed.

End StringTheory.

(* ===================================================================== *)
(** * Properties of the alternatives type and of the builders *)
(* ===================================================================== *)

Module AlternativesTheory.
Import Js Schema Scenario RefTheory StringTheory.

(** ** Aggregation of the collected errors *)

Lemma collect_types_spec (errors : list ErrItem) (acc : list string) :
  Alternatives.collect_types errors acc
  = if forallb is_base_error errors then Some (acc ++ type_names errors) else None.
Proof.
  revert acc. induction errors as [|e errors IH]; intros acc; simpl.
  - rewrite app_nil_r. reflexivity.
  - unfold is_base_error at 1. unfold type_names. simpl.
    destruct (Alternatives.base_type e) as [t|]; simpl; [| reflexivity].
    rewrite IH. unfold type_names. rewrite <- app_assoc. reflexivity.
Qed.

Lemma aggregate_tiers (value : JsVal) (errors : list ErrItem) :
  Alternatives.h_value (Alternatives.aggregate value errors) = None /\
  (errors = [] ->
     Alternatives.h_errors (Alternatives.aggregate value errors)
     = OneError (base_report "alternatives.base" value)) /\
  (forall e, errors = [e] ->
     Alternatives.h_errors (Alternatives.aggregate value errors) = ErrorList [e]) /\
  ((2 <= List.length errors)%nat -> forallb is_base_error errors = true ->
     Alternatives.h_errors (Alternatives.aggregate value errors)
     = OneError (mkReport "alternatives.types" value
                   (LFields [("types", ANames (type_names errors))]))) /\
  ((2 <= List.length errors)%nat -> forallb is_base_error errors = false ->
     Alternatives.h_errors (Alternatives.aggregate value errors)
     = OneError (mkReport "alternatives.match" value (LDetails errors))).
Proof.
  destruct errors as [|e1 [|e2 rest]].
  - simpl. repeat split; try reflexivity; try discriminate; intros; simpl in *; lia.
  - simpl. repeat split; try discriminate; try (intros; simpl in *; lia).
    intros e [= ->]. reflexivity.
  - unfold Alternatives.aggregate. rewrite collect_types_spec.
    repeat split; try discriminate.
    + destruct (forallb _ _); reflexivity.
    + intros _ ->. reflexivity.
    + intros _ ->. reflexivity.
Qed.

(** C8. When the loop over the matches ends without returning a result,
    the base [validate] of alternatives turns the collected errors into its
    result in four tiers: no error gives the single error
    [alternatives.base]; one error is returned as it is; two or more
    errors that are all base errors of a type give [alternatives.types]
    with the names of the types; otherwise the result is
    [alternatives.match] with the details of all the collected errors. *)
Theorem C8_aggregation_tiers
    (validate_ : Schema -> JsVal -> Ref.State -> Ref.Prefs -> result Outcome)
    (match_ : Schema -> JsVal -> Ref.State -> Ref.Prefs -> result bool)
    (nest : Ref.State -> Schema -> Ref.State)
    (entry : Ref.State -> Schema -> JsVal -> Ref.State)
    (reach : JsVal -> list JsVal -> option bool -> JsVal)
    (schema : Schema) (value : JsVal) (state : Ref.State) (prefs : Ref.Prefs)
    (errors : list ErrItem) :
  Alternatives.validate_matches validate_ match_ nest entry reach
    (matches schema) value state prefs [] = Ok (inr errors) ->
  exists h : Alternatives.HookResult,
    Alternatives.validate validate_ match_ nest entry reach schema value state prefs = Ok h /\
    Alternatives.h_value h = None /\
    (errors = [] ->
       Alternatives.h_errors h = OneError (mkReport "alternatives.base" value (LFields []))) /\
    (forall e, errors = [e] -> Alternatives.h_errors h = ErrorList [e]) /\
    ((2 <= List.length errors)%nat -> forallb is_base_error errors = true ->
       Alternatives.h_errors h
       = OneError (mkReport "alternatives.types" value
                     (LFields [("types", ANames (type_names errors))]))) /\
    ((2 <= List.length errors)%nat -> forallb is_base_error errors = false ->
       Alternatives.h_errors h
       = OneError (mkReport "alternatives.match" value (LDetails errors))).
Proof.
  intros Hloop. exists (Alternatives.aggregate value errors).
  split; [unfold Alternatives.validate; rewrite Hloop; reflexivity|].
  apply aggregate_tiers.
Qed.

Lemma C8_witness :
  Alternatives.validate run_validate run_match Engine.nest plain_entry Ref.reach_plain
    number_or_string_min3 (VBool true) Ref.no_ancestors Ref.some_prefs
  = Ok (Alternatives.mkHookResult None
          (OneError (mkReport "alternatives.types" (VBool true)
                       (LFields [("types", ANames ["number"; "string"])])))).
Proof.
  destruct (C8_aggregation_tiers run_validate run_match Engine.nest plain_entry
              Ref.reach_plain number_or_string_min3 (VBool true) Ref.no_ancestors
              Ref.some_prefs
              [EReport (base_report "number.base" (VBool true));
               EReport (base_report "string.base" (VBool true))] eq_refl)
    as (h & Hv & Hval & _ & _ & Htypes & _).
  rewrite Hv. destruct h as [hv he]. simpl in *. subst hv.
  rewrite Htypes; [reflexivity | lia | reflexivity].
Defined.

(** ** The scenario of two alternatives *)

Section Pipeline.

Variable normalize : string -> string -> string.
Variable toLocaleUpperCase : string -> string.
Variable toLocaleLowerCase : string -> string.
Variable replace : string -> RegExp -> string -> string.
Variable byteLength : string -> string -> Z.
Variable toISOString : string -> option string.
Variable reach : JsVal -> list JsVal -> option bool -> JsVal.
Variable isIsoDate : string -> bool.
Variable Common_limit : JsVal -> bool.
Variable entry : Ref.State -> Schema -> JsVal -> Ref.State.
Variable isEncoding : string -> bool.

Local Abbreviation validate_ :=
  (Engine.validate_ normalize toLocaleUpperCase toLocaleLowerCase replace
     byteLength toISOString reach isIsoDate Common_limit entry).

Lemma first_branch_accepts (rest : list Match) state prefs :
  validate_ (mkSchema "alternatives" no_flags [] (try_item Engine.number :: rest) None)
    (VNum 5) state prefs
  = Ok (mkOutcome (VNum 5) NoErrors).
Proof. reflexivity. Qed.

Lemma both_branches_fail state prefs :
  validate_ number_or_string_min3 (VStr "ab") state prefs
  = Ok (mkOutcome VUndef
          (ErrorList
             [EReport (mkReport "alternatives.match" (VStr "ab")
                         (LDetails
                            [EReport (base_report "number.base" (VStr "ab"));
                             EReport (length_report NMin "ab" (LimNum 3) None)]))])).
Proof.
  destruct prefs as [context [|]]; reflexivity.
Qed.

(** On the [validate] hook itself, with the validation of the branches
    as a parameter: a first branch without errors is the result, whatever
    follows it. *)
Lemma first_branch_returns
    (validate' : Schema -> JsVal -> Ref.State -> Ref.Prefs -> result Outcome)
    (match' : Schema -> JsVal -> Ref.State -> Ref.Prefs -> result bool)
    (nest' : Ref.State -> Schema -> Ref.State)
    (entry' : Ref.State -> Schema -> JsVal -> Ref.State)
    (branch : Schema) (rest : list Match) (value : JsVal) state prefs (r : Outcome) :
  validate' branch value (nest' state branch) prefs = Ok r ->
  out_errors r = NoErrors ->
  Alternatives.validate validate' match' nest' entry' reach
    (mkSchema "alternatives" no_flags [] (try_item branch :: rest) None) value state prefs
  = Ok (Alternatives.mkHookResult (Some (out_value r)) NoErrors).
Proof.
  intros Hv He. unfold Alternatives.validate. simpl. rewrite Hv. simpl.
  rewrite He. simpl. unfold Alternatives.of_outcome. rewrite He. reflexivity.
Qed.

(** Two branches that fail, the first with a base error and the second
    with another error, give [alternatives.match]. *)
Lemma two_branches_fail
    (validate' : Schema -> JsVal -> Ref.State -> Ref.Prefs -> result Outcome)
    (match' : Schema -> JsVal -> Ref.State -> Ref.Prefs -> result bool)
    (nest' : Ref.State -> Schema -> Ref.State)
    (entry' : Ref.State -> Schema -> JsVal -> Ref.State)
    (b1 b2 : Schema) (value : JsVal) state prefs (e1 e2 : Report) :
  validate' b1 value (nest' state b1) prefs
  = Ok (mkOutcome value (ErrorList [EReport e1])) ->
  validate' b2 value (nest' state b2) prefs
  = Ok (mkOutcome value (ErrorList [EReport e2])) ->
  is_base_error (EReport e1) && is_base_error (EReport e2) = false ->
  Alternatives.validate validate' match' nest' entry' reach
    (mkSchema "alternatives" no_flags [] [try_item b1; try_item b2] None) value state prefs
  = Ok (Alternatives.mkHookResult None
          (OneError (mkReport "alternatives.match" value
                       (LDetails [EReport e1; EReport e2])))).
Proof.
  intros H1 H2 Hb. unfold Alternatives.validate. cbn [matches Alternatives.validate_matches].
  unfold try_item at 1. cbn [m_schema]. rewrite H1. cbn [bind out_errors no_errors spread app].
  unfold try_item at 1. cbn [m_schema]. rewrite H2. cbn [bind out_errors no_errors spread app].
  unfold Alternatives.aggregate. rewrite collect_types_spec.
  cbn [forallb]. rewrite Bool.andb_true_r, Hb. reflexivity.
Qed.

(** C4, as the code has it. [try] takes one argument, a schema or an
    array of schemas. For the alternatives of a number and of
    [string.min(3)], built by [try] from the array of the two, the input
    5 is accepted by the first branch with the value 5 and no errors,
    whatever branches follow it; the input ["ab"] is rejected with the
    aggregate code [alternatives.match], whose context holds the base
    error of the number branch and the [string.min] error of the string
    branch, and with no value. The first two parts are about the
    [validate] hook with the validation of the branches as a parameter,
    the next two run the whole pipeline, the fifth builds the schema
    with [min] and [try]. The last three are about a call with several
    arguments: the arguments after the first are dropped, so that
    [try(number, string.min(3))] holds the number branch alone and
    rejects ["ab"] with the error of that branch, [number.base]. *)
Theorem C4_try_number_or_string (state : Ref.State) (prefs : Ref.Prefs) :
  (forall validate' match' nest' entry' (rest : list Match),
     validate' Engine.number (VNum 5) (nest' state Engine.number) prefs
     = Ok (mkOutcome (VNum 5) NoErrors) ->
     Alternatives.validate validate' match' nest' entry' reach
       (mkSchema "alternatives" no_flags [] (try_item Engine.number :: rest) None)
       (VNum 5) state prefs
     = Ok (Alternatives.mkHookResult (Some (VNum 5)) NoErrors)) /\
  (forall validate' match' nest' entry',
     validate' Engine.number (VStr "ab") (nest' state Engine.number) prefs
     = Ok (mkOutcome (VStr "ab")
             (ErrorList [EReport (mkReport "number.base" (VStr "ab") (LFields []))])) ->
     validate' (string_min 3) (VStr "ab") (nest' state (string_min 3)) prefs
     = Ok (mkOutcome (VStr "ab")
             (ErrorList [EReport (length_report NMin "ab" (LimNum 3) None)])) ->
     Alternatives.validate validate' match' nest' entry' reach number_or_string_min3
       (VStr "ab") state prefs
     = Ok (Alternatives.mkHookResult None
             (OneError (mkReport "alternatives.match" (VStr "ab")
                (LDetails
                   [EReport (mkReport "number.base" (VStr "ab") (LFields []));
                    EReport (length_report NMin "ab" (LimNum 3) None)]))))) /\
  (forall rest : list Match,
     validate_ (mkSchema "alternatives" no_flags []
                  (try_item Engine.number :: rest) None)
       (VNum 5) state prefs
     = Ok (mkOutcome (VNum 5) NoErrors)) /\
  validate_ number_or_string_min3 (VStr "ab") state prefs
  = Ok (mkOutcome VUndef
          (ErrorList
             [EReport (mkReport "alternatives.match" (VStr "ab")
                (LDetails
                   [EReport (mkReport "number.base" (VStr "ab") (LFields []));
                    EReport (mkReport "string.min" (VStr "ab")
                               (LFields [("limit", AVal (VNum 3));
                                         ("value", AVal (VStr "ab"));
                                         ("encoding", AVal VUndef)]))]))])) /\
  (forall compile : Alternatives.Like -> result Schema,
     (forall s, compile (Alternatives.LSchema s) = Ok s) ->
     Common_limit (VNum 3) = true ->
     (let! s3 := StringType.min Common_limit isEncoding StringType.string_ (LimNum 3) None in
      Alternatives.try compile Alternatives.alternatives
        (Alternatives.TryMany [Alternatives.LSchema Engine.number; Alternatives.LSchema s3]))
     = Ok number_or_string_min3) /\
  (forall (compile : Alternatives.Like -> result Schema) (this : Schema)
          (schemas : Alternatives.TryArg) (others : list Alternatives.TryArg),
     Alternatives.try_call compile this (schemas :: others)
     = Alternatives.try compile this schemas) /\
  (forall compile : Alternatives.Like -> result Schema,
     (forall s, compile (Alternatives.LSchema s) = Ok s) ->
     Alternatives.try_call compile Alternatives.alternatives
       [Alternatives.TryOne (Alternatives.LSchema Engine.number);
        Alternatives.TryOne (Alternatives.LSchema (string_min 3))]
     = Ok number_alone) /\
  validate_ number_alone (VStr "ab") state prefs
  = Ok (mkOutcome VUndef
          (ErrorList [EReport (mkReport "number.base" (VStr "ab") (LFields []))])).
Proof.
  split; [| split; [| split; [| split; [| split; [| split; [| split]]]]]].
  - intros validate' match' nest' entry' rest H.
    apply (first_branch_returns validate' match' nest' entry' Engine.number rest
             (VNum 5) state prefs (mkOutcome (VNum 5) NoErrors) H eq_refl).
  - intros validate' match' nest' entry' H1 H2.
    apply (two_branches_fail validate' match' nest' entry' Engine.number (string_min 3)
             (VStr "ab") state prefs _ _ H1 H2). reflexivity.
  - intros rest. apply first_branch_accepts.
  - apply both_branches_fail.
  - intros compile Hc Hlim. rewrite min_builds by exact Hlim. simpl.
    unfold Alternatives.try. simpl. rewrite !Hc. reflexivity.
  - reflexivity.
  - intros compile Hc. unfold Alternatives.try_call, Alternatives.try. simpl.
    rewrite Hc. reflexivity.
  - destruct prefs as [context [|]]; reflexivity.
Qed.

End Pipeline.

Lemma C4_witness :
  (let! s3 := StringType.min nonneg_limit any_encoding StringType.string_ (LimNum 3) None in
   Alternatives.try compile_schema Alternatives.alternatives
     (Alternatives.TryMany [Alternatives.LSchema Engine.number; Alternatives.LSchema s3]))
  = Ok number_or_string_min3 /\
  run_validate number_or_string_min3 (VNum 5) Ref.no_ancestors Ref.some_prefs
  = Ok (mkOutcome (VNum 5) NoErrors) /\
  run_validate number_or_string_min3 (VStr "ab") Ref.no_ancestors Ref.some_prefs
  = Ok (mkOutcome VUndef
          (ErrorList
             [EReport (mkReport "alternatives.match" (VStr "ab")
                (LDetails
                   [EReport (mkReport "number.base" (VStr "ab") (LFields []));
                    EReport (mkReport "string.min" (VStr "ab")
                               (LFields [("limit", AVal (VNum 3));
                                         ("value", AVal (VStr "ab"));
                                         ("encoding", AVal VUndef)]))]))])).
Proof.
  destruct (C4_try_number_or_string plain_normalize plain_case plain_case plain_replace
              plain_byteLength no_date Ref.reach_plain not_iso nonneg_limit plain_entry
              any_encoding
              Ref.no_ancestors Ref.some_prefs) as (_ & _ & Hfirst & Hboth & Hbuild & _).
  split; [| split].
  - apply Hbuild; [intros s; reflexivity | reflexivity].
  - apply (Hfirst [try_item (string_min 3)]).
  - exact Hboth.
Defined.

(** C4 as stated fails: the call [try(number, string.min(3))] drops its
    second argument, so the schema holds the number branch alone, and
    the input ["ab"] is rejected with the error of that branch, whose code
    is [number.base], not with the aggregate code. *)
Lemma C4_counterexample :
  Alternatives.try_call compile_schema Alternatives.alternatives
    [Alternatives.TryOne (Alternatives.LSchema Engine.number);
     Alternatives.TryOne (Alternatives.LSchema (string_min 3))]
  = Ok number_alone /\
  Alternatives.validate run_validate run_match Engine.nest plain_entry Ref.reach_plain
    number_alone (VStr "ab") Ref.no_ancestors Ref.some_prefs
  = Ok (Alternatives.mkHookResult None
          (ErrorList [EReport (base_report "number.base" (VStr "ab"))])) /\
  run_validate number_alone (VStr "ab") Ref.no_ancestors Ref.some_prefs
  = Ok (mkOutcome VUndef
          (ErrorList [EReport (base_report "number.base" (VStr "ab"))])) /\
  report_code (base_report "number.base" (VStr "ab")) <> "alternatives.match" /\
  report_code (base_report "number.base" (VStr "ab")) <> "alternatives.types".
Proof.
  split; [reflexivity|]. split; [reflexivity|]. split; [reflexivity|].
  split; discriminate.
Qed.

(** ** The builders *)

Section Builders.

Variable Common_limit : JsVal -> bool.
Variable compile : Alternatives.Like -> result Schema.
Variable compile_ref : Alternatives.Condition -> result Ref.Ref.
Variable required : Schema -> Schema.

Local Abbreviation when := (Alternatives.when compile compile_ref required).
Local Abbreviation try := (Alternatives.try compile).





(** ** The end of a switch *)

Lemma compile_opt_defined x c :
  Alternatives.defined x = true -> Alternatives.compile_opt compile x = Ok c -> is_Some c.
Proof.
  intros Hd H. unfold Alternatives.compile_opt in H. rewrite Hd in H.
  destruct x as [y|]; [| discriminate].
  bind_split H as s Hs. inversion H. eauto.
Qed.

Lemma mutateRebuild_endedSwitch s :
  f_endedSwitch (flags (Alternatives.mutateRebuild s)) = f_endedSwitch (flags s).
Proof.
  unfold Alternatives.mutateRebuild, Alternatives.rebuild.
  destruct (existsb _ _); [destruct s; reflexivity | reflexivity].
Qed.

Lemma normalize_flag obj condition settings item obj' :
  Alternatives.normalize compile compile_ref required obj condition settings
  = Ok (item, obj') ->
  Alternatives.defined (Alternatives.s_then settings) = true ->
  Alternatives.defined (Alternatives.s_otherwise settings) = true ->
  f_endedSwitch (flags obj') = Some true.
Proof.
  intros H Hth Hot. unfold Alternatives.normalize in H.
  bind_split H as r Hr. bind_split H as t Ht. bind_split H as o Ho. bind_split H as i Hi.
  inversion H; subst.
  destruct (compile_opt_defined _ _ Hth Ht) as [t' ->].
  destruct (compile_opt_defined _ _ Hot Ho) as [o' ->].
  destruct obj. reflexivity.
Qed.

Lemma push_flags obj item : flags (Alternatives.push obj item) = flags obj.
Proof. destruct obj. reflexivity. Qed.

Lemma when_switch_flag options condition cases test : forall obj obj',
  last cases = Some test ->
  Alternatives.defined (Alternatives.w_otherwise options)
  || Alternatives.defined (Alternatives.t_otherwise test) = true ->
  Alternatives.when_switch compile compile_ref required obj condition options cases
  = Ok obj' ->
  f_endedSwitch (flags obj') = Some true.
Proof.
  induction cases as [|c rest IH]; intros obj obj' Hlast Hot H; [discriminate|].
  simpl in H. bind_split H as u1 Hu1. bind_split H as u2 Hu2.
  apply assert_Ok in Hu2.
  destruct rest as [|c2 rest].
  - simpl in Hlast. inversion Hlast; subst c.
    bind_split H as u3 Hu3. bind_split H as u4 Hu4. bind_split H as io Hio.
    inversion H; subst. rewrite push_flags. destruct io as [item o']. simpl.
    apply (normalize_flag _ _ _ _ _ Hio); simpl; [exact Hu2|].
    destruct (Alternatives.defined (Alternatives.w_otherwise options)) eqn:E; [exact E|].
    simpl in Hot. exact Hot.
  - bind_split H as u3 Hu3. bind_split H as io Hio.
    eapply IH; [| exact Hot | exact H]. exact Hlast.
Qed.

Lemma when_exhaustive_flag this condition options obj :
  exhaustive options ->
  when this condition options = Ok obj ->
  f_endedSwitch (flags obj) = Some true.
Proof.
  unfold exhaustive. intros Hex H. unfold Alternatives.when in H.
  set (o := Alternatives.when_options options) in *.
  do 10 (let u := fresh "u" in let Hu := fresh "Hu" in bind_split H as u Hu; clear Hu).
  destruct (Alternatives.w_switch o) as [[cases|v]|] eqn:Esw.
  - bind_split H as obj1 Hobj1. inversion H. rewrite mutateRebuild_endedSwitch.
    destruct (last cases) as [test|] eqn:El; [| destruct Hex].
    eapply when_switch_flag; eauto.
  - destruct Hex as [Hth Hot].
    bind_split H as io Hio. inversion H. rewrite mutateRebuild_endedSwitch, push_flags.
    destruct io as [item o']. apply (normalize_flag _ _ _ _ _ Hio); assumption.
  - destruct Hex as [Hth Hot].
    bind_split H as io Hio. inversion H. rewrite mutateRebuild_endedSwitch, push_flags.
    destruct io as [item o']. apply (normalize_flag _ _ _ _ _ Hio); assumption.
Qed.

Lemma try_after_end obj schemas :
  f_endedSwitch (flags obj) = Some true ->
  throws (try obj schemas) /\
  ((match schemas with
    | Alternatives.TryOne x => Alternatives.like_truthy x
    | Alternatives.TryMany _ => true
    end) = true ->
   try obj schemas = Throw "Unreachable condition").
Proof.
  intros H. unfold Alternatives.try. rewrite H. split.
  - apply throws_assert. intros _. simpl. apply throws_Throw.
  - intros ->. reflexivity.
Qed.

Lemma when_after_end obj condition options :
  f_endedSwitch (flags obj) = Some true ->
  throws (when obj condition options) /\
  (Alternatives.w_unknown (Alternatives.when_options options) = [] ->
   when obj condition options = Throw "Unreachable condition").
Proof.
  intros H. unfold Alternatives.when. rewrite H. split.
  - apply throws_assertOptions. intros _. simpl. apply throws_Throw.
  - intros ->. reflexivity.
Qed.

(** C10. When a call of [when] that supplies both [then] and
    [otherwise] succeeds, the schema it returns has the [_endedSwitch]
    flag set, and every call of [try] or [when] on that schema throws; the
    error is "Unreachable condition" unless an earlier check of the
    arguments fails first (no schemas given to [try], an unknown option
    key given to [when]). *)
Theorem C10_no_match_after_exhaustive_when
    (this : Schema) (condition : Alternatives.Condition)
    (options : Alternatives.WhenArg) (obj : Schema) :
  exhaustive options ->
  when this condition options = Ok obj ->
  f_endedSwitch (flags obj) = Some true /\
  (forall schemas,
     throws (try obj schemas) /\
     ((match schemas with
       | Alternatives.TryOne x => Alternatives.like_truthy x
       | Alternatives.TryMany _ => true
       end) = true ->
      try obj schemas = Throw "Unreachable condition")) /\
  (forall condition' options',
     throws (when obj condition' options') /\
     (Alternatives.w_unknown (Alternatives.when_options options') = [] ->
      when obj condition' options' = Throw "Unreachable condition")).
Proof.
  intros Hex Hwhen.
  pose proof (when_exhaustive_flag this condition options obj Hex Hwhen) as Hflag.
  split; [exact Hflag|]. split.
  - intros schemas. apply try_after_end, Hflag.
  - intros condition' options'. apply when_after_end, Hflag.
Qed.

End Builders.


Lemma C10_witness :
  exists obj : Schema,
    Alternatives.when compile_schema compile_ref Base.required Alternatives.alternatives
      (Alternatives.CondStr "a") when_number_else_string = Ok obj /\
    Alternatives.try compile_schema obj
      (Alternatives.TryOne (Alternatives.LSchema Engine.number))
    = Throw "Unreachable condition".
Proof.
  destruct (Alternatives.when compile_schema compile_ref Base.required
              Alternatives.alternatives (Alternatives.CondStr "a")
              when_number_else_string) as [obj|msg] eqn:E; [| discriminate E].
  exists obj. split; [reflexivity|].
  destruct (C10_no_match_after_exhaustive_when compile_schema compile_ref Base.required
              Alternatives.alternatives (Alternatives.CondStr "a")
              when_number_else_string obj) as (_ & Htry & _).
  - split; reflexivity.
  - exact E.
  - apply (Htry (Alternatives.TryOne (Alternatives.LSchema Engine.number))). reflexivity.
Defined.

End AlternativesTheory.

(* ===================================================================== *)
(** * Builders leave the receiver unchanged *)
(* ===================================================================== *)

Module HeapTheory.
Import Js Schema Heap.

Lemma extends_refl σ : extends σ σ.
Proof. repeat split; reflexivity. Qed.

Lemma extends_trans σ1 σ2 σ3 : extends σ1 σ2 -> extends σ2 σ3 -> extends σ1 σ3.
Proof.
  intros (A1 & B1 & C1 & D1) (A2 & B2 & C2 & D2).
  repeat split; etrans; eassumption.
Qed.

Lemma keeps_refl σ0 σ : extends σ0 σ -> keeps σ0 σ σ.
Proof. intros H. split; [exact H | auto]. Qed.

Lemma keeps_trans σ0 σ1 σ2 σ3 : keeps σ0 σ1 σ2 -> keeps σ0 σ2 σ3 -> keeps σ0 σ1 σ3.
Proof. intros [E1 O1] [E2 O2]. split; [exact E2 | auto]. Qed.

Lemma prefix_snoc {A} (l0 l : list A) (x : A) : l0 `prefix_of` l -> l0 `prefix_of` l ++ [x].
Proof. intros H. etrans; [exact H|]. apply prefix_app_r. reflexivity. Qed.

Lemma prefix_insert {A} (l0 l : list A) (a : nat) (x : A) :
  l0 `prefix_of` l -> (List.length l0 <= a)%nat -> l0 `prefix_of` <[a := x]> l.
Proof.
  intros [k ->] Hle. exists (<[(a - List.length l0)%nat := x]> k).
  rewrite insert_app_r_alt by exact Hle. reflexivity.
Qed.

Lemma lookup_snoc_old {A} (l : list A) (x y : A) (i : nat) :
  l !! i = Some y -> (l ++ [x]) !! i = Some y.
Proof. intros H. apply lookup_app_l_Some. exact H. Qed.

(** ** Rules *)
Section Rules.
Context {A B : Type} (σ0 : Store).

Lemma spec_ret (a : A) (Post : A -> Store -> Prop) :
  spec σ0 (Post a) (ret a) Post.
Proof.
  intros σ He Hp. simpl. split; [apply keeps_refl, He|]. intros a' [= <-]. exact Hp.
Qed.

Lemma spec_raise (msg : string) (Pre : Store -> Prop) (Post : A -> Store -> Prop) :
  spec σ0 Pre (raise msg) Post.
Proof. intros σ He Hp. simpl. split; [apply keeps_refl, He | discriminate]. Qed.

Lemma spec_lift (r : result A) (Pre : Store -> Prop) :
  spec σ0 Pre (lift r) (fun _ σ => Pre σ).
Proof. intros σ He Hp. simpl. split; [apply keeps_refl, He | auto]. Qed.

Lemma spec_bind (m : M A) (k : A -> M B) (Pre : Store -> Prop)
    (Mid : A -> Store -> Prop) (Post : B -> Store -> Prop) :
  spec σ0 Pre m Mid -> (forall a, spec σ0 (Mid a) (k a) Post) ->
  spec σ0 Pre (mbind m k) Post.
Proof.
  intros Hm Hk σ He Hp. destruct (Hm σ He Hp) as [Hkeep Hpost].
  unfold mbind. destruct (m σ) as [[a|msg] σ1]; simpl in *.
  - destruct (Hk a σ1 (proj1 Hkeep) (Hpost a eq_refl)) as [Hkeep2 Hpost2].
    split; [eapply keeps_trans; eassumption | exact Hpost2].
  - split; [exact Hkeep | discriminate].
Qed.

Lemma spec_weaken (m : M A) (Pre Pre' : Store -> Prop) (Post Post' : A -> Store -> Prop) :
  spec σ0 Pre m Post ->
  (forall σ, Pre' σ -> Pre σ) -> (forall a σ, Post a σ -> Post' a σ) ->
  spec σ0 Pre' m Post'.
Proof.
  intros H HP HQ σ He Hp. destruct (H σ He (HP σ Hp)) as [Hk Hq]. split; auto.
Qed.

Lemma spec_frame (m : M A) (Pre : Store -> Prop) (Post : A -> Store -> Prop) (obj : addr) :
  spec σ0 Pre m Post ->
  spec σ0 (fun σ => Pre σ /\ owned σ0 σ obj) m (fun a σ => Post a σ /\ owned σ0 σ obj).
Proof.
  intros H σ He [Hp Ho]. destruct (H σ He Hp) as [Hk Hq].
  split; [exact Hk|]. intros a Ha. split; [auto | apply Hk, Ho].
Qed.

Lemma spec_pure (m : M A) (φ : Prop) (Pre : Store -> Prop) (Post : A -> Store -> Prop) :
  (φ -> spec σ0 Pre m Post) -> spec σ0 (fun σ => φ /\ Pre σ) m Post.
Proof. intros H σ He [Hphi Hp]. exact (H Hphi σ He Hp). Qed.
End Rules.

Section Prims.
Variable σ0 : Store.

Lemma owned_same_nodes σ σ' obj :
  nodes σ' = nodes σ -> owned σ0 σ obj -> owned σ0 σ' obj.
Proof. intros E (Hle & n & Hn & Hf). split; [exact Hle|]. exists n. rewrite E. auto. Qed.

Lemma spec_alloc_flags f :
  spec σ0 (fun _ => True) (alloc_flags f)
    (fun a _ => (List.length (flagss σ0) <= a)%nat).
Proof.
  intros σ (Hn & Hf & Ha & Hm) _. simpl. split; [split|].
  - repeat split; simpl; auto using prefix_snoc.
  - intros obj. apply owned_same_nodes. reflexivity.
  - intros a [= <-]. apply prefix_length, Hf.
Qed.

Lemma spec_alloc_array l :
  spec σ0 (fun _ => True) (alloc_array l)
    (fun a _ => (List.length (arrays σ0) <= a)%nat).
Proof.
  intros σ (Hn & Hf & Ha & Hm) _. simpl. split; [split|].
  - repeat split; simpl; auto using prefix_snoc.
  - intros obj. apply owned_same_nodes. reflexivity.
  - intros a [= <-]. apply prefix_length, Ha.
Qed.

Lemma spec_alloc_match m :
  spec σ0 (fun _ => True) (alloc_match m)
    (fun a _ => (List.length (matchs σ0) <= a)%nat).
Proof.
  intros σ (Hn & Hf & Ha & Hm) _. simpl. split; [split|].
  - repeat split; simpl; auto using prefix_snoc.
  - intros obj. apply owned_same_nodes. reflexivity.
  - intros a [= <-]. apply prefix_length, Hm.
Qed.

Lemma spec_alloc_node n :
  fresh_node σ0 n ->
  spec σ0 (fun _ => True) (alloc_node n) (fun a σ => owned σ0 σ a).
Proof.
  intros Hfresh σ (Hn & Hf & Ha & Hm) _. simpl. split; [split|].
  - repeat split; simpl; auto using prefix_snoc.
  - intros obj (Hle & n' & Hl & Hf'). split; [exact Hle|]. exists n'. simpl.
    split; [apply lookup_app_l_Some, Hl | exact Hf'].
  - intros a [= <-]. split; [apply prefix_length, Hn|]. exists n. simpl.
    split; [apply list_lookup_middle; reflexivity | exact Hfresh].
Qed.

Lemma spec_write_flags a f :
  (List.length (flagss σ0) <= a)%nat ->
  spec σ0 (fun _ => True) (write_flags a f) (fun _ _ => True).
Proof.
  intros Hle σ (Hn & Hf & Ha & Hm) _. simpl. split; [split | auto].
  - repeat split; simpl; auto using prefix_insert.
  - intros obj. apply owned_same_nodes. reflexivity.
Qed.

Lemma spec_write_array a l :
  (List.length (arrays σ0) <= a)%nat ->
  spec σ0 (fun _ => True) (write_array a l) (fun _ _ => True).
Proof.
  intros Hle σ (Hn & Hf & Ha & Hm) _. simpl. split; [split | auto].
  - repeat split; simpl; auto using prefix_insert.
  - intros obj. apply owned_same_nodes. reflexivity.
Qed.

Lemma spec_write_match a m :
  (List.length (matchs σ0) <= a)%nat ->
  spec σ0 (fun _ => True) (write_match a m) (fun _ _ => True).
Proof.
  intros Hle σ (Hn & Hf & Ha & Hm) _. simpl. split; [split | auto].
  - repeat split; simpl; auto using prefix_insert.
  - intros obj. apply owned_same_nodes. reflexivity.
Qed.

Lemma spec_write_node obj n :
  (List.length (nodes σ0) <= obj)%nat -> fresh_node σ0 n ->
  spec σ0 (fun _ => True) (write_node obj n) (fun _ _ => True).
Proof.
  intros Hle Hfresh σ (Hn & Hf & Ha & Hm) _. simpl. split; [split | auto].
  - repeat split; simpl; auto using prefix_insert.
  - intros o (Hlo & n' & Hl & Hf'). split; [exact Hlo|]. simpl.
    destruct (decide (obj = o)) as [->|Hne].
    + exists n. split; [| exact Hfresh].
      apply list_lookup_insert_eq. eapply lookup_lt_Some, Hl.
    + exists n'. split; [| exact Hf']. rewrite list_lookup_insert_ne by exact Hne. exact Hl.
Qed.

(** Reads leave the store as it is. *)
Lemma spec_read_node a (Pre : Store -> Prop) :
  spec σ0 Pre (read_node a) (fun n σ => Pre σ /\ nodes σ !! a = Some n).
Proof.
  intros σ He Hp. unfold read_node. destruct (nodes σ !! a) as [n|] eqn:E; simpl.
  - split; [apply keeps_refl, He|]. intros n' [= <-]. auto.
  - split; [apply keeps_refl, He | discriminate].
Qed.

Lemma spec_read_flags a (Pre : Store -> Prop) :
  spec σ0 Pre (read_flags a) (fun _ σ => Pre σ).
Proof.
  intros σ He Hp. unfold read_flags. destruct (flagss σ !! a); simpl;
    (split; [apply keeps_refl, He | auto; discriminate]).
Qed.

Lemma spec_read_array a (Pre : Store -> Prop) :
  spec σ0 Pre (read_array a) (fun _ σ => Pre σ).
Proof.
  intros σ He Hp. unfold read_array. destruct (arrays σ !! a); simpl;
    (split; [apply keeps_refl, He | auto; discriminate]).
Qed.

Lemma spec_read_match a (Pre : Store -> Prop) :
  spec σ0 Pre (read_match a) (fun _ σ => Pre σ).
Proof.
  intros σ He Hp. unfold read_match. destruct (matchs σ !! a); simpl;
    (split; [apply keeps_refl, He | auto; discriminate]).
Qed.

(** Reading an owned node yields a node with fresh parts. *)
Lemma spec_read_owned obj :
  spec σ0 (fun σ => owned σ0 σ obj) (read_node obj)
    (fun n σ => fresh_node σ0 n /\ (List.length (nodes σ0) <= obj)%nat /\ owned σ0 σ obj).
Proof.
  apply (spec_weaken σ0 (read_node obj) (fun σ => owned σ0 σ obj) _
           (fun n σ => owned σ0 σ obj /\ nodes σ !! obj = Some n) _
           (spec_read_node obj _)); [auto|].
  intros n σ [Ho Hn]. split; [| split; [apply Ho | exact Ho]].
  destruct Ho as (_ & n' & Hn' & Hf). congruence.
Qed.

End Prims.

Section Composite.
Variable σ0 : Store.

Lemma stable_True : stable σ0 (fun _ => True).
Proof. intros σ σ' _ _. exact I. Qed.

Lemma stable_owned obj : stable σ0 (fun σ => owned σ0 σ obj).
Proof. intros σ σ' [_ H] Ho. apply H, Ho. Qed.

#[local] Hint Resolve stable_True stable_owned : core.

(** An operation specified on its own runs in any stable context. *)
Lemma spec_stable {A} (m : M A) (Pre : Store -> Prop) (φ : A -> Prop) :
  stable σ0 Pre ->
  spec σ0 (fun _ => True) m (fun a _ => φ a) ->
  spec σ0 Pre m (fun a σ => φ a /\ Pre σ).
Proof.
  intros Hst H σ He Hp. destruct (H σ He I) as [Hk Hq].
  split; [exact Hk|]. intros a Ha. split; [auto | eapply Hst; eauto].
Qed.

(** Sequencing under an invariant of the store, with the facts about the
    intermediate result moved out *)
Lemma spec_seq {A B} (m : M A) (k : A -> M B) (Pre : Store -> Prop)
    (φ : A -> Prop) (Post : B -> Store -> Prop) :
  spec σ0 Pre m (fun a σ => φ a /\ Pre σ) ->
  (forall a, φ a -> spec σ0 Pre (k a) Post) ->
  spec σ0 Pre (mbind m k) Post.
Proof.
  intros Hm Hk. eapply spec_bind; [exact Hm|].
  intros a σ He [Hphi Hp]. exact (Hk a Hphi σ He Hp).
Qed.

Lemma spec_read_node' a Pre : spec σ0 Pre (read_node a) (fun _ σ => True /\ Pre σ).
Proof. eapply spec_weaken; [apply (spec_read_node σ0 a Pre) | auto |]. intros ? ? [? ?]; auto. Qed.
Lemma spec_read_flags' a Pre : spec σ0 Pre (read_flags a) (fun _ σ => True /\ Pre σ).
Proof. eapply spec_weaken; [apply (spec_read_flags σ0 a Pre) | auto |]. simpl; auto. Qed.
Lemma spec_read_array' a Pre : spec σ0 Pre (read_array a) (fun _ σ => True /\ Pre σ).
Proof. eapply spec_weaken; [apply (spec_read_array σ0 a Pre) | auto |]. simpl; auto. Qed.
Lemma spec_read_match' a Pre : spec σ0 Pre (read_match a) (fun _ σ => True /\ Pre σ).
Proof. eapply spec_weaken; [apply (spec_read_match σ0 a Pre) | auto |]. simpl; auto. Qed.
Lemma spec_lift' {A} (r : result A) Pre : spec σ0 Pre (lift r) (fun _ σ => True /\ Pre σ).
Proof. eapply spec_weaken; [apply (spec_lift σ0 r Pre) | auto |]. simpl; auto. Qed.
Lemma spec_ret' {A} (a : A) (Pre : Store -> Prop) (φ : A -> Prop) :
  φ a -> spec σ0 Pre (ret a) (fun a σ => φ a /\ Pre σ).
Proof. intros H σ He Hp. simpl. split; [apply keeps_refl, He|]. intros ? [= <-]. auto. Qed.

Lemma push_spec a x Pre :
  stable σ0 Pre -> (List.length (arrays σ0) <= a)%nat ->
  spec σ0 Pre (push a x) (fun _ σ => True /\ Pre σ).
Proof.
  intros Hst Hle. unfold push.
  eapply spec_seq; [apply spec_read_array'|]. intros l _.
  apply spec_stable; [exact Hst|]. apply spec_write_array, Hle.
Qed.

Lemma slice_term_spec t Pre :
  stable σ0 Pre ->
  spec σ0 Pre (slice_term t)
    (fun t' σ => (forall a, t' = Some a -> (List.length (arrays σ0) <= a)%nat) /\ Pre σ).
Proof.
  intros Hst. destruct t as [a|]; simpl.
  - eapply spec_seq; [apply spec_read_array'|]. intros l _.
    eapply spec_seq; [apply spec_stable; [exact Hst | apply spec_alloc_array]|].
    intros a' Ha'. apply spec_ret'. intros ? [= <-]. exact Ha'.
  - apply spec_ret'. discriminate.
Qed.

Lemma clone_spec this :
  spec σ0 (fun _ => True) (clone this) (fun obj σ => owned σ0 σ obj).
Proof.
  unfold clone.
  eapply spec_seq; [apply spec_read_node'|]. intros n _.
  eapply spec_seq; [apply spec_read_flags'|]. intros f _.
  eapply spec_seq; [apply spec_stable; [auto | apply spec_alloc_flags]|]. intros f' Hf'.
  eapply spec_seq; [apply slice_term_spec; auto|]. intros ms Hms.
  eapply spec_seq; [apply slice_term_spec; auto|]. intros rs Hrs.
  apply spec_alloc_node. repeat split; simpl; auto.
Qed.

Lemma setFlag_here_spec obj set :
  spec σ0 (fun σ => owned σ0 σ obj) (setFlag_here obj set)
    (fun _ σ => True /\ owned σ0 σ obj).
Proof.
  unfold setFlag_here.
  eapply spec_bind; [apply spec_read_owned|]. intros n.
  apply spec_pure. intros Hfresh.
  eapply (spec_weaken σ0 _ (fun σ => owned σ0 σ obj)).
  - eapply spec_seq; [apply spec_read_flags'|]. intros f _.
    apply spec_stable; [auto|]. apply spec_write_flags, Hfresh.
  - intros σ [_ H]. exact H.
  - simpl. auto.
Qed.

Lemma setFlag_spec this set :
  spec σ0 (fun _ => True) (setFlag this set) (fun obj σ => owned σ0 σ obj).
Proof.
  unfold setFlag.
  eapply spec_bind; [apply clone_spec|]. intros obj.
  eapply spec_bind; [apply setFlag_here_spec|]. intros u.
  eapply spec_weaken; [apply (spec_ret σ0 obj (fun o σ => owned σ0 σ o)) | | auto].
  intros σ [_ H]. exact H.
Qed.

Lemma base_label_spec this name :
  spec σ0 (fun _ => True) (base_label this name) (fun obj σ => owned σ0 σ obj).
Proof.
  unfold base_label.
  eapply spec_seq; [apply spec_lift'|]. intros _ _. apply setFlag_spec.
Qed.

End Composite.

Section Builders.
Variable σ0 : Store.

#[local] Hint Resolve stable_True stable_owned : core.

Lemma replace_spec escaped_global this pattern replacement :
  spec σ0 (fun _ => True) (replace_ escaped_global this pattern replacement)
    (fun obj σ => owned σ0 σ obj).
Proof.
  unfold replace_.
  destruct (match pattern with
            | StringType.PString s => StringType.PRegExp (escaped_global s)
            | p => p
            end) as [re| |]; try apply spec_raise.
  destruct replacement; try apply spec_raise.
  eapply spec_bind; [apply clone_spec|]. intros obj.
  eapply spec_bind; [apply spec_read_owned|]. intros n.
  apply spec_pure. intros Hfresh. apply spec_pure. intros Hobj.
  eapply (spec_seq σ0 _ _ _ (fun arr => (List.length (arrays σ0) <= arr)%nat)).
  - destruct (n_replacements n) as [a|] eqn:E.
    + apply spec_ret'. apply Hfresh, E.
    + eapply spec_seq; [apply spec_stable; [auto | apply spec_alloc_array]|].
      intros a Ha.
      eapply spec_seq.
      * apply spec_stable; [auto|]. apply (spec_write_node σ0 obj); [exact Hobj|].
        destruct Hfresh as (H1 & H2 & H3). repeat split; simpl; auto.
        intros ? [= <-]. exact Ha.
      * intros _ _. apply spec_ret'. exact Ha.
  - intros arr Harr.
    eapply spec_seq; [apply push_spec; auto|]. intros _ _.
    apply (spec_ret σ0 obj (fun o σ => owned σ0 σ o)).
Qed.

Lemma node_is_array_spec o Pre :
  spec σ0 Pre (node_is_array o) (fun _ σ => True /\ Pre σ).
Proof.
  destruct o as [a|]; simpl.
  - eapply spec_seq; [apply spec_read_node'|]. intros n _. apply spec_ret'. exact I.
  - apply spec_ret'. exact I.
Qed.

Lemma any_array_spec items Pre :
  spec σ0 Pre (any_array items) (fun _ σ => True /\ Pre σ).
Proof.
  induction items as [|[a|r] rest IH]; simpl.
  - apply spec_ret'. exact I.
  - eapply spec_seq; [apply spec_read_match'|]. intros m _.
    eapply spec_seq; [apply node_is_array_spec|]. intros b1 _.
    eapply spec_seq; [apply node_is_array_spec|]. intros b2 _.
    eapply spec_seq; [apply node_is_array_spec|]. intros b3 _.
    destruct (b1 || b2 || b3); [apply spec_ret'; exact I | exact IH].
  - exact IH.
Qed.

Lemma mutateRebuild_spec obj :
  spec σ0 (fun σ => owned σ0 σ obj) (mutateRebuild obj) (fun o σ => owned σ0 σ o).
Proof.
  unfold mutateRebuild.
  eapply spec_seq; [apply spec_read_node'|]. intros n _.
  eapply (spec_seq σ0 _ _ _ (fun _ => True)).
  { destruct (n_matches n); [apply spec_read_array' | apply spec_raise]. }
  intros items _.
  eapply spec_seq; [apply any_array_spec|]. intros b _.
  eapply (spec_seq σ0 _ _ _ (fun _ => True)).
  { destruct b; [apply setFlag_here_spec | apply spec_ret'; exact I]. }
  intros _ _. apply (spec_ret σ0 obj (fun o σ => owned σ0 σ o)).
Qed.

Lemma try_push_spec a schemas Pre :
  stable σ0 Pre -> (List.length (arrays σ0) <= a)%nat ->
  spec σ0 Pre (try_push a schemas) (fun _ σ => True /\ Pre σ).
Proof.
  intros Hst Ha. induction schemas as [|schema rest IH]; simpl.
  - apply spec_ret'. exact I.
  - eapply spec_seq; [apply spec_stable; [exact Hst | apply spec_alloc_match]|].
    intros m _.
    eapply spec_seq; [apply push_spec; assumption|]. intros _ _. exact IH.
Qed.

Lemma try_spec this schemas :
  spec σ0 (fun _ => True) (try this schemas) (fun obj σ => owned σ0 σ obj).
Proof.
  unfold try.
  eapply spec_seq; [apply spec_read_node'|]. intros n _.
  eapply spec_seq; [apply spec_read_flags'|]. intros f _.
  eapply spec_seq; [apply spec_lift'|]. intros _ _.
  eapply spec_bind; [apply clone_spec|]. intros obj.
  eapply spec_bind; [apply spec_read_owned|]. intros n'.
  apply spec_pure. intros Hfresh.
  eapply (spec_weaken σ0 _ (fun σ => owned σ0 σ obj)).
  - eapply (spec_seq σ0 _ _ _ (fun _ => True)).
    + destruct (n_matches n') as [a|] eqn:E.
      * apply try_push_spec; [auto|]. apply (proj1 (proj2 Hfresh) a E).
      * destruct schemas; [apply spec_ret'; exact I | apply spec_raise].
    + intros _ _. apply mutateRebuild_spec.
  - intros σ [_ H]. exact H.
  - auto.
Qed.

End Builders.

Section When.
Variable σ0 : Store.
#[local] Hint Resolve stable_True stable_owned : core.

Lemma normalize_spec obj condition settings :
  spec σ0 (fun σ => owned σ0 σ obj) (normalize obj condition settings)
    (fun _ σ => True /\ owned σ0 σ obj).
Proof.
  unfold normalize.
  eapply (spec_seq σ0 _ _ _ (fun _ => True)).
  - destruct (is_some (s_then settings) && is_some (s_otherwise settings));
      [apply setFlag_here_spec | apply spec_ret'; exact I].
  - intros _ _. apply spec_ret'. exact I.
Qed.

Lemma push_normalized_spec obj condition settings :
  spec σ0 (fun σ => owned σ0 σ obj) (push_normalized obj condition settings)
    (fun _ σ => True /\ owned σ0 σ obj).
Proof.
  unfold push_normalized.
  eapply spec_bind; [apply spec_read_owned|]. intros n.
  apply spec_pure. intros Hfresh.
  eapply (spec_weaken σ0 _ (fun σ => owned σ0 σ obj)).
  - eapply spec_seq; [apply normalize_spec|]. intros item _.
    eapply spec_seq; [apply spec_stable; [auto | apply spec_alloc_match]|]. intros m _.
    destruct (n_matches n) as [a|] eqn:E.
    + apply push_spec; [auto|]. apply (proj1 (proj2 Hfresh) a E).
    + apply spec_raise.
  - intros σ [_ H]. exact H.
  - auto.
Qed.

Lemma when_switch_spec obj condition options cases :
  spec σ0 (fun σ => owned σ0 σ obj) (when_switch obj condition options cases)
    (fun _ σ => True /\ owned σ0 σ obj).
Proof.
  induction cases as [|test rest IH]; simpl.
  - apply spec_ret'. exact I.
  - eapply spec_seq; [apply spec_lift'|]. intros u1 _.
    eapply spec_seq; [apply spec_lift'|]. intros u2 _.
    destruct rest as [|c2 rest].
    + eapply spec_seq; [apply spec_lift'|]. intros u3 _.
      eapply spec_seq; [apply spec_lift'|]. intros u4 _.
      apply push_normalized_spec.
    + eapply spec_seq; [apply spec_lift'|]. intros u3 _.
      eapply spec_seq; [apply push_normalized_spec|]. intros u4 _.
      exact IH.
Qed.

Lemma when_spec this condition options :
  spec σ0 (fun _ => True) (when this condition options) (fun obj σ => owned σ0 σ obj).
Proof.
  unfold when.
  eapply spec_seq; [apply spec_lift'|]. intros u0 _.
  eapply spec_seq; [apply spec_read_node'|]. intros n _.
  eapply spec_seq; [apply spec_read_flags'|]. intros f _.
  do 7 (eapply spec_seq; [apply spec_lift'|]; intros ? _).
  eapply spec_bind; [apply clone_spec|]. intros obj.
  eapply (spec_seq σ0 _ _ _ (fun _ => True)).
  - destruct (w_switch options); [apply when_switch_spec | apply push_normalized_spec].
  - intros _ _. apply mutateRebuild_spec.
Qed.
End When.

Section Fuel.
Context {A B : Type} (σ0 : Store).

Lemma specF_run (m : M A) Pre Post : spec σ0 Pre m Post -> specF σ0 Pre (run m) Post.
Proof.
  intros H σ r σ' He Hp [= E]. destruct (H σ He Hp) as [Hk Hq].
  rewrite E in Hk, Hq. simpl in *. auto.
Qed.

Lemma specF_bind (m : MF A) (k : A -> MF B) Pre Mid Post :
  specF σ0 Pre m Mid -> (forall a, specF σ0 (Mid a) (k a) Post) ->
  specF σ0 Pre (fbind m k) Post.
Proof.
  intros Hm Hk σ r σ' He Hp E. unfold fbind in E.
  destruct (m σ) as [[[a|msg] σ1]|] eqn:Em; [| | discriminate].
  - destruct (Hm σ _ σ1 He Hp Em) as [Hk1 Hq1].
    destruct (Hk a σ1 r σ' (proj1 Hk1) (Hq1 a eq_refl) E) as [Hk2 Hq2].
    split; [eapply keeps_trans; eassumption | exact Hq2].
  - inversion E; subst. destruct (Hm σ _ σ' He Hp Em) as [Hk1 _].
    split; [exact Hk1 | discriminate].
Qed.

Lemma specF_seq (m : MF A) (k : A -> MF B) (Pre : Store -> Prop)
    (φ : A -> Prop) (Post : B -> Store -> Prop) :
  specF σ0 Pre m (fun a σ => φ a /\ Pre σ) ->
  (forall a, φ a -> specF σ0 Pre (k a) Post) ->
  specF σ0 Pre (fbind m k) Post.
Proof.
  intros Hm Hk. eapply specF_bind; [exact Hm|].
  intros a σ r σ' He [Hphi Hp]. exact (Hk a Hphi σ r σ' He Hp).
Qed.

Lemma specF_ret (a : A) (Pre : Store -> Prop) (φ : A -> Prop) :
  φ a -> specF σ0 Pre (fret a) (fun a σ => φ a /\ Pre σ).
Proof.
  intros H σ r σ' He Hp [= <- <-]. split; [apply keeps_refl, He|]. intros ? [= <-]. auto.
Qed.

Lemma specF_pure (m : MF A) (φ : Prop) Pre Post :
  (φ -> specF σ0 Pre m Post) -> specF σ0 (fun σ => φ /\ Pre σ) m Post.
Proof. intros H σ r σ' He [Hphi Hp]. exact (H Hphi σ r σ' He Hp). Qed.

Lemma specF_weaken (m : MF A) (Pre Pre' : Store -> Prop) (Post Post' : A -> Store -> Prop) :
  specF σ0 Pre m Post ->
  (forall σ, Pre' σ -> Pre σ) -> (forall a σ, Post a σ -> Post' a σ) ->
  specF σ0 Pre' m Post'.
Proof.
  intros H HP HQ σ r σ' He Hp E. destruct (H σ r σ' He (HP σ Hp) E) as [Hk Hq].
  split; auto.
Qed.
End Fuel.

(** ** Returning before the fuel runs out *)

Section Returns.
Context {A B : Type}.

Lemma returns_run (m : M A) σ : returns (run m) σ.
Proof. unfold returns, run. destruct (m σ) as [r σ']. eauto. Qed.

Lemma returns_fret (a : A) σ : returns (fret a) σ.
Proof. unfold returns, fret. eauto. Qed.

Lemma returns_bind σ0 (m : MF A) (k : A -> MF B) Pre Mid σ :
  extends σ0 σ -> Pre σ -> specF σ0 Pre m Mid -> returns m σ ->
  (forall a σ1, m σ = Some (Ok a, σ1) -> extends σ0 σ1 -> Mid a σ1 -> returns (k a) σ1) ->
  returns (fbind m k) σ.
Proof.
  intros He Hp Hm ([a|msg] & σ1 & E) Hk; unfold returns, fbind in *.
  - destruct (Hm σ _ σ1 He Hp E) as [[He1 _] Hq]. rewrite E.
    apply (Hk a σ1 E He1 (Hq a eq_refl)).
  - rewrite E. eauto.
Qed.
End Returns.

Lemma run_inv {A} (m : M A) σ r σ' : run m σ = Some (r, σ') -> m σ = (r, σ').
Proof. intros [= E]. exact E. Qed.

Lemma read_opt_is_Some (f : addr -> option Schema) (c : addr) (r : option Schema) :
  read_opt f (Some c) = Some r -> is_Some (f c).
Proof. simpl. destruct (f c); [eauto | discriminate]. Qed.

Lemma describe_labellable (f : addr -> option Schema) σ0 items ms :
  mapM (read_match_obj f σ0) items = Some ms ->
  Forall (labellable σ0 (fun c => is_Some (f c))) items.
Proof.
  rewrite mapM_Some. induction 1 as [|e m items ms He _ IH]; constructor; [| exact IH].
  destruct e as [a|r]; [| exact I]. simpl in *.
  destruct (matchs σ0 !! a) as [mo|]; [| discriminate].
  exists mo. split; [reflexivity|].
  destruct (read_opt f (mo_schema mo)) as [s|] eqn:E1; [| discriminate].
  destruct (read_opt f (mo_peek mo)) as [p|] eqn:E2; [| discriminate].
  destruct (read_opt f (mo_is mo)) as [i|] eqn:E3; [| discriminate].
  destruct (read_opt f (mo_then mo)) as [t|] eqn:E4; [| discriminate].
  destruct (read_opt f (mo_otherwise mo)) as [o|] eqn:E5; [| discriminate].
  unfold label_targets.
  destruct (mo_schema mo) as [c|]; [repeat constructor; eapply read_opt_is_Some, E1|].
  apply Forall_app. split.
  - destruct (mo_then mo); repeat constructor. eapply read_opt_is_Some, E4.
  - destruct (mo_otherwise mo); repeat constructor. eapply read_opt_is_Some, E5.
Qed.

Ltac step_store :=
  repeat progress
    (unfold mbind, read_node, read_flags, read_array, alloc_flags, alloc_array, alloc_node,
       write_flags, ret, slice_term;
     cbn beta iota zeta delta [nodes flagss arrays matchs fst snd
                 n_type n_flags n_rules n_matches n_replacements];
     try match goal with
         | H : ?l !! ?i = Some _ |- context [?l !! ?i] => rewrite H
         | H : ?l !! ?i = Some _ |- context [(?l ++ _) !! ?i] =>
             rewrite (lookup_app_l_Some _ _ _ _ H)
         | |- context [(?l ++ [?x]) !! List.length ?l] =>
             rewrite (list_lookup_middle l [] x (List.length l) eq_refl)
         | H : n_matches ?n = _ |- context [n_matches ?n] => rewrite H
         | H : n_replacements ?n = _ |- context [n_replacements ?n] => rewrite H
         end).

(** What the clone made by [label] of the base type holds *)
Lemma base_label_content (this : addr) (name : string) (σ : Store) (n : Node) (f : Flags) :
  nodes σ !! this = Some n ->
  flagss σ !! n_flags n = Some f ->
  (forall arr, n_matches n = Some arr -> is_Some (arrays σ !! arr)) ->
  (forall arr, n_replacements n = Some arr -> is_Some (arrays σ !! arr)) ->
  forall obj, fst (base_label this name σ) = Ok obj ->
    exists n1, nodes (snd (base_label this name σ)) !! obj = Some n1 /\
      match n_matches n with
      | Some arr =>
          exists arr1, n_matches n1 = Some arr1 /\
            arrays (snd (base_label this name σ)) !! arr1 = arrays σ !! arr
      | None => n_matches n1 = None
      end.
Proof.
  intros Hn Hf Hm Hr obj.
  destruct σ as [ns fs ars ms]. cbn [nodes flagss arrays matchs] in *.
  unfold base_label, lift. unfold mbind at 1. destruct (assert _ _); cbn [fst snd]; [| discriminate].
  unfold setFlag, clone, setFlag_here.
  destruct (n_matches n) as [arr|] eqn:Em; destruct (n_replacements n) as [arr_r|] eqn:Er.
  - destruct (Hm arr eq_refl) as [items Hitems].
    destruct (Hr arr_r eq_refl) as [ritems Hritems].
    step_store.
    intros [= <-]. eexists. split; [apply list_lookup_middle; reflexivity|].
      simpl. eexists. split; [reflexivity|].
      rewrite lookup_app_l by (rewrite length_app; simpl; lia).
      rewrite list_lookup_middle by reflexivity. auto.
  - destruct (Hm arr eq_refl) as [items Hitems].
    step_store.
    intros [= <-]. eexists. split; [apply list_lookup_middle; reflexivity|].
      simpl. eexists. split; [reflexivity|].
      rewrite list_lookup_middle by reflexivity. auto.
  - destruct (Hr arr_r eq_refl) as [ritems Hritems].
    step_store.
    intros [= <-]. eexists. split; [apply list_lookup_middle; reflexivity|].
      reflexivity.
  - step_store.
    intros [= <-]. eexists. split; [apply list_lookup_middle; reflexivity|].
      reflexivity.
Qed.

Section Label.
Variable σ0 : Store.
#[local] Hint Resolve stable_True stable_owned : core.

Local Abbreviation T := (fun _ : Store => True).

Section Override.
Variable label_call : addr -> string -> MF addr.
Hypothesis call_spec : forall a name, specF σ0 T (label_call a name) (fun _ σ => True /\ T σ).

Lemma label_match_spec name e :
  specF σ0 T (label_match label_call name e) (fun _ σ => True /\ T σ).
Proof.
  destruct e as [a|r]; simpl; [| apply specF_ret; exact I].
  eapply specF_seq; [apply specF_run, spec_read_match'|]. intros m _.
  destruct (mo_schema m) as [schema|].
  - eapply specF_seq; [apply call_spec|]. intros schema' _.
    eapply specF_seq; [apply specF_run, spec_stable; [auto | apply spec_alloc_match]|].
    intros a' _. apply specF_ret. exact I.
  - eapply specF_seq; [apply specF_run, spec_stable; [auto | apply spec_alloc_match]|].
    intros a' Ha'.
    eapply (specF_seq σ0 _ _ _ (fun _ => True)).
    { destruct (mo_then m) as [t|]; [| apply specF_ret; exact I].
      eapply specF_seq; [apply call_spec|]. intros t' _.
      eapply specF_seq; [apply specF_run, spec_read_match'|]. intros m' _.
      apply specF_run, spec_stable; [auto|]. apply spec_write_match, Ha'. }
    intros _ _.
    eapply (specF_seq σ0 _ _ _ (fun _ => True)).
    { destruct (mo_otherwise m) as [o|]; [| apply specF_ret; exact I].
      eapply specF_seq; [apply call_spec|]. intros o' _.
      eapply specF_seq; [apply specF_run, spec_read_match'|]. intros m' _.
      apply specF_run, spec_stable; [auto|]. apply spec_write_match, Ha'. }
    intros _ _. apply specF_ret. exact I.
Qed.

Lemma map_elems_spec name items :
  specF σ0 T (map_elems (label_match label_call name) items) (fun _ σ => True /\ T σ).
Proof.
  induction items as [|x rest IH]; simpl.
  - apply specF_ret. exact I.
  - eapply specF_seq; [apply label_match_spec|]. intros y _.
    eapply specF_seq; [exact IH|]. intros ys _. apply specF_ret. exact I.
Qed.

Lemma label_override_spec this name :
  specF σ0 T (label_override label_call this name)
    (fun obj _ => (List.length (nodes σ0) <= obj)%nat).
Proof.
  unfold label_override.
  eapply specF_bind; [apply specF_run, base_label_spec|]. intros obj.
  eapply specF_bind; [apply specF_run, spec_read_owned|]. intros n.
  apply specF_pure. intros Hfresh. apply specF_pure. intros Hobj.
  eapply (specF_weaken σ0 _ T).
  - eapply (specF_seq σ0 _ _ _ (fun _ => True)).
    { destruct (n_matches n); apply specF_run; [apply spec_read_array' | apply spec_raise]. }
    intros items _.
    eapply specF_seq; [apply map_elems_spec|]. intros items' _.
    eapply specF_seq; [apply specF_run, spec_stable; [auto | apply spec_alloc_array]|].
    intros arr Harr.
    eapply (specF_seq σ0 _ _ _ (fun _ => True)).
    { apply specF_run, spec_stable; [auto|]. apply spec_write_node; [exact Hobj|].
      destruct Hfresh as (H1 & H2 & H3). repeat split; simpl; auto.
      intros ? [= <-]. exact Harr. }
    intros _ _.
    apply (specF_ret σ0 obj T (fun o => (List.length (nodes σ0) <= o)%nat) Hobj).
  - auto.
  - intros a σ [H _]. exact H.
Qed.
Lemma read_match_at a m σ :
  extends σ0 σ -> matchs σ0 !! a = Some m -> read_match a σ = (Ok m, σ).
Proof.
  intros (_ & _ & _ & Hm) E. unfold read_match.
  rewrite (prefix_lookup_Some _ _ _ _ E Hm). reflexivity.
Qed.

(** A branch of the copy at [a'] is replaced by its labelled version. *)
Lemma relabel_spec name (a' : addr) (o : option addr) (set : MatchObj -> addr -> MatchObj) :
  (List.length (matchs σ0) <= a')%nat ->
  specF σ0 T
    match o with
    | Some t =>
        fdo! t' := label_call t name in
        fdo! m' := run (read_match a') in
        run (write_match a' (set m' t'))
    | None => fret tt
    end
    (fun _ σ => True /\ T σ).
Proof.
  intros Ha'. destruct o as [t|]; [| apply specF_ret; exact I].
  eapply specF_seq; [apply call_spec|]. intros t' _.
  eapply specF_seq; [apply specF_run, spec_read_match'|]. intros m' _.
  apply specF_run, spec_stable; [apply stable_True|]. apply spec_write_match, Ha'.
Qed.

Lemma relabel_returns name (a' : addr) (o : option addr) (set : MatchObj -> addr -> MatchObj) σ :
  extends σ0 σ -> Forall (callable σ0 label_call name) (option_list o) ->
  returns
    match o with
    | Some t =>
        fdo! t' := label_call t name in
        fdo! m' := run (read_match a') in
        run (write_match a' (set m' t'))
    | None => fret tt
    end σ.
Proof.
  intros He Hc. destruct o as [t|]; [| apply returns_fret].
  eapply (returns_bind σ0 _ _ T); [exact He | exact I | apply call_spec
                                   | apply (Forall_inv Hc), He |].
  intros t' σ1 _ He1 _.
  eapply (returns_bind σ0 _ _ T); [exact He1 | exact I | apply specF_run, spec_read_match'
                                   | apply returns_run |].
  intros m' σ2 _ _ _. apply returns_run.
Qed.

Lemma label_match_returns name e σ :
  extends σ0 σ -> labellable σ0 (callable σ0 label_call name) e ->
  returns (label_match label_call name e) σ.
Proof.
  destruct e as [a|r]; simpl; [| intros; apply returns_fret].
  intros He (m & Hm & Hc).
  eapply (returns_bind σ0 _ _ T); [exact He | exact I | apply specF_run, spec_read_match'
                                   | apply returns_run |].
  intros m' σ1 E He1 _. apply run_inv in E. rewrite (read_match_at a m σ He Hm) in E.
  injection E as <- <-.
  unfold label_targets in Hc. destruct (mo_schema m) as [schema|].
  - eapply (returns_bind σ0 _ _ T); [exact He | exact I | apply call_spec
                                     | apply (Forall_inv Hc), He |].
    intros schema' σ2 _ He2 _.
    eapply (returns_bind σ0 _ _ T); [exact He2 | exact I
      | apply specF_run, spec_stable; [apply stable_True | apply spec_alloc_match]
      | apply returns_run |].
    intros. apply returns_fret.
  - apply Forall_app in Hc as [Ht Ho].
    eapply (returns_bind σ0 _ _ T); [exact He | exact I
      | apply specF_run, spec_stable; [apply stable_True | apply spec_alloc_match]
      | apply returns_run |].
    intros a' σ2 _ He2 [Ha' _].
    eapply (returns_bind σ0 _ _ T); [exact He2 | exact I | apply relabel_spec, Ha'
                                     | apply relabel_returns; assumption |].
    intros u σ3 _ He3 _.
    eapply (returns_bind σ0 _ _ T); [exact He3 | exact I | apply relabel_spec, Ha'
                                     | apply relabel_returns; assumption |].
    intros. apply returns_fret.
Qed.

Lemma map_elems_returns name items : forall σ,
  extends σ0 σ -> Forall (labellable σ0 (callable σ0 label_call name)) items ->
  returns (map_elems (label_match label_call name) items) σ.
Proof.
  induction items as [|x rest IH]; intros σ He Hc; simpl; [apply returns_fret|].
  eapply (returns_bind σ0 _ _ T); [exact He | exact I | apply label_match_spec
    | apply label_match_returns; [exact He | apply (Forall_inv Hc)] |].
  intros y σ1 _ He1 _.
  eapply (returns_bind σ0 _ _ T); [exact He1 | exact I | apply map_elems_spec
    | apply IH; [exact He1 | apply (Forall_inv_tail Hc)] |].
  intros. apply returns_fret.
Qed.

Lemma label_override_returns name this n f σ :
  extends σ0 σ ->
  nodes σ0 !! this = Some n ->
  flagss σ0 !! n_flags n = Some f ->
  (forall arr, n_matches n = Some arr ->
     exists items, arrays σ0 !! arr = Some items /\
       Forall (labellable σ0 (callable σ0 label_call name)) items) ->
  (forall arr, n_replacements n = Some arr -> is_Some (arrays σ0 !! arr)) ->
  returns (label_override label_call this name) σ.
Proof.
  intros He Hn Hf Hm Hr. pose proof He as (Pn & Pf & Pa & Pm).
  unfold label_override.
  eapply (returns_bind σ0 _ _ T); [exact He | exact I | apply specF_run, base_label_spec
                                   | apply returns_run |].
  intros obj σ1 E He1 _. apply run_inv in E.
  destruct (base_label_content this name σ n f) with (obj := obj) as (n1 & Hn1 & Hc).
  { eapply prefix_lookup_Some; eassumption. }
  { eapply prefix_lookup_Some; eassumption. }
  { intros arr Ha. destruct (Hm arr Ha) as (items & Hi & _). exists items.
    eapply prefix_lookup_Some; eassumption. }
  { intros arr Ha. destruct (Hr arr Ha) as (items & Hi). exists items.
    eapply prefix_lookup_Some; eassumption. }
  { rewrite E. reflexivity. }
  rewrite E in Hn1, Hc. cbn [fst snd] in Hn1, Hc.
  eapply (returns_bind σ0 _ _ T); [exact He1 | exact I | apply specF_run, spec_read_node'
                                   | apply returns_run |].
  intros n' σ2 E2 He2 _. apply run_inv in E2. unfold read_node in E2. rewrite Hn1 in E2.
  injection E2 as <- <-.
  destruct (n_matches n) as [arr|] eqn:Enm.
  - destruct Hc as (arr1 & -> & Harr1). destruct (Hm arr eq_refl) as (items & Hi & Hok).
    rewrite (prefix_lookup_Some _ _ _ _ Hi Pa) in Harr1.
    eapply (returns_bind σ0 _ _ T); [exact He1 | exact I | apply specF_run, spec_read_array'
                                     | apply returns_run |].
    intros items' σ3 E3 He3 _. apply run_inv in E3. unfold read_array in E3.
    rewrite Harr1 in E3. injection E3 as <- <-.
    eapply (returns_bind σ0 _ _ T); [exact He1 | exact I | apply map_elems_spec
                                     | apply map_elems_returns; assumption |].
    intros items' σ4 _ He4 _.
    eapply (returns_bind σ0 _ _ T); [exact He4 | exact I
      | apply specF_run, spec_stable; [apply stable_True | apply spec_alloc_array]
      | apply returns_run |].
    intros arr' σ5 _ He5 _. unfold returns, fbind, run, write_node, fret. eauto.
  - rewrite Hc. unfold returns, fbind, run, raise. eauto.
Qed.
End Override.

(** A call of [label] keeps the objects of [σ0] and returns a node made
    after [σ0] was taken. *)
Lemma label_spec fuel : forall this name,
  specF σ0 T (label fuel this name) (fun obj _ => (List.length (nodes σ0) <= obj)%nat).
Proof.
  induction fuel as [|fuel IH]; intros this name; simpl.
  - intros σ r σ' _ _ E. discriminate.
  - eapply specF_seq; [apply specF_run, spec_read_node'|]. intros n _.
    destruct (String.eqb (n_type n) "alternatives").
    + apply label_override_spec. intros a name'.
      eapply specF_weaken; [apply IH | auto | auto].
    + eapply specF_weaken; [apply specF_run, base_label_spec | auto |].
      intros obj σ H. apply H.
Qed.
End Label.

Lemma read_opt_mono (f g : addr -> option Schema) (o : option addr) (r : option Schema) :
  (forall a s, f a = Some s -> g a = Some s) ->
  read_opt f o = Some r -> read_opt g o = Some r.
Proof.
  intros H. destruct o as [a|]; simpl; [| auto].
  destruct (f a) as [s|] eqn:E; [| discriminate].
  rewrite (H a s E). auto.
Qed.

Lemma read_match_obj_mono (f g : addr -> option Schema) (σ σ' : Store) (e : Elem) (m : Match) :
  (forall a s, f a = Some s -> g a = Some s) ->
  extends σ σ' ->
  read_match_obj f σ e = Some m -> read_match_obj g σ' e = Some m.
Proof.
  intros H (_ & _ & _ & Hm). unfold read_match_obj. destruct e as [a|r]; [| discriminate].
  destruct (matchs σ !! a) as [mo|] eqn:E; [| discriminate].
  rewrite (prefix_lookup_Some _ _ _ _ E Hm).
  destruct (read_opt f (mo_schema mo)) as [s|] eqn:E1; [| discriminate].
  destruct (read_opt f (mo_peek mo)) as [p|] eqn:E2; [| discriminate].
  destruct (read_opt f (mo_is mo)) as [i|] eqn:E3; [| discriminate].
  destruct (read_opt f (mo_then mo)) as [t|] eqn:E4; [| discriminate].
  destruct (read_opt f (mo_otherwise mo)) as [o|] eqn:E5; [| discriminate].
  rewrite (read_opt_mono f g _ _ H E1), (read_opt_mono f g _ _ H E2),
    (read_opt_mono f g _ _ H E3), (read_opt_mono f g _ _ H E4),
    (read_opt_mono f g _ _ H E5). auto.
Qed.

Lemma mapM_mono {X Y} (f g : X -> option Y) (l : list X) (k : list Y) :
  (forall x y, f x = Some y -> g x = Some y) ->
  mapM f l = Some k -> mapM g l = Some k.
Proof.
  intros H. rewrite !mapM_Some. intros HF. eapply Forall2_impl; [exact HF | exact H].
Qed.

Lemma describe_extends (fuel : nat) : forall (σ σ' : Store) (a : addr) (d : Schema),
  extends σ σ' -> describe fuel σ a = Some d -> describe fuel σ' a = Some d.
Proof.
  induction fuel as [|fuel IH]; intros σ σ' a d He; simpl; [discriminate|].
  pose proof He as (Hn & Hf & Ha & Hm).
  destruct (nodes σ !! a) as [n|] eqn:En; [| discriminate].
  rewrite (prefix_lookup_Some _ _ _ _ En Hn).
  destruct (flagss σ !! n_flags n) as [f|] eqn:Ef; [| discriminate].
  rewrite (prefix_lookup_Some _ _ _ _ Ef Hf).
  intros H.
  destruct (match n_matches n with
            | Some arr => _
            | None => Some []
            end) as [ms|] eqn:Ems; [| discriminate].
  destruct (match n_replacements n with
            | Some arr => _
            | None => Some None
            end) as [rs|] eqn:Ers; [| discriminate].
  assert (Ems' : match n_matches n with
                 | Some arr =>
                     match arrays σ' !! arr with
                     | Some items => mapM (read_match_obj (describe fuel σ') σ') items
                     | None => None
                     end
                 | None => Some []
                 end = Some ms).
  { destruct (n_matches n) as [arr|]; [| exact Ems].
    destruct (arrays σ !! arr) as [items|] eqn:Ea; [| discriminate].
    rewrite (prefix_lookup_Some _ _ _ _ Ea Ha).
    eapply mapM_mono; [| exact Ems].
    intros x y. apply read_match_obj_mono; [| exact He].
    intros a' s. apply IH, He. }
  assert (Ers' : match n_replacements n with
                 | Some arr =>
                     match arrays σ' !! arr with
                     | Some items =>
                         match mapM read_elem_replacement items with
                         | Some l => Some (Some l)
                         | None => None
                         end
                     | None => None
                     end
                 | None => Some None
                 end = Some rs).
  { destruct (n_replacements n) as [arr|]; [| exact Ers].
    destruct (arrays σ !! arr) as [items|] eqn:Ea; [| discriminate].
    rewrite (prefix_lookup_Some _ _ _ _ Ea Ha). exact Ers. }
  rewrite Ems', Ers'. exact H.
Qed.

(** Fuel that is enough to describe a schema is enough to label it. *)
Lemma label_returns fuel : forall (σ0 σ : Store) (this : addr) (name : string),
  is_Some (describe fuel σ0 this) -> extends σ0 σ -> returns (label fuel this name) σ.
Proof.
  induction fuel as [|fuel IH]; intros σ0 σ this name [d Hd] He; simpl in Hd; [discriminate|].
  destruct (nodes σ0 !! this) as [n|] eqn:En; [| discriminate].
  destruct (flagss σ0 !! n_flags n) as [f|] eqn:Ef; [| discriminate].
  destruct (match n_matches n with
            | Some arr => _
            | None => Some []
            end) as [ms|] eqn:Ems; [| discriminate].
  destruct (match n_replacements n with
            | Some arr => _
            | None => Some None
            end) as [rs|] eqn:Ers; [| discriminate].
  cbn [label]. unfold returns, fbind, run, read_node.
  rewrite (prefix_lookup_Some _ _ _ _ En (proj1 He)).
  destruct (String.eqb (n_type n) "alternatives"); [| destruct (base_label this name σ); eauto].
  apply (label_override_returns σ0 (label fuel)) with (n := n) (f := f);
    [| exact He | exact En | exact Ef | |].
  - intros a name'. eapply specF_weaken; [apply (label_spec σ0 fuel) | auto | auto].
  - intros arr Ha. rewrite Ha in Ems.
    destruct (arrays σ0 !! arr) as [items|]; [| discriminate].
    exists items. split; [reflexivity|].
    eapply Forall_impl; [eapply describe_labellable, Ems|].
    intros [a|r]; [| auto]. intros (m & Hm & Hc). exists m. split; [exact Hm|].
    eapply Forall_impl; [exact Hc|]. intros c Hc' σ' He'. exact (IH σ0 σ' c name Hc' He').
  - intros arr Ha. rewrite Ha in Ers. destruct (arrays σ0 !! arr); [eauto | discriminate].
Qed.

Lemma spec_extends {A} (σ : Store) (m : M A) (Post : A -> Store -> Prop) :
  spec σ (fun _ => True) m Post -> extends σ (snd (m σ)).
Proof. intros H. apply (H σ (extends_refl σ) I). Qed.

Lemma specF_extends {A} (σ : Store) (m : MF A) (Post : A -> Store -> Prop) r σ' :
  specF σ (fun _ => True) m Post -> m σ = Some (r, σ') -> extends σ σ'.
Proof. intros H E. apply (H σ r σ' (extends_refl σ) I E). Qed.

Lemma owned_new (σ0 σ : Store) (obj : addr) :
  owned σ0 σ obj -> (List.length (nodes σ0) <= obj)%nat.
Proof. intros H. apply H. Qed.

(** What a builder specified from a store leaves behind *)
Lemma builder_frame (σ : Store) (m : M addr) (fuel : nat) (T : addr) (d : Schema) :
  spec σ (fun _ => True) m (fun obj σ' => owned σ σ' obj) ->
  describe fuel σ T = Some d ->
  describe fuel (snd (m σ)) T = Some d /\
  forall obj, fst (m σ) = Ok obj -> (List.length (nodes σ) <= obj)%nat.
Proof.
  intros Hspec Hd. destruct (Hspec σ (extends_refl σ) I) as [[He _] Hpost]. split.
  - eapply describe_extends; eassumption.
  - intros obj Hobj. eapply owned_new, Hpost, Hobj.
Qed.

(** [label] on the alternatives schema of [three_schemas] returns a new
    node that carries the label, as does the copy of its match; the
    receiver reads as before. *)
Example label_three_schemas :
  exists σ',
    label 2 2%nat "x" three_schemas = Some (Ok 3%nat, σ') /\
    describe 2 σ' 2%nat = describe 2 three_schemas 2%nat /\
    describe 2 σ' 3%nat
    = Some (mkSchema "alternatives" (Base.with_label no_flags "x") []
              [Scenario.try_item
                 (mkSchema "string" (Base.with_label no_flags "x") [] [] None)] None).
Proof. eexists. split; [vm_compute; reflexivity |]. split; reflexivity. Qed.

(** C6. A builder call on the schema [S] returns a node that is new and
    leaves the description of every schema of the store, [S] among them, as
    it was: for [replace] of the string type and for [try], [when] and
    [label] of alternatives, whether they return or throw. The clone
    made before the mutation has a flags object and term arrays of its
    own, and the match objects that [label] changes are copies. The
    recursion of [label] through the nested schemas comes to an end: the
    depth that suffices to describe [S] suffices to label it. *)
Theorem C6_builders_leave_the_receiver
    (σ : Store) (S T : addr) (fuel : nat) (d : Schema) :
  describe fuel σ T = Some d ->
  (forall escaped_global pattern replacement,
     describe fuel (snd (replace_ escaped_global S pattern replacement σ)) T = Some d /\
     forall obj, fst (replace_ escaped_global S pattern replacement σ) = Ok obj ->
       (List.length (nodes σ) <= obj)%nat) /\
  (forall schemas,
     describe fuel (snd (try S schemas σ)) T = Some d /\
     forall obj, fst (try S schemas σ) = Ok obj -> (List.length (nodes σ) <= obj)%nat) /\
  (forall condition options,
     describe fuel (snd (when S condition options σ)) T = Some d /\
     forall obj, fst (when S condition options σ) = Ok obj ->
       (List.length (nodes σ) <= obj)%nat) /\
  (forall n name,
     (is_Some (describe n σ S) -> exists r σ', label n S name σ = Some (r, σ')) /\
     forall r σ', label n S name σ = Some (r, σ') ->
       describe fuel σ' T = Some d /\
       forall obj, r = Ok obj -> (List.length (nodes σ) <= obj)%nat).
Proof.
  intros Hd. split; [| split; [| split]].
  - intros. apply builder_frame; [apply replace_spec | exact Hd].
  - intros. apply builder_frame; [apply try_spec | exact Hd].
  - intros. apply builder_frame; [apply when_spec | exact Hd].
  - intros n name. split.
    + intros HS. apply (label_returns n σ σ S name HS (extends_refl σ)).
    + intros r σ' E.
      destruct (label_spec σ n S name σ r σ' (extends_refl σ) I E) as [[He _] Hpost].
      split; [eapply describe_extends; eassumption | exact Hpost].
Qed.

Lemma C6_witness :
  describe 2 two_schemas 1%nat = Some Alternatives.alternatives /\
  fst (try 1%nat [0%nat] two_schemas) = Ok 2%nat /\
  describe 2 (snd (try 1%nat [0%nat] two_schemas)) 1%nat = Some Alternatives.alternatives /\
  describe 2 (snd (try 1%nat [0%nat] two_schemas)) 2%nat
  = Some (mkSchema "alternatives" no_flags []
            [Scenario.try_item StringType.string_] None) /\
  exists r σ', label 2 1%nat "x" two_schemas = Some (r, σ').
Proof.
  assert (Hd : describe 2 two_schemas 1%nat = Some Alternatives.alternatives) by reflexivity.
  destruct (C6_builders_leave_the_receiver two_schemas 1%nat 1%nat 2%nat
              Alternatives.alternatives Hd) as (_ & Htry & _ & Hlabel).
  split; [exact Hd|]. split; [reflexivity|]. split; [apply (Htry [0%nat]) |].
  split; [reflexivity|].
  apply (Hlabel 2%nat "x"). exists Alternatives.alternatives. exact Hd.
Defined.

End HeapTheory.

(* ===================================================================== *)
(** * More properties of references *)
(* ===================================================================== *)

Module RefMethodsTheory.
Import Js Ref RefMethods.

(** ** Strings *)

Lemma append_cons (c : ascii) (a b : string) : String c a +:+ b = String c (a +:+ b).
Proof. reflexivity. Qed.

Lemma append_nil_r (a : string) : a +:+ "" = a.
Proof. induction a as [|x a IH]; [reflexivity | rewrite append_cons, IH; reflexivity]. Qed.

(** A string that starts with [p] is [p] followed by its slice. *)
Lemma prefix_slice (p s : string) :
  String.prefix p s = true -> s = p +:+ slice_from (String.length p) s.
Proof.
  revert s. induction p as [|c p IH]; intros s.
  - intros _. destruct s; reflexivity.
  - destruct s as [|c' s]; [discriminate|]. simpl.
    destruct (Ascii.ascii_dec c c') as [->|Hne]; [| discriminate].
    intros H. rewrite append_cons, <- (IH s H). reflexivity.
Qed.

Lemma prefix_char (c : ascii) (s : string) :
  String.prefix (String c "") s = true <-> exists s', s = String c s'.
Proof.
  destruct s as [|c' s]; simpl.
  - split; [discriminate | intros [? ?]; discriminate].
  - destruct (Ascii.ascii_dec c c') as [->|Hne].
    + split; [eauto | intros _; destruct s; reflexivity].
    + split; [destruct s; discriminate | intros [? [= ? ?]]; congruence].
Qed.

Lemma repeat_succ (n : nat) (c : ascii) (rest : string) :
  repeat_string (S n) (String c "") +:+ rest
  = String c (repeat_string n (String c "") +:+ rest).
Proof. reflexivity. Qed.

Lemma slice_from_repeat (n : nat) (c : ascii) (rest : string) :
  slice_from n (repeat_string n (String c "") +:+ rest) = rest.
Proof.
  induction n as [|n IH]; [destruct rest; reflexivity|].
  rewrite repeat_succ. exact IH.
Qed.

(** ** [internals.ancestor] *)

Lemma sep_is_char (c c' : ascii) :
  sep_is (SepStr (String c "")) (String c' "") = bool_decide (c = c').
Proof.
  unfold sep_is. destruct (decide (c = c')) as [->|Hne].
  - rewrite String.eqb_refl, bool_decide_eq_true_2; reflexivity.
  - rewrite bool_decide_eq_false_2 by exact Hne. apply String.eqb_neq. congruence.
Qed.

Lemma ancestor_scan_repeat (c : ascii) (rest : string) (k : nat) : forall i,
  String.prefix (String c "") rest = false ->
  ancestor_scan (repeat_string k (String c "") +:+ rest) (SepStr (String c "")) i
  = (i + k)%nat.
Proof.
  induction k as [|k IH]; intros i Hrest.
  - change (repeat_string 0 (String c "") +:+ rest) with rest.
    rewrite Nat.add_0_r. destruct rest as [|c' rest]; [reflexivity|].
    cbn [ancestor_scan]. rewrite sep_is_char.
    rewrite bool_decide_eq_false_2; [reflexivity|].
    intros ->. rewrite (proj2 (prefix_char c' _)) in Hrest by eauto. discriminate.
  - rewrite repeat_succ. cbn [ancestor_scan]. rewrite sep_is_char.
    rewrite bool_decide_eq_true_2 by reflexivity. rewrite IH by exact Hrest. lia.
Qed.

Lemma char_differs_head (c c' : ascii) (s : string) :
  char_differs (String c' s) 0 (SepStr (String c "")) = negb (bool_decide (c = c')).
Proof. unfold char_differs, char_at. cbn [String.get]. rewrite sep_is_char. reflexivity. Qed.

Lemma char_differs_not_prefix (c : ascii) (s : string) (i : nat) :
  String.prefix (String c "") (slice_from i s) = false ->
  char_differs s i (SepStr (String c "")) = true.
Proof.
  revert s. induction i as [|i IH]; intros s.
  - cbn [slice_from]. destruct s as [|c' s]; [reflexivity|].
    intros H. rewrite char_differs_head. apply negb_true_iff, bool_decide_eq_false.
    intros ->. rewrite (proj2 (prefix_char c' _)) in H by eauto. discriminate.
  - destruct s as [|c' s]; [reflexivity|]. intros H.
    unfold char_differs, char_at in *. cbn [String.get]. apply IH. exact H.
Qed.

Lemma ancestor_of_leading (c : ascii) (n : nat) (rest : string) :
  String.prefix (String c "") rest = false ->
  ancestor_of (repeat_string n (String c "") +:+ rest) (SepStr (String c ""))
  = (leading_depth n, n).
Proof.
  intros Hrest.
  unfold ancestor_of. cbn [sep_truthy negb String.eqb Ascii.eqb].
  replace (String.eqb (String c "") "") with false by reflexivity. cbn [negb].
  destruct n as [|[|n]].
  - change (repeat_string 0 (String c "") +:+ rest) with rest.
    rewrite (char_differs_not_prefix c rest 0) by exact Hrest. reflexivity.
  - rewrite repeat_succ, char_differs_head, bool_decide_eq_true_2 by reflexivity. cbn [negb].
    change (repeat_string 0 (String c "") +:+ rest) with rest.
    rewrite (char_differs_not_prefix c (String c rest) 1) by exact Hrest. reflexivity.
  - rewrite repeat_succ, char_differs_head, bool_decide_eq_true_2 by reflexivity. cbn [negb].
    rewrite repeat_succ.
    replace (char_differs _ 1 _) with false.
    2:{ unfold char_differs, char_at. cbn [String.get]. rewrite sep_is_char.
        rewrite bool_decide_eq_true_2 by reflexivity. reflexivity. }
    cbn [slice_from]. rewrite ancestor_scan_repeat by exact Hrest.
    cbn [leading_depth]. f_equal; lia.
Qed.

(** X2. [internals.ancestor] counts the separators that lead the key:
    none is the parent, one the value itself, and [n >= 2] of them the
    ancestor [n - 1]; all [n] are to be sliced off. Without a separator
    every key is read from the parent. *)
Theorem ancestor_counts_leading_separators (c : ascii) (n : nat) (rest : string) :
  String.prefix (String c "") rest = false ->
  ancestor_of (repeat_string n (String c "") +:+ rest) (SepStr (String c ""))
  = (leading_depth n, n) /\
  forall key, ancestor_of key SepFalse = (1%nat, 0%nat) /\
              ancestor_of key SepUndef = (1%nat, 0%nat).
Proof.
  intros Hrest. split; [apply ancestor_of_leading, Hrest | intros key; split; reflexivity].
Qed.

Lemma X2_witness :
  ancestor_of "....a.b" (SepStr ".") = (3%nat, 4%nat).
Proof.
  apply (proj1 (ancestor_counts_leading_separators "."%char 4 "a.b" eq_refl)).
Defined.

(** X1. [internals.context] takes the first of the global, local and
    root prefixes that starts the trimmed key: the type follows from the
    prefix, and the key is the trimmed key without it. *)
Theorem context_strips_first_prefix (key : string) (prefix : Prefix) :
  let globalp := or_default (p_global prefix) "$" in
  let localp := or_default (p_local prefix) "#" in
  let rootp := or_default (p_root prefix) "/" in
  let ctx := context key prefix in
  exists p, trim key = p +:+ c_key ctx /\
    ((p = globalp /\ c_type ctx = TGlobal /\ c_root ctx = false) \/
     (p = localp /\ c_type ctx = TLocal /\ c_root ctx = false /\
      startsWith (trim key) globalp = false) \/
     (p = rootp /\ c_type ctx = TValue /\ c_root ctx = true /\
      startsWith (trim key) globalp = false /\ startsWith (trim key) localp = false) \/
     (p = "" /\ c_type ctx = TValue /\ c_root ctx = false /\
      startsWith (trim key) globalp = false /\ startsWith (trim key) localp = false /\
      startsWith (trim key) rootp = false)).
Proof.
  cbv zeta. unfold context.
  destruct (startsWith (trim key) (or_default (p_global prefix) "$")) eqn:Eg.
  { eexists. split; [apply prefix_slice, Eg|]. left. repeat split. }
  destruct (startsWith (trim key) (or_default (p_local prefix) "#")) eqn:El.
  { eexists. split; [apply prefix_slice, El|]. right. left. repeat split. }
  destruct (startsWith (trim key) (or_default (p_root prefix) "/")) eqn:Er.
  { eexists. split; [apply prefix_slice, Er|]. right. right. left. repeat split. }
  exists "". split; [reflexivity|]. right. right. right. repeat split.
Qed.

(** ** [split] and [join] *)

Lemma append_assoc (a b c : string) : (a +:+ b) +:+ c = a +:+ (b +:+ c).
Proof.
  induction a as [|x a IH]; [reflexivity|]. rewrite !append_cons, IH. reflexivity.
Qed.

Lemma rev_app_append (s1 : string) : forall s2,
  String.rev_app s1 s2 = String.rev s1 +:+ s2.
Proof.
  unfold String.rev. induction s1 as [|a s1 IH]; intros s2; [reflexivity|].
  cbn [String.rev_app]. rewrite (IH (String a s2)), (IH (String a "")), append_assoc.
  reflexivity.
Qed.

Lemma rev_cons (c : ascii) (s : string) : String.rev (String c s) = String.rev s +:+ String c "".
Proof. unfold String.rev at 1. cbn [String.rev_app]. apply rev_app_append. Qed.

Lemma prefix_empty (s : string) : String.prefix "" s = true.
Proof. destruct s; reflexivity. Qed.

Lemma split_aux_cons (c : ascii) (s cur : string) :
  split_aux "." (String c s) cur 0
  = if bool_decide (c = "."%char)
    then String.rev cur :: split_aux "." s "" 0
    else split_aux "." s (String c cur) 0.
Proof.
  cbn [split_aux String.prefix].
  destruct (Ascii.ascii_dec "." c) as [<-|Hne].
  - rewrite prefix_empty, bool_decide_eq_true_2 by reflexivity. reflexivity.
  - rewrite bool_decide_eq_false_2 by congruence. reflexivity.
Qed.

Lemma split_aux_nonempty (s : string) : forall cur, split_aux "." s cur 0 <> [].
Proof.
  induction s as [|c s IH]; intros cur; [discriminate|].
  rewrite split_aux_cons. destruct (bool_decide _); [discriminate | apply IH].
Qed.

Lemma join_cons (x : string) (r : list JsVal) (sep : string) :
  r <> [] -> join (VStr x :: r) sep = x +:+ sep +:+ join r sep.
Proof. destruct r; [contradiction | reflexivity]. Qed.

(** Joining what [split] gives yields the string again. *)
Lemma join_split_aux (s : string) : forall cur,
  join (VStr <$> split_aux "." s cur 0) "." = String.rev cur +:+ s.
Proof.
  induction s as [|c s IH]; intros cur.
  - cbn [split_aux fmap list_fmap join to_string]. symmetry. apply append_nil_r.
  - rewrite split_aux_cons. destruct (bool_decide (c = "."%char)) eqn:E.
    + apply bool_decide_eq_true in E. subst c.
      rewrite fmap_cons, join_cons, IH; [reflexivity|].
      pose proof (split_aux_nonempty s "").
      destruct (split_aux "." s "" 0); [contradiction | discriminate].
    + rewrite IH, rev_cons, append_assoc. reflexivity.
Qed.

Lemma join_split (s : string) : join (VStr <$> split s ".") "." = s.
Proof. apply (join_split_aux s ""). Qed.

Lemma split_nonempty (s : string) : VStr <$> split s "." <> [].
Proof.
  unfold split. pose proof (split_aux_nonempty s "").
  destruct (split_aux "." s "" 0); [contradiction | discriminate].
Qed.

(** ** [create] *)

(** The reference that the constructor makes of options it accepts *)
Lemma Ref_new_Ok (o : RefOptions) :
  o_unknown o = [] ->
  valid_separator (o_separator o) = true ->
  (o_map o = None \/ o_adjust o = None) ->
  (default TValue (o_type o) = TValue \/ o_ancestor o = None) ->
  Ref_new o
  = Ok {| adjust := o_adjust o;
          ancestor := o_ancestor o;
          iterables := o_iterables o;
          map := Map_new <$> o_map o;
          path := o_path o;
          separator := default (SepStr ".") (o_separator o);
          type := default TValue (o_type o);
          depth := List.length (o_path o);
          key := match o_path o with
                 | [] => None
                 | _ => Some (join (o_path o) (sep_join (default (SepStr ".") (o_separator o))))
                 end;
          root := index (o_path o) 0;
          display := updateDisplay (default TValue (o_type o))
                       (default (SepStr ".") (o_separator o)) (o_ancestor o)
                       match o_path o with
                       | [] => None
                       | _ => Some (join (o_path o)
                                      (sep_join (default (SepStr ".") (o_separator o))))
                       end |}.
Proof.
  intros Hu Hs Hm Ht. unfold Ref_new. rewrite Hu, Hs. cbn [assertOptions assert bind].
  replace (negb (bool_decide (is_Some (o_map o))) || negb (bool_decide (is_Some (o_adjust o))))
    with true.
  2:{ destruct Hm as [-> | ->]; [reflexivity|]. destruct (o_map o); reflexivity. }
  cbn [assert bind].
  replace (is_value (default TValue (o_type o)) || negb (bool_decide (is_Some (o_ancestor o))))
    with true.
  2:{ destruct Ht as [-> | ->]; [reflexivity|]. destruct (default TValue (o_type o)); reflexivity. }
  reflexivity.
Qed.

(** X3. [create] on a trimmed key of [n] dots followed by a non-empty
    rest, under the default prefixes and separator and with no ancestor
    option, yields the value reference whose ancestor is the one the dots
    stand for, whose path is the rest split at the dots and whose key is
    the rest. *)
Theorem create_reads_dotted_key (options : CreateOptions) (n : nat) (rest : string) :
  plain_options options ->
  trim (repeat_string n "." +:+ rest) = repeat_string n "." +:+ rest ->
  unprefixed (repeat_string n "." +:+ rest) ->
  rest <> "" ->
  String.prefix "." rest = false ->
  create (repeat_string n "." +:+ rest) options = Ok (dotted_ref options n rest).
Proof.
  intros ((Hp & Hs) & Ha & Hu & Hma) Htrim (Hg & Hl & Hr) Hne Hdot.
  set (key := repeat_string n "." +:+ rest) in *.
  assert (Hsep : default (SepStr ".") (co_separator options) = SepStr ".").
  { destruct Hs as [-> | ->]; reflexivity. }
  assert (Hctx : context key (mkPrefix None None None) = mkContext key TValue false).
  { unfold context. cbn [or_default p_global p_local p_root]. rewrite Htrim, Hg, Hl, Hr.
    reflexivity. }
  assert (Hkey : String.eqb "." key = false).
  { apply String.eqb_neq. intros E. subst key. destruct n as [|n].
    - change (repeat_string 0 "." +:+ rest) with rest in E. subst rest. discriminate.
    - rewrite (repeat_succ n "."%char rest) in E. injection E as E.
      destruct n; [| discriminate]. apply Hne. exact (eq_sym E). }
  pose proof (ancestor_of_leading "."%char n rest Hdot) as Hanc.
  fold key in Hanc.
  unfold create. rewrite Hu, Hp, Hsep, Ha. cbn [assertOptions bind default].
  rewrite Hctx. cbn [c_type c_key c_root is_value bind sep_truthy sep_is].
  replace (negb (String.eqb "." "")) with true by reflexivity.
  rewrite Hkey. cbn [andb]. rewrite Hanc.
  assert (Hslice : match n with
                   | O => Some key
                   | _ => if String.eqb (slice_from n key) "" then None
                          else Some (slice_from n key)
                   end = Some rest).
  { destruct n as [|n]; [reflexivity|]. cbv zeta. subst key.
    rewrite (slice_from_repeat (S n) "."%char rest).
    rewrite (proj2 (String.eqb_neq rest "")) by exact Hne. reflexivity. }
  rewrite Hslice. cbn [bind sep_join].
  rewrite Ref_new_Ok; [| reflexivity | reflexivity | exact Hma | left; reflexivity].
  cbn [o_unknown o_separator o_map o_adjust o_type o_ancestor o_path o_iterables default
       from_option id sep_join].
  assert (Hjoin : match VStr <$> split rest "." with
                  | [] => None
                  | _ => Some (join (VStr <$> split rest ".") ".")
                  end = Some rest).
  { pose proof (split_nonempty rest). destruct (VStr <$> split rest ".") eqn:E;
      [contradiction|]. rewrite <- E, join_split. reflexivity. }
  rewrite Hjoin. unfold dotted_ref. do 2 f_equal.
  destruct n as [|[|[|n]]]; try reflexivity.
  cbn [leading_depth updateDisplay is_value negb sep_truthy].
  replace (negb (String.eqb "." "")) with true by reflexivity. cbn [negb].
  replace (S (S n) + 1)%nat with (S (S (S n))) by lia. reflexivity.
Qed.

Lemma X3_witness :
  create "..a.b" default_options
  = Ok {| adjust := None; ancestor := Some (AncNum 1); iterables := None; map := None;
          path := [VStr "a"; VStr "b"]; separator := SepStr "."; type := TValue;
          depth := 2; key := Some "a.b"; root := VStr "a"; display := "ref:a.b" |}.
Proof.
  apply (create_reads_dotted_key default_options 2 "a.b").
  - repeat split; auto.
  - reflexivity.
  - repeat split.
  - discriminate.
  - reflexivity.
Defined.

Lemma starts_same (c : ascii) (rest : string) :
  startsWith (String c rest) (String c "") = true.
Proof.
  unfold startsWith. cbn [String.prefix].
  destruct (Ascii.ascii_dec c c); [apply prefix_empty | contradiction].
Qed.

Lemma starts_other (c c' : ascii) (rest : string) :
  c <> c' -> startsWith (String c' rest) (String c "") = false.
Proof.
  intros H. unfold startsWith. cbn [String.prefix].
  destruct (Ascii.ascii_dec c c'); [contradiction | reflexivity].
Qed.

Lemma context_prefixed (rest : string) :
  (trim (String "$" rest) = String "$" rest ->
   context (String "$" rest) (mkPrefix None None None) = mkContext rest TGlobal false) /\
  (trim (String "#" rest) = String "#" rest ->
   context (String "#" rest) (mkPrefix None None None) = mkContext rest TLocal false) /\
  (trim (String "/" rest) = String "/" rest ->
   context (String "/" rest) (mkPrefix None None None) = mkContext rest TValue true).
Proof.
  repeat split; intros Htrim; unfold context; cbn [or_default p_global p_local p_root];
    rewrite Htrim.
  - change (or_default None "$") with "$". rewrite starts_same. reflexivity.
  - change (or_default None "$") with "$". change (or_default None "#") with "#".
    rewrite starts_other by discriminate. rewrite starts_same. reflexivity.
  - change (or_default None "$") with "$". change (or_default None "#") with "#".
    change (or_default None "/") with "/".
    rewrite !starts_other by discriminate. rewrite starts_same. reflexivity.
Qed.

Lemma split_key (rest : string) :
  match VStr <$> split rest "." with
  | [] => None
  | _ => Some (join (VStr <$> split rest ".") ".")
  end = Some rest.
Proof.
  pose proof (split_nonempty rest). destruct (VStr <$> split rest ".") eqn:E;
    [contradiction|]. rewrite <- E, join_split. reflexivity.
Qed.

(** X23. [create] on a trimmed key that starts with a default prefix:
    [$] and [#] give the global and the local reference for the rest of
    the key, with no ancestor; [/] gives the value reference anchored at
    the root, whose path is empty when nothing follows the prefix, and
    throws when a separator follows it. *)
Theorem create_reads_prefixed_key (options : CreateOptions) (rest : string) :
  plain_options options ->
  (trim (String "$" rest) = String "$" rest ->
   create (String "$" rest) options = Ok (prefixed_ref options TGlobal rest)) /\
  (trim (String "#" rest) = String "#" rest ->
   create (String "#" rest) options = Ok (prefixed_ref options TLocal rest)) /\
  (trim (String "/" rest) = String "/" rest ->
   create (String "/" rest) options
   = if String.prefix "." rest
     then Throw "Cannot specify relative path with root prefix"
     else Ok (root_ref options rest)).
Proof.
  intros ((Hp & Hs) & Ha & Hu & Hma).
  assert (Hsep : default (SepStr ".") (co_separator options) = SepStr ".").
  { destruct Hs as [-> | ->]; reflexivity. }
  destruct (context_prefixed rest) as (Hg & Hl & Hr).
  split; [| split]; intros Htrim; unfold create;
    rewrite Hu, Hp, Hsep, Ha; cbn [assertOptions bind default from_option id];
    [rewrite (Hg Htrim) | rewrite (Hl Htrim) | rewrite (Hr Htrim)].
  - cbn [c_type c_key c_root is_value bind sep_truthy sep_join].
    replace (negb (String.eqb "." "")) with true by reflexivity.
    rewrite Ref_new_Ok; [| reflexivity | reflexivity | exact Hma | right; reflexivity].
    cbn [o_unknown o_separator o_map o_adjust o_type o_ancestor o_path o_iterables default
         from_option id sep_join].
    rewrite split_key. reflexivity.
  - cbn [c_type c_key c_root is_value bind sep_truthy sep_join].
    replace (negb (String.eqb "." "")) with true by reflexivity.
    rewrite Ref_new_Ok; [| reflexivity | reflexivity | exact Hma | right; reflexivity].
    cbn [o_unknown o_separator o_map o_adjust o_type o_ancestor o_path o_iterables default
         from_option id sep_join].
    rewrite split_key. reflexivity.
  - cbn [c_type c_key c_root is_value bind sep_truthy sep_join].
    replace (negb (String.eqb "." "")) with true by reflexivity. cbn [negb orb andb].
    destruct (String.prefix "." rest) eqn:Edot.
    + apply (prefix_char "."%char) in Edot as (rest' & ->).
      rewrite char_differs_head, bool_decide_eq_true_2 by reflexivity. reflexivity.
    + rewrite (char_differs_not_prefix "."%char rest 0) by exact Edot. cbn [assert bind].
      unfold root_ref. destruct (String.eqb_spec rest "") as [->|Hne].
      * cbn [sep_is String.eqb bind assert andb orb negb].
        rewrite Ref_new_Ok; [| reflexivity | reflexivity | exact Hma | left; reflexivity].
        reflexivity.
      * assert (Hns : sep_is (SepStr ".") rest = false).
        { cbn [sep_is]. apply String.eqb_neq. intros <-. discriminate. }
        rewrite Hns. cbn [andb]. rewrite (proj2 (String.eqb_neq rest "")) by exact Hne.
        cbn [orb negb]. rewrite (char_differs_not_prefix "."%char rest 0) by exact Edot.
        cbn [assert bind sep_join].
        rewrite Ref_new_Ok; [| reflexivity | reflexivity | exact Hma | left; reflexivity].
        cbn [o_unknown o_separator o_map o_adjust o_type o_ancestor o_path o_iterables default
             from_option id sep_join].
        rewrite split_key. reflexivity.
Qed.

Lemma X23_witness :
  create "$a.b" default_options
  = Ok {| adjust := None; ancestor := None; iterables := None; map := None;
          path := [VStr "a"; VStr "b"]; separator := SepStr "."; type := TGlobal;
          depth := 2; key := Some "a.b"; root := VStr "a"; display := "ref:global:a.b" |} /\
  create "/" default_options
  = Ok {| adjust := None; ancestor := Some AncRoot; iterables := None; map := None;
          path := []; separator := SepStr "."; type := TValue;
          depth := 0; key := None; root := VUndef; display := "ref:root:null" |} /\
  create "/.a" default_options = Throw "Cannot specify relative path with root prefix".
Proof.
  assert (Hplain : plain_options default_options) by (repeat split; auto).
  split; [| split].
  - apply (proj1 (create_reads_prefixed_key default_options "a.b" Hplain)). reflexivity.
  - apply (proj2 (proj2 (create_reads_prefixed_key default_options "" Hplain))). reflexivity.
  - apply (proj2 (proj2 (create_reads_prefixed_key default_options ".a" Hplain))). reflexivity.
Defined.

(** What [create] has checked when it returns *)
Lemma create_Ok_inv (key : string) (options : CreateOptions) (r : Ref) :
  create key options = Ok r ->
  co_unknown options = [] /\
  valid_separator (Some (default (SepStr ".") (co_separator options))) = true /\
  negb (bool_decide (is_Some (co_map options)))
  || negb (bool_decide (is_Some (co_adjust options))) = true /\
  (c_type (context key (default (mkPrefix None None None) (co_prefix options))) <> TValue ->
   co_ancestor options = None).
Proof.
  unfold create. intros H.
  destruct (assertOptions (co_unknown options)) as [u|msg] eqn:Eu; [| discriminate].
  apply RefTheory.assertOptions_Ok in Eu. cbn [bind] in H.
  set (ctx := context key (default (mkPrefix None None None) (co_prefix options))) in *.
  destruct (is_value (c_type ctx)) eqn:Ev.
  - apply RefTheory.bind_Ok in H. destruct H as ([k anc] & _ & H).
    apply RefTheory.Ref_new_inv in H.
    destruct H as (_ & Hsep & Hma & _ & _).
    cbn [o_separator o_map o_adjust o_type o_ancestor default from_option id] in Hsep, Hma.
    repeat split; try assumption.
    intros Hty. destruct (c_type ctx); [contradiction | discriminate..].
  - cbn [bind] in H. apply RefTheory.Ref_new_inv in H.
    destruct H as (_ & Hsep & Hma & Hta & _).
    cbn [o_separator o_map o_adjust o_type o_ancestor default from_option id] in Hsep, Hma, Hta.
    rewrite Ev in Hta. cbn [orb] in Hta.
    repeat split; try assumption.
    intros _. destruct (co_ancestor options); [discriminate | reflexivity].
Qed.

(** X4. [create] throws for options that do not fit together: an
    unknown option key, an ancestor given for a global or local key, a
    separator that is a string of a length other than one, and [map]
    together with [adjust]. *)
Theorem create_rejects_inconsistent_options (key : string) (options : CreateOptions) :
  (co_unknown options <> [] -> throws (create key options)) /\
  (c_type (context key (default (mkPrefix None None None) (co_prefix options))) <> TValue ->
   is_Some (co_ancestor options) -> throws (create key options)) /\
  (forall s, co_separator options = Some (SepStr s) -> String.length s <> 1%nat ->
     throws (create key options)) /\
  (is_Some (co_map options) -> is_Some (co_adjust options) -> throws (create key options)).
Proof.
  unfold throws.
  destruct (create key options) as [r|msg] eqn:E; [| repeat split; eauto].
  destruct (create_Ok_inv key options r E) as (Hu & Hsep & Hma & Hanc).
  split; [| split; [| split]].
  - intros H. contradiction.
  - intros Hty [a Ha]. rewrite (Hanc Hty) in Ha. discriminate.
  - intros s Hs Hlen. rewrite Hs in Hsep. cbn in Hsep.
    apply Nat.eqb_eq in Hsep. contradiction.
  - intros [m Hm] [f Hf]. rewrite Hm, Hf in Hma. discriminate.
Qed.

(** ** [clone] *)

(** X5. [clone] of a reference made by [create] or [build] returns an
    equal reference when the reference has no map, and throws when it has
    one: the constructor is handed the [Map] where it expects an array. *)
Theorem clone_copies_unless_mapped (r : Ref) :
  produced r ->
  (map r = None -> clone r = Ok r) /\
  (is_Some (map r) -> clone r = Throw "options.map must be an array").
Proof.
  intros Hp.
  assert (Hnew : exists o, Ref_new o = Ok r).
  { destruct Hp as [(key & options & H) | (desc & H)].
    - destruct (RefTheory.create_constructed _ _ _ H) as (o & Ho & _). eauto.
    - destruct (RefTheory.build_constructed _ _ H) as (o & Ho & _). eauto. }
  destruct Hnew as (o & Ho).
  destruct (RefTheory.Ref_new_inv o r Ho) as (_ & Hsep & _ & Hta & Hr).
  apply RefTheory.valid_separator_default in Hsep.
  unfold clone. subst r.
  cbn [separator map type ancestor path adjust iterables]. rewrite Hsep. cbn [assert bind].
  split.
  - intros Hm. rewrite Hm. cbn [bool_decide negb assert bind]. rewrite Hta.
    replace (negb (bool_decide (is_Some (@None entries)))) with true by reflexivity.
    cbn [assert bind]. reflexivity.
  - intros [m Hm]. rewrite Hm. reflexivity.
Qed.

Lemma X5_witness :
  clone ref_grandparent_x = Ok ref_grandparent_x /\
  clone ref_with_map = Throw "options.map must be an array".
Proof.
  split.
  - apply (clone_copies_unless_mapped ref_grandparent_x); [| reflexivity].
    left. exists "...x", default_options. reflexivity.
  - apply (clone_copies_unless_mapped ref_with_map); [| eexists; reflexivity].
    left. exists "a", options_with_map. reflexivity.
Defined.

End RefMethodsTheory.

(* ===================================================================== *)
(** * Properties of the reference manager *)
(* ===================================================================== *)

Module ManagerTheory.
Import Js Ref Manager.

(** Induction over sources, with the hypothesis for every element of an
    array *)
Lemma Source_nested_ind (P : Source -> Prop) :
  P SFalsy ->
  (forall items, Forall P items -> P (SArray items)) ->
  (forall refs, P (SSchema refs)) ->
  (forall r, P (SRef r)) ->
  (forall items, Forall P items -> P (STemplate items)) ->
  P SOther ->
  forall s, P s.
Proof.
  intros HF HA HS HR HT HO. fix IH 1. intros [|items|refs|r|items|].
  - exact HF.
  - apply HA. induction items as [|x items IHl]; constructor; [apply IH | exact IHl].
  - apply HS.
  - apply HR.
  - apply HT. induction items as [|x items IHl]; constructor; [apply IH | exact IHl].
  - exact HO.
Qed.

Lemma push_entry_lift refs a root target :
  push_entry refs a root target = refs ++ option_list (lift target (mkEntry a root)).
Proof.
  unfold push_entry, lift. simpl. destruct (target <=? a)%nat; simpl;
    [reflexivity | symmetry; apply app_nil_r].
Qed.

(** [register] appends to the manager the entries of the source that
    reach the target, each seen from there, in order. *)
Lemma register_deps (source : Source) : forall (refs : list Entry) (target : nat),
  register refs source target = refs ++ omap (lift target) (deps source).
Proof.
  induction source as [|items IH|items|r|items IH|] using Source_nested_ind;
    intros refs target; simpl; try (symmetry; apply app_nil_r).
  - revert refs. induction IH as [|x items Hx _ IHl]; intros refs.
    + symmetry. apply app_nil_r.
    + rewrite IHl, Hx, omap_app, app_assoc. reflexivity.
  - revert refs. induction items as [|e items IHl]; intros refs; simpl.
    + symmetry. apply app_nil_r.
    + rewrite IHl, push_entry_lift. destruct e as [a root]. simpl.
      destruct (lift target (mkEntry a root)); simpl; rewrite <- app_assoc; reflexivity.
  - destruct (is_value (type r)); [| symmetry; apply app_nil_r].
    destruct (ancestor r) as [[|n]|]; try (symmetry; apply app_nil_r).
    rewrite push_entry_lift. simpl. destruct (lift target _); reflexivity.
  - revert refs. induction IH as [|x items Hx _ IHl]; intros refs.
    + symmetry. apply app_nil_r.
    + rewrite IHl, Hx, omap_app, app_assoc. reflexivity.
Qed.

Lemma lift_lift (t1 t2 : nat) (e : Entry) :
  lift t1 e ≫= lift t2 = lift (t1 + t2) e.
Proof.
  unfold lift. destruct e as [a root]. simpl.
  destruct (t1 <=? a)%nat eqn:E1; simpl.
  - destruct (t2 <=? a - t1)%nat eqn:E2; destruct (t1 + t2 <=? a)%nat eqn:E3;
      try apply Nat.leb_le in E1; try apply Nat.leb_le in E2; try apply Nat.leb_le in E3;
      try apply Nat.leb_gt in E2; try apply Nat.leb_gt in E3; try lia.
    + do 2 f_equal. lia.
    + reflexivity.
  - destruct (t1 + t2 <=? a)%nat eqn:E3; [| reflexivity].
    apply Nat.leb_gt in E1. apply Nat.leb_le in E3. lia.
Qed.

(** X6. Registering a schema whose own manager was filled from a source
    at [t1] levels, at [t2] levels, is registering the source at
    [t1 + t2] levels. *)
Theorem register_through_schema (refs : list Entry) (source : Source) (t1 t2 : nat) :
  register refs (SSchema (register [] source t1)) t2 = register refs source (t1 + t2).
Proof.
  rewrite (register_deps (SSchema _)), !register_deps. simpl. f_equal.
  induction (deps source) as [|e l IH]; [reflexivity|].
  cbn [omap list_omap]. rewrite <- lift_lift.
  destruct (lift t1 e) as [e'|]; cbn [omap list_omap mbind option_bind]; [| exact IH].
  destruct (lift t2 e'); [f_equal |]; exact IH.
Qed.

(** X7. After registering a source in an empty manager at [target]
    levels, [roots] lists the roots of the references of the source whose
    depth is exactly [target], in order, and [length] counts those whose
    depth is at least [target]; references to the root, global and local
    references are never registered. *)
Theorem register_roots (source : Source) (target : nat) :
  roots (register [] source target)
  = e_root <$> List.filter (fun e => Nat.eqb (e_ancestor e) target) (deps source) /\
  length (register [] source target)
  = List.length (List.filter (fun e => (target <=? e_ancestor e)%nat) (deps source)) /\
  forall r refs,
    (type r <> TValue \/ ancestor r = Some AncRoot \/ ancestor r = None) ->
    register refs (SRef r) target = refs.
Proof.
  rewrite register_deps. simpl. split; [| split].
  - unfold roots. induction (deps source) as [|[a root] l IH]; [reflexivity|].
    cbn [omap list_omap List.filter e_ancestor]. unfold lift at 1. cbn [e_ancestor e_root].
    destruct (target <=? a)%nat eqn:E.
    + apply Nat.leb_le in E. cbn [List.filter e_ancestor].
      replace (a - target =? 0)%nat with (a =? target)%nat
        by (destruct (Nat.eqb_spec a target), (Nat.eqb_spec (a - target) 0); lia).
      destruct (a =? target)%nat; [cbn [fmap list_fmap e_root]; f_equal |]; exact IH.
    + apply Nat.leb_gt in E. destruct (a =? target)%nat eqn:E2; [| exact IH].
      apply Nat.eqb_eq in E2. lia.
  - unfold length. induction (deps source) as [|[a root] l IH]; [reflexivity|].
    cbn [omap list_omap List.filter e_ancestor]. unfold lift at 1. cbn [e_ancestor e_root].
    destruct (target <=? a)%nat; [cbn [List.length]; f_equal |]; exact IH.
  - intros r refs H. simpl. destruct (type r); destruct H as [H | [H | H]];
      try congruence; try rewrite H; reflexivity.
Qed.

End ManagerTheory.

(* ===================================================================== *)
(** * Properties of the alternatives builders and of the validate hook *)
(* ===================================================================== *)

Module AlternativesChain.
Import Js Schema Alternatives AlternativesBuild.

Lemma schema_eta (s : Schema) :
  mkSchema (type s) (flags s) (rules s) (matches s) (replacements s) = s.
Proof. destruct s. reflexivity. Qed.

Lemma rebuild_spec (s : Schema) :
  mutateRebuild s = if has_array (matches s) then array_flagged s else s.
Proof. reflexivity. Qed.

Lemma array_flagged_idem (s : Schema) : array_flagged (array_flagged s) = array_flagged s.
Proof. destruct s as [t [a b c d e f] r m p]. reflexivity. Qed.

Section Chain.

Variable compile : Like -> result Schema.
Variable compile_ref : Condition -> result Ref.Ref.
Variable required : Schema -> Schema.

(** ** [try] *)

Lemma try_push_app (l1 l2 : list Like) : forall obj,
  try_push compile obj (l1 ++ l2)
  = let! o := try_push compile obj l1 in try_push compile o l2.
Proof.
  induction l1 as [|x l1 IH]; intros obj; simpl; [reflexivity|].
  destruct (compile x) as [c|msg]; simpl; [apply IH | reflexivity].
Qed.

(** The loop of [try] adds entries and leaves the rest of the node alone. *)
Lemma try_push_inv (l : list Like) : forall obj o,
  try_push compile obj l = Ok o ->
  exists ms, o = set_matches obj (matches obj ++ ms) /\ forallb tried ms = true.
Proof.
  induction l as [|x l IH]; intros obj o; simpl.
  - intros [= <-]. exists []. rewrite app_nil_r. destruct obj; auto.
  - destruct (compile x) as [c|msg]; simpl; [| discriminate].
    intros H. destruct (IH _ _ H) as (ms & -> & Hms).
    exists (mkMatch (Some c) None None None None None :: ms). split.
    + destruct obj. simpl. rewrite <- app_assoc. reflexivity.
    + simpl. exact Hms.
Qed.

Lemma try_push_flagged (l : list Like) : forall obj,
  try_push compile (array_flagged obj) l
  = let! o := try_push compile obj l in Ok (array_flagged o).
Proof.
  induction l as [|x l IH]; intros obj; simpl; [reflexivity|].
  destruct (compile x) as [c|msg]; simpl; [| reflexivity].
  rewrite <- IH. destruct obj. reflexivity.
Qed.

Lemma has_array_app (a b : list Match) : has_array (a ++ b) = has_array a || has_array b.
Proof. apply existsb_app. Qed.

(** Running the [rebuild] hook before more entries are added changes
    nothing once it has run after them. *)
Lemma rebuild_absorbed (o o' : Schema) (ms : list Match) :
  o' = set_matches o (matches o ++ ms) ->
  mutateRebuild
    (if has_array (matches o) then array_flagged o' else o') = mutateRebuild o'.
Proof.
  intros ->. rewrite !rebuild_spec.
  destruct (has_array (matches o)) eqn:E; [| reflexivity].
  destruct o as [t f r m p]. simpl in *. rewrite has_array_app, E. simpl.
  destruct f. reflexivity.
Qed.

(** X8. Two [try] calls in a row are one call with the two lists joined:
    [try(a).try(b)] is [try([...a, ...b])], also in what is thrown. *)
Theorem try_composes (this : Schema) (l1 l2 : list Like) :
  (let! s := try compile this (TryMany l1) in try compile s (TryMany l2))
  = try compile this (TryMany (l1 ++ l2)).
Proof.
  unfold try. cbn [assert bind].
  destruct (default false (f_endedSwitch (flags this))) eqn:Eend; cbn [negb assert bind];
    [reflexivity|].
  rewrite try_push_app.
  destruct (try_push compile this l1) as [o1|msg] eqn:E1; cbn [bind]; [| reflexivity].
  destruct (try_push_inv _ _ _ E1) as (ms1 & Ho1 & _).
  assert (Hend : default false (f_endedSwitch (flags (mutateRebuild o1))) = false).
  { rewrite rebuild_spec. subst o1. destruct this as [t f r m p]. simpl in *.
    destruct (has_array (m ++ ms1)); simpl; [destruct f|]; exact Eend. }
  rewrite Hend. cbn [negb assert bind].
  rewrite rebuild_spec. destruct (has_array (matches o1)) eqn:Ea.
  - rewrite try_push_flagged.
    destruct (try_push compile o1 l2) as [o2|msg] eqn:E2; cbn [bind]; [| reflexivity].
    destruct (try_push_inv _ _ _ E2) as (ms2 & Ho2 & _). f_equal.
    rewrite <- (rebuild_absorbed o1 o2 ms2 Ho2), Ea. reflexivity.
  - reflexivity.
Qed.

(** ** [when] *)

Lemma rebuild_absorbs (o o' : Schema) (ms : list Match) :
  matches o' = matches o ++ ms ->
  mutateRebuild (if has_array (matches o) then array_flagged o' else o') = mutateRebuild o'.
Proof.
  intros Hm. rewrite !rebuild_spec.
  destruct (has_array (matches o)) eqn:E; [| reflexivity].
  assert (Ha : has_array (matches o') = true) by (rewrite Hm, has_array_app, E; reflexivity).
  replace (matches (array_flagged o')) with (matches o') by (destruct o'; reflexivity).
  rewrite Ha. apply array_flagged_idem.
Qed.

Lemma normalize_flagged (obj : Schema) (c : Condition) (st : Settings) :
  normalize compile compile_ref required (array_flagged obj) c st
  = let! io := normalize compile compile_ref required obj c st in
    Ok (fst io, array_flagged (snd io)).
Proof.
  unfold normalize.
  destruct (match c with CondSchema _ => Ok None | _ => _ end) as [ref|msg]; cbn [bind];
    [| reflexivity].
  destruct (compile_opt compile (s_then st)) as [t|msg]; cbn [bind]; [| reflexivity].
  destruct (compile_opt compile (s_otherwise st)) as [o|msg]; cbn [bind]; [| reflexivity].
  destruct (if defined (s_is st) then _ else _) as [i|msg]; cbn [bind]; [| reflexivity].
  destruct t, o; destruct obj as [ty [a b c0 d e f] r m p]; reflexivity.
Qed.

Lemma normalize_inv (obj : Schema) (c : Condition) (st : Settings) item o :
  normalize compile compile_ref required obj c st = Ok (item, o) ->
  type o = type obj /\ rules o = rules obj /\ matches o = matches obj /\
  replacements o = replacements obj /\
  m_schema item = None /\
  (o = obj \/ (o = Base.setFlag obj (fun f => Base.with_endedSwitch f true) /\
               complete item = true)) /\
  (defined (s_then st) = true -> is_Some (m_then item)) /\
  (s_otherwise st = None -> o = obj).
Proof.
  unfold normalize.
  destruct (match c with CondSchema _ => Ok None | _ => _ end) as [ref|msg]; cbn [bind];
    [| discriminate].
  unfold compile_opt at 1.
  destruct (defined (s_then st)) eqn:Dt.
  - destruct (s_then st) as [y|] eqn:Et; [| discriminate].
    destruct (compile y) as [t|msg]; cbn [bind]; [| discriminate].
    destruct (compile_opt compile (s_otherwise st)) as [ot|msg] eqn:Eo; cbn [bind];
      [| discriminate].
    destruct (if defined (s_is st) then _ else _) as [i|msg]; cbn [bind]; [| discriminate].
    intros [= <- <-]. destruct ot as [ow|]; destruct obj; simpl;
      repeat split; eauto.
    intros Hn. rewrite Hn in Eo. discriminate.
  - cbn [bind].
    destruct (compile_opt compile (s_otherwise st)) as [ot|msg] eqn:Eo; cbn [bind];
      [| discriminate].
    destruct (if defined (s_is st) then _ else _) as [i|msg]; cbn [bind]; [| discriminate].
    intros [= <- <-]. destruct obj; simpl; repeat split; auto; discriminate.
Qed.

Lemma push_flagged (obj : Schema) (item : Match) :
  push (array_flagged obj) item = array_flagged (push obj item).
Proof. destruct obj. reflexivity. Qed.

Lemma when_switch_flagged (c : Condition) (options : WhenOptions) (cases : list Case) :
  forall obj,
  when_switch compile compile_ref required (array_flagged obj) c options cases
  = let! o := when_switch compile compile_ref required obj c options cases in
    Ok (array_flagged o).
Proof.
  induction cases as [|test rest IH]; intros obj; [reflexivity|].
  cbn [when_switch].
  destruct (assert (defined (t_is test)) _); cbn [bind]; [| reflexivity].
  destruct (assert (defined (t_then test)) _); cbn [bind]; [| reflexivity].
  destruct rest as [|test' rest'].
  - destruct (Ref.assertOptions _); cbn [bind]; [| reflexivity].
    destruct (assert _ _); cbn [bind]; [| reflexivity].
    rewrite normalize_flagged.
    destruct (normalize _ _ _ obj c _) as [[item o]|msg]; cbn [bind fst snd]; [| reflexivity].
    rewrite push_flagged. reflexivity.
  - destruct (Ref.assertOptions _); cbn [bind]; [| reflexivity].
    rewrite normalize_flagged.
    destruct (normalize _ _ _ obj c _) as [[item o]|msg]; cbn [bind fst snd]; [| reflexivity].
    rewrite push_flagged. apply IH.
Qed.

Lemma when_switch_matches (c : Condition) (options : WhenOptions) (cases : list Case) :
  forall obj o,
  when_switch compile compile_ref required obj c options cases = Ok o ->
  exists ms, matches o = matches obj ++ ms.
Proof.
  induction cases as [|test rest IH]; intros obj o.
  - intros [= <-]. exists []. symmetry. apply app_nil_r.
  - cbn [when_switch].
    destruct (assert (defined (t_is test)) _); cbn [bind]; [| discriminate].
    destruct (assert (defined (t_then test)) _); cbn [bind]; [| discriminate].
    destruct rest as [|test' rest'].
    + destruct (Ref.assertOptions _); cbn [bind]; [| discriminate].
      destruct (assert _ _); cbn [bind]; [| discriminate].
      destruct (normalize _ _ _ obj c _) as [[item o']|msg] eqn:En; cbn [bind fst snd];
        [| discriminate].
      intros [= <-]. destruct (normalize_inv _ _ _ _ _ En) as (_ & _ & Hm & _).
      exists [item]. destruct o'. simpl in *. congruence.
    + destruct (Ref.assertOptions _); cbn [bind]; [| discriminate].
      destruct (normalize _ _ _ obj c _) as [[item o']|msg] eqn:En; cbn [bind fst snd];
        [| discriminate].
      intros H. destruct (IH _ _ H) as (ms & Hms).
      destruct (normalize_inv _ _ _ _ _ En) as (_ & _ & Hm & _).
      exists (item :: ms). rewrite Hms. destruct o'. simpl in *. subst.
      rewrite <- app_assoc. reflexivity.
Qed.

Lemma when_switch_options (c : Condition) (o1 o2 : WhenOptions) (cases : list Case) :
  w_otherwise o1 = w_otherwise o2 ->
  forall obj,
  when_switch compile compile_ref required obj c o1 cases
  = when_switch compile compile_ref required obj c o2 cases.
Proof.
  intros Ho. induction cases as [|test rest IH]; intros obj; [reflexivity|].
  cbn [when_switch]. rewrite Ho.
  destruct (assert (defined (t_is test)) _); cbn [bind]; [| reflexivity].
  destruct (assert (defined (t_then test)) _); cbn [bind]; [| reflexivity].
  destruct rest as [|test' rest']; [reflexivity|].
  destruct (Ref.assertOptions _); cbn [bind]; [| reflexivity].
  destruct (normalize _ _ _ obj c _) as [[item o]|msg]; cbn [bind fst snd]; [| reflexivity].
  apply IH.
Qed.

Lemma when_switch_step (obj : Schema) (c : Condition) (options : WhenOptions)
    (test test' : Case) (rest : list Case) :
  defined (t_is test) = true -> defined (t_then test) = true ->
  t_unknown test = [] -> t_otherwise test = None ->
  when_switch compile compile_ref required obj c options (test :: test' :: rest)
  = let! io := normalize compile compile_ref required obj c
                 (mkSettings (t_is test) (t_then test) None) in
    when_switch compile compile_ref required (push (snd io) (fst io)) c options
      (test' :: rest).
Proof.
  intros Hi Ht Hu Ho.
  change (when_switch compile compile_ref required obj c options (test :: test' :: rest))
    with (let! _ := assert (defined (t_is test))
                      ("Switch statement missing " +:+ quoted "is") in
          let! _ := assert (defined (t_then test))
                      ("Switch statement missing " +:+ quoted "then") in
          let! _ := Ref.assertOptions
                      (match t_otherwise test with
                       | Some _ => "otherwise" :: t_unknown test
                       | None => t_unknown test
                       end) in
          let! io := normalize compile compile_ref required obj c
                       (mkSettings (t_is test) (t_then test) (t_otherwise test)) in
          when_switch compile compile_ref required (push (snd io) (fst io)) c options
            (test' :: rest)).
  rewrite Hi, Ht, Ho, Hu. reflexivity.
Qed.

(** X9. A switch is the chain of its cases: [when(c, [t])] is
    [when(c, t)], and [when(c, [t, ...rest])] is [when(c, t)] followed by
    [when(c, rest)], also in what is thrown. The condition is a reference
    or a key, and the case has [is] and [then] and no other key. *)
Theorem switch_is_chain (this : Schema) (condition : Condition) (test : Case) :
  isSchema condition = false ->
  defined (t_is test) = true -> defined (t_then test) = true -> t_unknown test = [] ->
  when compile compile_ref required this condition (WhenArray [test])
  = when compile compile_ref required this condition
      (WhenObject (mkWhenOptions (t_is test) (t_then test) (t_otherwise test) None [])) /\
  forall test' rest,
    t_otherwise test = None ->
    when compile compile_ref required this condition (WhenArray (test :: test' :: rest))
    = let! s := when compile compile_ref required this condition
                  (WhenObject (mkWhenOptions (t_is test) (t_then test) None None [])) in
      when compile compile_ref required s condition (WhenArray (test' :: rest)).
Proof.
  intros Hc Hi Ht Hu. split.
  - unfold when. cbn [when_options w_unknown w_switch w_is w_then w_otherwise
                      switch_truthy switch_defined defined Ref.assertOptions bind].
    rewrite Hc, Hi, Ht.
    destruct (assert (negb (default false (f_endedSwitch (flags this)))) _); cbn [bind];
      [| reflexivity].
    destruct (assert (match condition with CondOther _ => false | _ => true end) _);
      cbn [bind]; [| reflexivity].
    cbn [negb orb andb assert bind when_switch]. rewrite Hi, Ht, Hu.
    cbn [assert bind Ref.assertOptions negb orb].
    destruct (normalize _ _ _ this condition _) as [[item o]|msg]; reflexivity.
  - intros test' rest Ho. unfold when.
    cbn [when_options w_unknown w_switch w_is w_then w_otherwise
         switch_truthy switch_defined defined Ref.assertOptions bind].
    rewrite Hc, Hi, Ht.
    destruct (assert (negb (default false (f_endedSwitch (flags this)))) _) eqn:Eend;
      cbn [bind]; [| reflexivity].
    destruct (assert (match condition with CondOther _ => false | _ => true end) _) eqn:Eco;
      cbn [bind]; [| reflexivity].
    cbn [negb orb andb assert bind].
    rewrite (when_switch_step this condition _ test test' rest Hi Ht Hu Ho).
    destruct (normalize _ _ _ this condition _) as [[item o]|msg] eqn:En;
      cbn [bind fst snd]; [| reflexivity].
    destruct (normalize_inv _ _ _ _ _ En) as (_ & _ & Hm & _ & _ & _ & _ & Hsame).
    specialize (Hsame eq_refl). subst o.
    assert (Hflags : flags (mutateRebuild (push this item)) = flags (push this item)
                     \/ flags (mutateRebuild (push this item))
                        = Base.with_arrayItems (flags (push this item)) true).
    { rewrite rebuild_spec. destruct (has_array _); [right | left]; [| reflexivity].
      destruct this; reflexivity. }
    assert (Hend : assert (negb (default false
                     (f_endedSwitch (flags (mutateRebuild (push this item))))))
                     "Unreachable condition" = Ok tt).
    { destruct this as [ty ff r m p]. destruct ff. simpl in Eend, Hflags.
      destruct a. destruct Hflags as [-> | ->]; exact Eend. }
    cbn [when_options w_unknown w_switch w_is w_then w_otherwise
         switch_truthy switch_defined defined Ref.assertOptions bind].
    rewrite Hend. cbn [bind]. try rewrite Eco. try rewrite Hc. cbn [negb orb andb assert bind].
    rewrite rebuild_spec.
    set (X := push this item).
    set (o1 := mkWhenOptions None None None (Some (SwitchArray (test :: test' :: rest))) []).
    set (o2 := mkWhenOptions None None None (Some (SwitchArray (test' :: rest))) []).
    rewrite (when_switch_options condition o1 o2 (test' :: rest) eq_refl).
    destruct (has_array (matches X)) eqn:Ea; [| reflexivity].
    rewrite when_switch_flagged.
    destruct (when_switch _ _ _ X condition o2 (test' :: rest)) as [ow|msg] eqn:E2;
      cbn [bind]; [| reflexivity].
    destruct (when_switch_matches _ _ _ _ _ E2) as (ms & Hms). f_equal.
    rewrite <- (rebuild_absorbs X ow ms Hms), Ea. reflexivity.
Qed.

(** ** The [build] hook *)

Lemma compile_opt_schema (o : option Schema) :
  (forall s, compile (LSchema s) = Ok s) ->
  compile_opt compile (LSchema <$> o) = Ok o.
Proof. intros Hc. destruct o as [s|]; [| reflexivity]. unfold compile_opt. cbn [fmap option_fmap option_map defined]. rewrite Hc. reflexivity. Qed.

Lemma built_one (obj : Schema) (m : Match) :
  built obj [m]
  = mutateRebuild
      (push (if complete m then Base.setFlag obj (fun f => Base.with_endedSwitch f true)
             else obj) m).
Proof.
  rewrite rebuild_spec. unfold built. cbn [last].
  destruct (complete m); destruct obj as [ty ff r ms p]; reflexivity.
Qed.

(** One entry of a description is put back by one call. *)
Lemma build_step_built (obj : Schema) (m : Match) :
  (forall s, compile (LSchema s) = Ok s) ->
  (forall r, compile_ref (CondRef r) = Ok r) ->
  tried m || conditional m = true ->
  default false (f_endedSwitch (flags obj)) = false ->
  build_step compile compile_ref required obj m = Ok (built obj [m]).
Proof.
  intros Hcs Hcr Hm Hend. rewrite built_one.
  destruct m as [[s|] [r|] [p|] [i|] t o]; simpl in Hm; try discriminate.
  - (* try *)
    destruct t, o; try discriminate.
    unfold build_step, try. cbn [m_schema like_truthy assert bind].
    rewrite Hend. cbn [negb assert bind try_push]. rewrite Hcs. reflexivity.
  - (* when, with a reference *)
    unfold build_step, when, condition_of.
    cbn [m_schema m_ref m_peek m_is m_then m_otherwise when_options w_unknown w_switch w_is
         w_then w_otherwise switch_truthy switch_defined isSchema fmap option_fmap option_map
         defined Ref.assertOptions bind].
    rewrite Hend. cbn [negb orb andb assert bind].
    assert (Hd : forall x : option Schema,
               defined (LSchema <$> x) = bool_decide (is_Some x)).
    { intros [x|]; [symmetry; apply bool_decide_eq_true; eauto|].
      symmetry. apply bool_decide_eq_false. intros [? ?]. discriminate. }
    rewrite !Hd, Hm. cbn [assert bind].
    unfold normalize. rewrite Hcr. cbn [bind s_then s_otherwise s_is defined].
    rewrite !compile_opt_schema by exact Hcs. cbn [bind]. rewrite Hcs. cbn [bind fst snd].
    destruct t, o; reflexivity.
  - (* when, with a schema to peek at *)
    unfold build_step, when, condition_of.
    cbn [m_schema m_ref m_peek m_is m_then m_otherwise when_options w_unknown w_switch w_is
         w_then w_otherwise switch_truthy switch_defined isSchema fmap option_fmap option_map
         defined Ref.assertOptions bind].
    rewrite Hend. cbn [negb orb andb assert bind].
    assert (Hd : forall x : option Schema,
               defined (LSchema <$> x) = bool_decide (is_Some x)).
    { intros [x|]; [symmetry; apply bool_decide_eq_true; eauto|].
      symmetry. apply bool_decide_eq_false. intros [? ?]. discriminate. }
    rewrite !Hd, Hm. cbn [assert bind].
    unfold normalize. cbn [bind s_then s_otherwise s_is defined].
    rewrite !compile_opt_schema by exact Hcs. cbn [bind fst snd].
    destruct t, o; reflexivity.
Qed.

Lemma built_nil (obj : Schema) : mutateRebuild obj = obj -> built obj [] = obj.
Proof.
  intros H. unfold built. cbn [last]. rewrite app_nil_r, schema_eta.
  rewrite rebuild_spec in H. exact H.
Qed.

Lemma built_cons (obj : Schema) (m : Match) (rest : list Match) :
  complete m = false -> rest <> [] ->
  built (built obj [m]) rest = built obj (m :: rest).
Proof.
  intros Hm Hrest.
  assert (Hl : last (m :: rest) = last rest) by (destruct rest; [congruence | reflexivity]).
  assert (Ha : has_array (matches obj ++ m :: rest)
               = has_array (matches obj ++ [m]) || has_array rest).
  { change (m :: rest) with ([m] ++ rest). rewrite app_assoc. apply has_array_app. }
  unfold built at 2 3. rewrite Hl, Ha. cbn [last]. rewrite Hm.
  destruct obj as [ty ff r ms p]. cbn [type flags rules matches replacements].
  unfold built.
  destruct (has_array (ms ++ [m])) eqn:Ea;
    cbn [array_flagged set_flags type flags rules matches replacements];
    rewrite has_array_app, Ea, <- app_assoc; cbn [app orb].
  - destruct (last rest) as [l|]; [destruct (complete l)|]; destruct ff; reflexivity.
  - reflexivity.
Qed.

Lemma built_rebuilt (obj : Schema) (ms : list Match) :
  mutateRebuild (built obj ms) = built obj ms.
Proof.
  rewrite rebuild_spec. unfold built.
  destruct obj as [ty ff r m p]. cbn [type flags rules matches replacements].
  destruct (has_array (m ++ ms)) eqn:Ea.
  - cbn [array_flagged set_flags matches]. rewrite Ea. apply array_flagged_idem.
  - cbn [matches]. rewrite Ea. reflexivity.
Qed.

Lemma built_open (obj : Schema) (m : Match) :
  complete m = false ->
  default false (f_endedSwitch (flags obj)) = false ->
  default false (f_endedSwitch (flags (built obj [m]))) = false.
Proof.
  intros Hm He. unfold built. cbn [last]. rewrite Hm.
  destruct obj as [ty ff r ms p]. destruct ff. cbn [type flags rules matches replacements] in *.
  destruct (has_array _); exact He.
Qed.

Lemma build_built (ms : list Match) : forall (obj : Schema),
  (forall s, compile (LSchema s) = Ok s) ->
  (forall r, compile_ref (CondRef r) = Ok r) ->
  buildable ms = true ->
  default false (f_endedSwitch (flags obj)) = false ->
  mutateRebuild obj = obj ->
  build compile compile_ref required obj ms = Ok (built obj ms).
Proof.
  intros obj Hcs Hcr. revert obj.
  induction ms as [|m rest IH]; intros obj Hb Hend Hre.
  - simpl. rewrite built_nil by exact Hre. reflexivity.
  - cbn [buildable] in Hb. apply andb_prop in Hb as [Hb Hrest]. apply andb_prop in Hb as [Hs Hc].
    cbn [build]. rewrite (build_step_built obj m Hcs Hcr Hs Hend). cbn [bind].
    destruct rest as [|m' rest']; [reflexivity|].
    destruct (complete m) eqn:Em; [discriminate|].
    rewrite IH; [| exact Hrest | apply built_open; assumption | apply built_rebuilt].
    rewrite built_cons; [reflexivity | exact Em | discriminate].
Qed.

(** X12. The [build] hook puts a description back: for a list of
    entries as [try] and [when] leave them, replayed on a node that is
    still open, the node returned holds the entries of the receiver
    followed by the given ones, unchanged and in order, with
    [_endedSwitch] set when the last entry has both branches. *)
Theorem build_replays (ms : list Match) (obj : Schema) :
  (forall s, compile (LSchema s) = Ok s) ->
  (forall r, compile_ref (CondRef r) = Ok r) ->
  buildable ms = true ->
  default false (f_endedSwitch (flags obj)) = false ->
  mutateRebuild obj = obj ->
  build compile compile_ref required obj ms = Ok (built obj ms) /\
  matches (built obj ms) = matches obj ++ ms.
Proof.
  intros Hcs Hcr Hb Hend Hre. split; [apply build_built; assumption|].
  unfold built. destruct (has_array _); destruct obj; reflexivity.
Qed.

(** ** Every schema made by the builders is rebuilt from its entries *)

Lemma complete_tried (m : Match) : tried m = true -> complete m = false.
Proof. destruct m as [[s|] r p i t o]; [reflexivity | discriminate]. Qed.

Lemma buildable_tried (ms : list Match) : forallb tried ms = true -> buildable ms = true.
Proof.
  induction ms as [|m ms IH]; [reflexivity|]. cbn [forallb buildable].
  intros H. apply andb_prop in H as [H1 H2].
  rewrite H1, (complete_tried m H1), (IH H2). reflexivity.
Qed.

(** Entries none of which is complete can be followed by more. *)
Lemma buildable_app (a b : list Match) :
  buildable a = true -> forallb (fun m => negb (complete m)) a = true ->
  buildable b = true -> buildable (a ++ b) = true.
Proof.
  intros Ha Hn Hb. induction a as [|m a IH]; [exact Hb|].
  cbn [app buildable forallb] in *.
  apply andb_prop in Ha as [Ha Ha']. apply andb_prop in Ha as [Hs _].
  apply andb_prop in Hn as [Hm Hn]. rewrite Hs, Hm, (IH Ha' Hn). reflexivity.
Qed.

Lemma buildable_open (ms : list Match) :
  buildable ms = true ->
  match last ms with Some m => complete m = false | None => True end ->
  forallb (fun m => negb (complete m)) ms = true.
Proof.
  induction ms as [|m ms IH]; [reflexivity|]. cbn [buildable forallb].
  intros H Hl. apply andb_prop in H as [H Hb]. apply andb_prop in H as [_ Hc].
  destruct ms as [|m' ms'].
  - cbn [last] in Hl. rewrite Hl. reflexivity.
  - destruct (complete m); [discriminate|]. cbn [negb andb]. apply IH; [exact Hb | exact Hl].
Qed.

Lemma built_flags_open (obj : Schema) (ms : list Match) :
  f_endedSwitch (flags obj) = None ->
  default false (f_endedSwitch (flags (built obj ms))) = false ->
  match last ms with Some m => complete m = false | None => True end.
Proof.
  intros Hobj. unfold built. destruct (last ms) as [m|]; [| auto].
  destruct (complete m); [| auto].
  destruct obj as [ty ff r ms0 p]. destruct ff. cbn in Hobj. subst.
  cbn [type flags rules matches replacements]. destruct (has_array _); discriminate.
Qed.

(** Adding entries to what the builders left for earlier ones *)
Lemma built_app (obj : Schema) (a b : list Match) :
  forallb (fun m => negb (complete m)) a = true ->
  mutateRebuild
    (let o := built obj a in
     mkSchema (type o)
       (match last b with
        | Some m => if complete m then Base.with_endedSwitch (flags o) true else flags o
        | None => flags o
        end)
       (rules o) (matches o ++ b) (replacements o))
  = built obj (a ++ b).
Proof.
  intros Ha. rewrite rebuild_spec. cbv zeta.
  assert (Hlast : match last a with Some m => complete m = false | None => True end).
  { clear -Ha. induction a as [|m a IH]; [exact I|]. cbn [forallb] in Ha.
    apply andb_prop in Ha as [Hm Ha]. destruct a as [|m' a']; [| apply IH, Ha].
    cbn [last]. destruct (complete m); [discriminate | reflexivity]. }
  unfold built.
  assert (Hl : last (a ++ b) = match last b with Some m => Some m | None => last a end).
  { destruct b as [|x b] using rev_ind; [rewrite app_nil_r; reflexivity|].
    rewrite app_assoc, !last_snoc. reflexivity. }
  rewrite Hl. destruct obj as [ty ff r ms p]. cbn [type flags rules matches replacements].
  rewrite (app_assoc ms a b), (has_array_app (ms ++ a) b).
  destruct (last b) as [lb|]; destruct (last a) as [la|]; rewrite ?Hlast;
    destruct (has_array (ms ++ a)) eqn:Ea;
    cbn [array_flagged set_flags type flags rules matches replacements orb];
    try rewrite (has_array_app (ms ++ a) b); rewrite ?Ea; cbn [orb];
    try destruct (complete lb); try destruct (has_array b); destruct ff; reflexivity.
Qed.

Lemma compile_opt_is_Some (x : option Like) (o : option Schema) :
  compile_opt compile x = Ok o -> is_Some o <-> defined x = true.
Proof.
  unfold compile_opt. destruct (defined x) eqn:D.
  - destruct x as [y|]; [| discriminate]. destruct (compile y); cbn [bind]; [| discriminate].
    intros [= <-]. split; eauto.
  - intros [= <-]. split; [intros [? ?]; discriminate | discriminate].
Qed.

(** The entry that the closure [normalize] returns *)
Lemma normalize_shape (obj : Schema) (c : Condition) (st : Settings) item o :
  normalize compile compile_ref required obj c st = Ok (item, o) ->
  o = (if complete item then Base.setFlag obj (fun f => Base.with_endedSwitch f true)
       else obj) /\
  m_schema item = None /\
  (isSchema c = false -> is_Some (m_ref item) /\ m_peek item = None) /\
  (isSchema c = true -> m_ref item = None /\ is_Some (m_peek item)) /\
  (is_Some (m_is item) <-> defined (s_is st) = true) /\
  (is_Some (m_then item) <-> defined (s_then st) = true) /\
  (is_Some (m_otherwise item) <-> defined (s_otherwise st) = true).
Proof.
  unfold normalize.
  destruct (match c with CondSchema _ => Ok None | _ => _ end) as [ref|msg] eqn:Eref;
    cbn [bind]; [| discriminate].
  destruct (compile_opt compile (s_then st)) as [t|msg] eqn:Et; cbn [bind]; [| discriminate].
  destruct (compile_opt compile (s_otherwise st)) as [ot|msg] eqn:Eo; cbn [bind];
    [| discriminate].
  destruct (if defined (s_is st) then _ else _) as [i|msg] eqn:Ei; cbn [bind];
    [| discriminate].
  intros [= <- <-]. cbn [m_schema m_ref m_peek m_is m_then m_otherwise].
  split; [unfold complete; cbn; destruct t, ot; reflexivity|].
  split; [reflexivity|]. split; [| split; [| split; [| split]]].
  - intros Hc. destruct c; try discriminate;
      (destruct (compile_ref _); cbn [bind] in Eref; [| discriminate];
       injection Eref as <-; split; eauto).
  - intros Hc. destruct c; try discriminate. injection Eref as <-. split; eauto.
  - destruct (defined (s_is st)) eqn:D.
    + split; [reflexivity|]. intros _. destruct (s_is st) as [[s|r|v]|]; try discriminate;
        (destruct (compile _); cbn [bind] in Ei; [| discriminate]; injection Ei as <-; eauto).
    + injection Ei as <-. split; [intros [? ?]; discriminate | discriminate].
  - apply compile_opt_is_Some, Et.
  - apply compile_opt_is_Some, Eo.
Qed.

Lemma is_Some_bool {A} (o : option A) (b : bool) :
  (is_Some o <-> b = true) -> bool_decide (is_Some o) = b.
Proof.
  intros H. destruct b.
  - apply bool_decide_eq_true, H. reflexivity.
  - apply bool_decide_eq_false. intros Hs. apply H in Hs. discriminate.
Qed.

Lemma conditional_ref (m : Match) :
  m_schema m = None -> is_Some (m_ref m) -> m_peek m = None -> is_Some (m_is m) ->
  is_Some (m_then m) \/ is_Some (m_otherwise m) ->
  conditional m = true.
Proof.
  destruct m as [s r p i t o]. cbn. intros -> [r' ->] -> [i' ->] H.
  apply orb_true_intro. destruct H as [H | H]; [left | right]; apply bool_decide_eq_true, H.
Qed.

Lemma conditional_peek (m : Match) :
  m_schema m = None -> m_ref m = None -> is_Some (m_peek m) -> m_is m = None ->
  is_Some (m_then m) \/ is_Some (m_otherwise m) ->
  conditional m = true.
Proof.
  destruct m as [s r p i t o]. cbn. intros -> -> [p' ->] -> H.
  apply orb_true_intro. destruct H as [H | H]; [left | right]; apply bool_decide_eq_true, H.
Qed.

Lemma push_normalized (obj : Schema) (item : Match) :
  push (if complete item then Base.setFlag obj (fun f => Base.with_endedSwitch f true)
        else obj) item
  = mkSchema (type obj)
      (if complete item then Base.with_endedSwitch (flags obj) true else flags obj)
      (rules obj) (matches obj ++ [item]) (replacements obj).
Proof. destruct (complete item); destruct obj; reflexivity. Qed.

Lemma assert_inv (b : bool) (msg : string) (u : unit) : assert b msg = Ok u -> b = true.
Proof. destruct b; [reflexivity | discriminate]. Qed.

(** What the loop over the cases of a switch leaves *)
Lemma when_switch_shape (c : Condition) (options : WhenOptions) (cases : list Case) :
  isSchema c = false ->
  forall obj o,
  when_switch compile compile_ref required obj c options cases = Ok o ->
  exists ms,
    o = mkSchema (type obj)
          (match last ms with
           | Some m => if complete m then Base.with_endedSwitch (flags obj) true else flags obj
           | None => flags obj
           end)
          (rules obj) (matches obj ++ ms) (replacements obj) /\
    List.length ms = List.length cases /\
    buildable ms = true.
Proof.
  intros Hc. induction cases as [|test rest IH]; intros obj o.
  - intros [= <-]. exists []. cbn [last]. rewrite app_nil_r, schema_eta. auto.
  - cbn [when_switch].
    destruct (assert (defined (t_is test)) _) eqn:Ei; cbn [bind]; [| discriminate].
    destruct (assert (defined (t_then test)) _) eqn:Et; cbn [bind]; [| discriminate].
    apply assert_inv in Ei, Et.
    destruct rest as [|test' rest'].
    + destruct (Ref.assertOptions _); cbn [bind]; [| discriminate].
      destruct (assert _ _); cbn [bind]; [| discriminate].
      destruct (normalize _ _ _ obj c _) as [[item o']|msg] eqn:En; cbn [bind fst snd];
        [| discriminate].
      intros [= <-].
      destruct (normalize_shape _ _ _ _ _ En) as (-> & Hs & Hr & _ & Hi & Ht & _).
      cbn [s_is s_then] in Hi, Ht. destruct (Hr Hc) as [Href Hpeek].
      exists [item]. split; [apply push_normalized|]. split; [reflexivity|].
      cbn [buildable]. rewrite orb_true_r, !andb_true_r. apply orb_true_intro. right.
      apply conditional_ref; try assumption; [apply Hi, Ei | left; apply Ht, Et].
    + destruct (Ref.assertOptions _) eqn:Eo; cbn [bind]; [| discriminate].
      assert (Hno : t_otherwise test = None).
      { destruct (t_otherwise test); [discriminate | reflexivity]. }
      destruct (normalize _ _ _ obj c _) as [[item o']|msg] eqn:En; cbn [bind fst snd];
        [| discriminate].
      destruct (normalize_shape _ _ _ _ _ En) as (-> & Hs & Hr & _ & Hi & Ht & Ho).
      cbn [s_is s_then s_otherwise] in Hi, Ht, Ho. destruct (Hr Hc) as [Href Hpeek].
      assert (Hcomp : complete item = false).
      { unfold complete. rewrite Hs. destruct (m_then item); [| reflexivity].
        destruct (m_otherwise item) eqn:E; [| reflexivity].
        rewrite Hno in Ho. assert (defined None = true) by (apply Ho; eauto). discriminate. }
      rewrite Hcomp. intros H. destruct (IH _ _ H) as (ms & -> & Hlen & Hb).
      exists (item :: ms). split; [| split].
      * assert (Hl : last (item :: ms) = last ms).
        { destruct ms; [discriminate | reflexivity]. }
        rewrite Hl. destruct obj. cbn. rewrite <- app_assoc. reflexivity.
      * cbn [List.length]. rewrite Hlen. reflexivity.
      * cbn [buildable]. rewrite Hcomp, Hb. cbn [negb orb andb]. rewrite !andb_true_r.
        apply orb_true_intro. right.
        apply conditional_ref; try assumption; [apply Hi, Ei | left; apply Ht, Et].
Qed.

(** What the builders keep true of the schemas they return *)
Lemma made_built (s : Schema) :
  made compile compile_ref required s ->
  buildable (matches s) = true /\ s = built alternatives (matches s).
Proof.
  induction 1 as [|this schemas obj _ [Hb Hthis] Htry
                  |this condition options obj _ [Hb Hthis] Hwhen].
  - split; reflexivity.
  - (* try *)
    unfold try in Htry.
    destruct (assert (match schemas with TryOne x => _ | TryMany _ => true end) _);
      cbn [bind] in Htry; [| discriminate].
    destruct (assert (negb (default false (f_endedSwitch (flags this)))) _) eqn:Eend;
      cbn [bind] in Htry; [| discriminate].
    apply assert_inv, negb_true_iff in Eend.
    destruct (try_push compile this _) as [o1|msg] eqn:E1; cbn [bind] in Htry; [| discriminate].
    injection Htry as <-.
    destruct (try_push_inv _ _ _ E1) as (ms & -> & Hms).
    assert (Hopen : forallb (fun m => negb (complete m)) (matches this) = true).
    { apply buildable_open; [exact Hb|].
      apply (built_flags_open alternatives); [reflexivity | rewrite <- Hthis; exact Eend]. }
    assert (Hlast : match last ms with
                    | Some m => if complete m then Base.with_endedSwitch (flags this) true
                                else flags this
                    | None => flags this
                    end = flags this).
    { destruct (last ms) as [m|] eqn:El; [| reflexivity].
      rewrite complete_tried; [reflexivity|].
      apply last_Some_elem_of in El. rewrite forallb_forall in Hms.
      apply Hms, list_elem_of_In, El. }
    pose proof (built_app alternatives (matches this) ms Hopen) as Happ.
    cbv zeta in Happ. rewrite <- Hthis, Hlast in Happ.
    assert (Hm : matches (mutateRebuild (set_matches this (matches this ++ ms)))
                 = matches this ++ ms).
    { rewrite rebuild_spec. destruct (has_array _); destruct this; reflexivity. }
    rewrite Hm. split.
    + apply buildable_app; [exact Hb | exact Hopen | apply buildable_tried, Hms].
    + rewrite <- Happ. destruct this; reflexivity.
  - (* when *)
    unfold when in Hwhen. set (o := when_options options) in *.
    destruct (Ref.assertOptions (w_unknown o)); cbn [bind] in Hwhen; [| discriminate].
    destruct (assert (negb (default false (f_endedSwitch (flags this)))) _) eqn:Eend;
      cbn [bind] in Hwhen; [| discriminate].
    apply assert_inv, negb_true_iff in Eend.
    destruct (assert (match condition with CondOther _ => false | _ => true end) _);
      cbn [bind] in Hwhen; [| discriminate].
    destruct (assert (negb (switch_truthy (w_switch o)) || negb (defined (w_is o))) _);
      cbn [bind] in Hwhen; [| discriminate].
    destruct (assert (negb (switch_truthy (w_switch o)) || negb (defined (w_then o))) _);
      cbn [bind] in Hwhen; [| discriminate].
    destruct (assert (switch_defined (w_switch o) || defined (w_then o)
                      || defined (w_otherwise o)) _) eqn:Ebranch;
      cbn [bind] in Hwhen; [| discriminate].
    destruct (assert (negb (isSchema condition) || negb (defined (w_is o))) _) eqn:Esi;
      cbn [bind] in Hwhen; [| discriminate].
    destruct (assert (negb (isSchema condition) || negb (switch_defined (w_switch o))) _)
      eqn:Ess; cbn [bind] in Hwhen; [| discriminate].
    destruct (assert (isSchema condition || defined (w_is o)
                      || switch_defined (w_switch o)) _) eqn:Emis;
      cbn [bind] in Hwhen; [| discriminate].
    destruct (assert (match w_switch o with Some (SwitchOther v) => _ | _ => true end) _)
      eqn:Earr; cbn [bind] in Hwhen; [| discriminate].
    apply assert_inv in Ebranch, Esi, Ess, Emis, Earr.
    assert (Hopen : forallb (fun m => negb (complete m)) (matches this) = true).
    { apply buildable_open; [exact Hb|].
      apply (built_flags_open alternatives); [reflexivity | rewrite <- Hthis; exact Eend]. }
    assert (Hgoal : forall ms,
              buildable ms = true ->
              obj = mutateRebuild
                      (mkSchema (type this)
                         (match last ms with
                          | Some m => if complete m
                                      then Base.with_endedSwitch (flags this) true
                                      else flags this
                          | None => flags this
                          end) (rules this) (matches this ++ ms) (replacements this)) ->
              buildable (matches obj) = true /\ obj = built alternatives (matches obj)).
    { intros ms Hms ->.
      pose proof (built_app alternatives (matches this) ms Hopen) as Happ.
      cbv zeta in Happ. rewrite <- Hthis in Happ. rewrite Happ.
      assert (Hm : matches (built alternatives (matches this ++ ms)) = matches this ++ ms).
      { unfold built. destruct (has_array _); reflexivity. }
      rewrite Hm. split; [| reflexivity].
      apply buildable_app; assumption. }
    destruct (w_switch o) as [[cases|v]|] eqn:Esw.
    + (* a switch *)
      destruct (when_switch _ _ _ this condition o cases) as [o1|msg] eqn:E1;
        cbn [bind] in Hwhen; [| discriminate].
      injection Hwhen as <-.
      assert (Hc : isSchema condition = false).
      { cbn [switch_defined] in Ess. destruct (isSchema condition); [discriminate | reflexivity]. }
      destruct (when_switch_shape condition o cases Hc _ _ E1) as (ms & -> & _ & Hms).
      apply (Hgoal ms Hms). reflexivity.
    + (* [switch] given as undefined *)
      destruct v; try discriminate.
      destruct (normalize _ _ _ this condition _) as [[item o']|msg] eqn:En;
        cbn [bind fst snd] in Hwhen; [| discriminate].
      injection Hwhen as <-.
      destruct (normalize_shape _ _ _ _ _ En) as (-> & Hs & Hr & Hp & Hi & Ht & Ho).
      cbn [s_is s_then s_otherwise switch_defined orb] in *.
      apply (Hgoal [item]); [| rewrite push_normalized; reflexivity].
      cbn [buildable]. rewrite orb_true_r, !andb_true_r. apply orb_true_intro. right.
      assert (Hbr : is_Some (m_then item) \/ is_Some (m_otherwise item)).
      { apply orb_prop in Ebranch as [E | E]; [left; apply Ht, E | right; apply Ho, E]. }
      destruct (isSchema condition) eqn:Ec.
      * destruct (Hp eq_refl) as [Hr1 Hp1]. apply conditional_peek; try assumption.
        cbn [negb orb] in Esi. apply negb_true_iff in Esi.
        destruct (m_is item) eqn:Eis; [| reflexivity].
        assert (defined (w_is o) = true) by (apply Hi; eauto). congruence.
      * destruct (Hr eq_refl) as [Hr1 Hp1]. apply conditional_ref; try assumption.
        apply Hi. cbn [orb] in Emis. rewrite orb_false_r in Emis. exact Emis.
    + (* no switch *)
      destruct (normalize _ _ _ this condition _) as [[item o']|msg] eqn:En;
        cbn [bind fst snd] in Hwhen; [| discriminate].
      injection Hwhen as <-.
      destruct (normalize_shape _ _ _ _ _ En) as (-> & Hs & Hr & Hp & Hi & Ht & Ho).
      cbn [s_is s_then s_otherwise switch_defined orb] in *.
      apply (Hgoal [item]); [| rewrite push_normalized; reflexivity].
      cbn [buildable]. rewrite orb_true_r, !andb_true_r. apply orb_true_intro. right.
      assert (Hbr : is_Some (m_then item) \/ is_Some (m_otherwise item)).
      { apply orb_prop in Ebranch as [E | E]; [left; apply Ht, E | right; apply Ho, E]. }
      destruct (isSchema condition) eqn:Ec.
      * destruct (Hp eq_refl) as [Hr1 Hp1]. apply conditional_peek; try assumption.
        cbn [negb orb] in Esi. apply negb_true_iff in Esi.
        destruct (m_is item) eqn:Eis; [| reflexivity].
        assert (defined (w_is o) = true) by (apply Hi; eauto). congruence.
      * destruct (Hr eq_refl) as [Hr1 Hp1]. apply conditional_ref; try assumption.
        apply Hi. cbn [orb] in Emis. rewrite orb_false_r in Emis. exact Emis.
Qed.

(** X13. Every alternatives schema made by [try] and [when] is put back
    by the [build] hook from its entries: replaying [matches] on the
    schema of the factory returns the schema itself, flags included. *)
Theorem build_restores_every_made_schema (s : Schema) :
  (forall x, compile (LSchema x) = Ok x) ->
  (forall r, compile_ref (CondRef r) = Ok r) ->
  made compile compile_ref required s ->
  build compile compile_ref required alternatives (matches s) = Ok s.
Proof.
  intros Hcs Hcr Hmade. destruct (made_built s Hmade) as [Hb Hs].
  rewrite Hs at 2.
  apply (build_built (matches s) alternatives Hcs Hcr Hb); reflexivity.
Qed.

End Chain.

Lemma X9_witness :
  when Scenario.compile_schema Scenario.compile_ref Base.required alternatives (CondStr "a")
    (WhenArray [mkCase (Some (LSchema Engine.number)) (Some (LSchema StringType.string_))
                  None []])
  = when Scenario.compile_schema Scenario.compile_ref Base.required alternatives (CondStr "a")
      (WhenObject (mkWhenOptions (Some (LSchema Engine.number))
                     (Some (LSchema StringType.string_)) None None [])).
Proof.
  apply (proj1 (switch_is_chain Scenario.compile_schema Scenario.compile_ref Base.required
                  alternatives (CondStr "a")
                  (mkCase (Some (LSchema Engine.number)) (Some (LSchema StringType.string_))
                     None [])
                  eq_refl eq_refl eq_refl eq_refl)).
Defined.

Lemma X12_witness :
  build Scenario.compile_schema Scenario.compile_ref Base.required alternatives
    [Scenario.try_item Engine.number;
     mkMatch None (Some Ref.ref_grandparent_x) None (Some Engine.number)
       (Some Engine.number) (Some StringType.string_)]
  = Ok (mkSchema "alternatives" (Base.with_endedSwitch no_flags true) []
          [Scenario.try_item Engine.number;
           mkMatch None (Some Ref.ref_grandparent_x) None (Some Engine.number)
             (Some Engine.number) (Some StringType.string_)] None).
Proof.
  apply (build_replays Scenario.compile_schema Scenario.compile_ref Base.required
           [Scenario.try_item Engine.number;
            mkMatch None (Some Ref.ref_grandparent_x) None (Some Engine.number)
              (Some Engine.number) (Some StringType.string_)]
           alternatives); intros; reflexivity.
Defined.

Lemma X13_witness :
  build Scenario.compile_schema Scenario.compile_ref Base.required alternatives
    (matches Scenario.number_or_string_min3)
  = Ok Scenario.number_or_string_min3.
Proof.
  apply (build_restores_every_made_schema Scenario.compile_schema Scenario.compile_ref
           Base.required Scenario.number_or_string_min3).
  - intros; reflexivity.
  - intros; reflexivity.
  - apply (made_try _ _ _ alternatives
             (TryMany [LSchema Engine.number; LSchema (Scenario.string_min 3)])).
    + apply made_alternatives.
    + reflexivity.
Defined.

(** ** The [validate] hook *)

Section Validate.

Variable validate_ : Schema -> JsVal -> Ref.State -> Ref.Prefs -> result Outcome.
Variable match_ : Schema -> JsVal -> Ref.State -> Ref.Prefs -> result bool.
Variable nest : Ref.State -> Schema -> Ref.State.
Variable entry : Ref.State -> Schema -> JsVal -> Ref.State.
Variable reach : JsVal -> list JsVal -> option bool -> JsVal.

Local Abbreviation validate_matches := (validate_matches validate_ match_ nest entry reach).
Local Abbreviation validate := (validate validate_ match_ nest entry reach).

(** The schemas tried before the one that accepts each returned errors. *)
Lemma tried_and_failed (pre : list Schema) (outs : list Outcome) (rest : list Match)
    (value : JsVal) (state : Ref.State) (prefs : Ref.Prefs) :
  Forall2 (fun p o => validate_ p value (nest state p) prefs = Ok o /\
                      no_errors (out_errors o) = false) pre outs ->
  forall errors,
  validate_matches ((Scenario.try_item <$> pre) ++ rest) value state prefs errors
  = validate_matches rest value state prefs
      (errors ++ List.concat ((fun o => spread (out_errors o)) <$> outs)).
Proof.
  induction 1 as [|p o pre outs [Hp Ho] _ IH]; intros errors.
  - simpl. rewrite app_nil_r. reflexivity.
  - cbn [fmap list_fmap app Alternatives.validate_matches Scenario.try_item m_schema].
    rewrite Hp. cbn [bind]. rewrite Ho. rewrite IH. cbn [fmap list_fmap List.concat].
    rewrite app_assoc. reflexivity.
Qed.

(** X10. Among schemas given to [try] the first that accepts decides:
    when the schemas before it each return errors, the hook returns the
    result of that schema whatever comes after it. When every schema
    returns errors, the hook aggregates the errors in the order of the
    schemas. *)
Theorem first_accepting_schema_decides (this : Schema) (pre : list Schema)
    (outs : list Outcome) (value : JsVal) (state : Ref.State) (prefs : Ref.Prefs) :
  Forall2 (fun p o => validate_ p value (nest state p) prefs = Ok o /\
                      no_errors (out_errors o) = false) pre outs ->
  (forall s post result,
     matches this = Scenario.try_item <$> (pre ++ s :: post) ->
     validate_ s value (nest state s) prefs = Ok result ->
     no_errors (out_errors result) = true ->
     validate this value state prefs = Ok (of_outcome result)) /\
  (matches this = Scenario.try_item <$> pre ->
   validate this value state prefs
   = Ok (aggregate value (List.concat ((fun o => spread (out_errors o)) <$> outs)))).
Proof.
  intros Hpre. split.
  - intros s post result Hm Hs Hok. unfold Alternatives.validate.
    rewrite Hm, fmap_app, (tried_and_failed pre outs _ value state prefs Hpre).
    cbn [fmap list_fmap Alternatives.validate_matches Scenario.try_item m_schema].
    rewrite Hs. cbn [bind]. rewrite Hok. reflexivity.
  - intros Hm. unfold Alternatives.validate.
    rewrite Hm, <- (app_nil_r (Scenario.try_item <$> pre)),
      (tried_and_failed pre outs _ value state prefs Hpre).
    reflexivity.
Qed.

Lemma complete_decides (item : Match) (rest rest' : list Match)
    (value : JsVal) (state : Ref.State) (prefs : Ref.Prefs) (errors : list ErrItem) :
  complete item = true ->
  validate_matches (item :: rest) value state prefs errors
  = validate_matches (item :: rest') value state prefs errors.
Proof.
  unfold complete. destruct item as [[s|] r p i [t|] [o|]]; simpl; try discriminate.
  intros _.
  destruct (match i with Some _ => _ | None => Ok value end) as [input|msg]; cbn [bind];
    [| reflexivity].
  destruct (match p with Some _ => _ | None => _ end) as [[|]|msg]; reflexivity.
Qed.

(** X11. A conditional entry with both [then] and [otherwise] ends the
    validation: whatever entries follow it in [matches], the hook returns
    the same result (or throws the same error). *)
Theorem nothing_runs_after_complete_conditional (this : Schema) (pre rest : list Match)
    (item : Match) (value : JsVal) (state : Ref.State) (prefs : Ref.Prefs) :
  complete item = true ->
  validate (set_matches this (pre ++ item :: rest)) value state prefs
  = validate (set_matches this (pre ++ [item])) value state prefs.
Proof.
  intros Hc. unfold Alternatives.validate.
  replace (matches (set_matches this (pre ++ item :: rest))) with (pre ++ item :: rest)
    by (destruct this; reflexivity).
  replace (matches (set_matches this (pre ++ [item]))) with (pre ++ [item])
    by (destruct this; reflexivity).
  f_equal. generalize (@nil ErrItem) as errors.
  induction pre as [|x pre IH]; intros errors.
  - apply complete_decides, Hc.
  - cbn [app Alternatives.validate_matches].
    destruct (m_schema x) as [s|].
    + destruct (validate_ s value (nest state s) prefs) as [res|msg]; cbn [bind];
        [| reflexivity].
      destruct (no_errors (out_errors res)); [reflexivity | apply IH].
    + destruct (match m_is x with Some _ => _ | None => Ok value end) as [input|msg];
        cbn [bind]; [| reflexivity].
      destruct (match m_peek x with Some _ => _ | None => _ end) as [[|]|msg]; cbn [bind];
        [| | reflexivity].
      * cbn [negb]. destruct (m_then x); [reflexivity | apply IH].
      * cbn [negb]. destruct (m_otherwise x); [reflexivity | apply IH].
Qed.

End Validate.

Lemma X10_witness :
  Alternatives.validate Scenario.run_validate Scenario.run_match Engine.nest
    Scenario.plain_entry Ref.reach_plain Scenario.number_or_string_min3 (VStr "abc")
    Ref.no_ancestors Ref.some_prefs
  = Ok (of_outcome (mkOutcome (VStr "abc") NoErrors)).
Proof.
  refine (proj1 (first_accepting_schema_decides Scenario.run_validate Scenario.run_match
                   Engine.nest Scenario.plain_entry Ref.reach_plain
                   Scenario.number_or_string_min3 [Engine.number]
                   [mkOutcome (VStr "abc")
                      (ErrorList [EReport (Scenario.base_report "number.base" (VStr "abc"))])]
                   (VStr "abc") Ref.no_ancestors Ref.some_prefs _)
            (Scenario.string_min 3) [] _ eq_refl eq_refl eq_refl).
  constructor; [split; reflexivity | constructor].
Defined.

Lemma X11_witness :
  Alternatives.validate Scenario.run_validate Scenario.run_match Engine.nest
    Scenario.plain_entry Ref.reach_plain
    (set_matches alternatives
       ([] ++ mkMatch None None (Some Engine.number) None
                (Some Engine.number) (Some StringType.string_)
           :: [Scenario.try_item Engine.number]))
    (VStr "abc") Ref.no_ancestors Ref.some_prefs
  = Alternatives.validate Scenario.run_validate Scenario.run_match Engine.nest
      Scenario.plain_entry Ref.reach_plain
      (set_matches alternatives
         ([] ++ [mkMatch None None (Some Engine.number) None
                   (Some Engine.number) (Some StringType.string_)]))
      (VStr "abc") Ref.no_ancestors Ref.some_prefs.
Proof.
  apply (nothing_runs_after_complete_conditional Scenario.run_validate Scenario.run_match
           Engine.nest Scenario.plain_entry Ref.reach_plain alternatives []
           [Scenario.try_item Engine.number]).
  reflexivity.
Defined.

End AlternativesChain.

(* ===================================================================== *)
(** * Properties of the string rules *)
(* ===================================================================== *)

Module StringRulesTheory.
Import Js Schema StringType StringRules.

(** ** Trimming *)

Lemma trim_end_idem (s : string) : trim_end (trim_end s) = trim_end s.
Proof.
  induction s as [|c s IH]; [reflexivity|].
  cbn [trim_end]. destruct (trim_end s) as [|c' t] eqn:E.
  - destruct (is_space c) eqn:Ec; [reflexivity|]. cbn [trim_end]. rewrite Ec. reflexivity.
  - cbn [trim_end] in *. rewrite IH. reflexivity.
Qed.

Lemma trim_start_head (s : string) :
  match trim_start s with
  | String c _ => is_space c = false
  | EmptyString => True
  end.
Proof.
  induction s as [|c s IH]; [exact I|].
  cbn [trim_start]. destruct (is_space c) eqn:E; [exact IH | exact E].
Qed.

Lemma trim_end_head (c : ascii) (s : string) :
  is_space c = false -> exists t, trim_end (String c s) = String c t.
Proof.
  intros Hc. cbn [trim_end]. rewrite Hc. destruct (trim_end s); eauto.
Qed.

(** Trimming twice is trimming once. *)
Lemma trim_idem (s : string) : trim (trim s) = trim s.
Proof.
  unfold trim. pose proof (trim_start_head s) as H.
  destruct (trim_start s) as [|c t] eqn:E; [reflexivity|].
  destruct (trim_end_head c t H) as (t' & Ht). rewrite Ht.
  cbn [trim_start]. rewrite H, <- Ht. apply trim_end_idem.
Qed.

(** X17. What the coerce hook does for [trim] and for byte-aligned [hex]
    makes the value pass the check it serves: a trimmed value passes the
    trim rule, and a padded value has an even length, so the hex rule can
    only fail it for a character that is not a hex digit. *)
Theorem conversion_satisfies_its_rule (schema : Schema) (value : string) :
  (getRule schema "trim" = Some (RTrim true) ->
   trim_validate (coerce_trim schema value) true = inl (VStr (coerce_trim schema value))) /\
  (getRule schema "hex" = Some (RHex true) ->
   Nat.even (String.length (coerce_hex schema value)) = true /\
   hex_validate (coerce_hex schema value) true
   = if hexRegex_test (coerce_hex schema value)
     then inl (VStr (coerce_hex schema value))
     else inr (error "string.hex" (VStr (coerce_hex schema value)) (LFields []))).
Proof.
  split.
  - intros H. unfold coerce_trim, trim_validate. rewrite H. cbn [negb orb].
    rewrite trim_idem, String.eqb_refl. reflexivity.
  - intros H. unfold coerce_hex. rewrite H.
    assert (Heven : Nat.even (String.length
                      (if negb (Nat.even (String.length value)) then "0" +:+ value else value))
                    = true).
    { destruct (Nat.even (String.length value)) eqn:E; cbn [negb]; [exact E|].
      change ("0" +:+ value) with (String "0" value). cbn [String.length].
      rewrite Nat.even_succ, <- Nat.negb_even, E. reflexivity. }
    split; [exact Heven|].
    unfold hex_validate. rewrite Heven. cbn [negb andb].
    destruct (hexRegex_test _); reflexivity.
Qed.

(** ** Replacements *)

Section Replace.

Variable replace : string -> RegExp -> string -> string.
Variable escaped_global : string -> RegExp.

Lemma replace_appends (this : Schema) (pattern : RegExp) (replacement : string) :
  exists obj,
    replace_ escaped_global this (PRegExp pattern) (VStr replacement) = Ok obj /\
    (forall value,
       coerce_replacements replace obj value
       = replace (coerce_replacements replace this value) pattern replacement) /\
    type obj = type this /\ flags obj = flags this /\ rules obj = rules this.
Proof.
  eexists. split; [reflexivity|]. split; [| destruct this; repeat split].
  intros value. unfold coerce_replacements. destruct this as [t f r m [l|]]; simpl.
  - rewrite fold_left_app. reflexivity.
  - reflexivity.
Qed.

(** X18. [replace] adds its replacement after those the schema has, so
    the coerce hook applies the replacements in the order in which the
    calls were made; the rules and flags of the schema are kept. A string
    pattern stands for the global pattern that matches it literally. *)
Theorem replacements_apply_in_call_order (this : Schema) (pattern : RegExp)
    (replacement : string) :
  exists obj,
    replace_ escaped_global this (PRegExp pattern) (VStr replacement) = Ok obj /\
    (forall value,
       coerce_replacements replace obj value
       = replace (coerce_replacements replace this value) pattern replacement) /\
    type obj = type this /\ flags obj = flags this /\ rules obj = rules this /\
    forall s,
      replace_ escaped_global this (PString s) (VStr replacement)
      = replace_ escaped_global this (PRegExp (escaped_global s)) (VStr replacement).
Proof.
  destruct (replace_appends this pattern replacement) as (obj & H1 & H2 & H3 & H4 & H5).
  exists obj. repeat split; assumption.
Qed.

(** X19. The [build] hook of the string type replays the replacements
    of a description in order: the schema it returns holds those of the
    receiver followed by the given ones (and is the receiver when none is
    given), so the coerce hook applies them after the receiver's. *)
Theorem string_build_replays (replacements' : list Replacement) : forall (obj : Schema),
  exists obj',
    StringRules.build escaped_global obj replacements' = Ok obj' /\
    replacements obj'
    = match replacements' with
      | [] => replacements obj
      | _ => Some (default [] (replacements obj) ++ replacements')
      end /\
    type obj' = type obj /\ flags obj' = flags obj /\ rules obj' = rules obj /\
    forall value,
      coerce_replacements replace obj' value
      = fold_left (fun v r => replace v (rep_pattern r) (rep_replacement r)) replacements'
          (coerce_replacements replace obj value).
Proof.
  induction replacements' as [|r rest IH]; intros obj.
  - exists obj. repeat split.
  - cbn [StringRules.build].
    destruct (replace_appends obj (rep_pattern r) (rep_replacement r))
      as (o1 & E1 & Hc1 & Ht1 & Hf1 & Hr1).
    rewrite E1. cbn [bind]. destruct (IH o1) as (o2 & E2 & Hrep & Ht2 & Hf2 & Hr2 & Hc2).
    exists o2. split; [exact E2|]. split; [| split; [| split; [| split]]]; try congruence.
    + rewrite Hrep. injection E1 as <-. destruct obj as [t f ru m [l|]]; destruct r, rest;
        cbn; rewrite <- ?app_assoc; reflexivity.
    + intros value. rewrite Hc2, Hc1. reflexivity.
Qed.

End Replace.

(** ** Patterns *)

Lemma all_chars_impl (p q : ascii -> bool) (s : string) :
  (forall c, p c = true -> q c = true) -> all_chars p s = true -> all_chars q s = true.
Proof.
  intros H. induction s as [|c s IH]; [reflexivity|]. cbn [all_chars].
  intros E. apply andb_prop in E as [E1 E2]. rewrite (H c E1), (IH E2). reflexivity.
Qed.

Lemma all_hex_all_chars (s : string) : all_hex s = all_chars is_hex_digit s.
Proof. induction s as [|c s IH]; [reflexivity|]. cbn [all_hex all_chars]. rewrite IH. reflexivity. Qed.

Lemma hex_digit_alphanum (c : ascii) : is_hex_digit c = true -> is_alphanum c = true.
Proof.
  unfold is_hex_digit, is_alphanum, is_lower, is_upper, is_digit. cbv zeta.
  generalize (nat_of_ascii c) as n. intros n H.
  repeat match goal with
         | |- context [(?a <=? ?b)%nat] => destruct (Nat.leb_spec a b)
         | H : context [(?a <=? ?b)%nat] |- _ => destruct (Nat.leb_spec a b)
         end; try reflexivity; try discriminate; lia.
Qed.

(** X20. The three character-class rules are nested: a value that passes
    [hex] passes [alphanum], and a value that passes [alphanum] passes
    [token]; none of them accepts the empty string. *)
Theorem hex_alphanum_token_nested (value : string) :
  (forall byteAligned,
     hex_validate value byteAligned = inl (VStr value) ->
     alphanum_validate value = inl (VStr value)) /\
  (alphanum_validate value = inl (VStr value) -> token_validate value = inl (VStr value)) /\
  (forall byteAligned, hex_validate "" byteAligned <> inl (VStr "")) /\
  alphanum_validate "" <> inl (VStr "") /\ token_validate "" <> inl (VStr "").
Proof.
  split; [| split; [| split; [intros []; discriminate | split; discriminate]]].
  - intros b. unfold hex_validate, alphanum_validate, hexRegex_test, one_or_more.
    destruct (negb (String.eqb value "")); cbn [andb negb]; [| discriminate].
    rewrite all_hex_all_chars. destruct (all_chars is_hex_digit value) eqn:E; [| discriminate].
    rewrite (all_chars_impl _ _ _ hex_digit_alphanum E). reflexivity.
  - unfold alphanum_validate, token_validate, one_or_more.
    destruct (negb (String.eqb value "")); cbn [andb]; [| discriminate].
    destruct (all_chars is_alphanum value) eqn:E; [| discriminate].
    rewrite (all_chars_impl is_alphanum is_word value); [reflexivity | | exact E].
    intros c Hc. unfold is_word. rewrite Hc. reflexivity.
Qed.

(** ** base64 *)

Lemma base64_not_equals (urlSafe : bool) (c : ascii) :
  base64_char urlSafe c = true -> Ascii.eqb c "=" = false.
Proof.
  destruct (Ascii.eqb_spec c "=") as [->|]; [| reflexivity].
  destruct urlSafe; discriminate.
Qed.

Lemma base64_strong_ind (P : string -> Prop) :
  P "" ->
  (forall a, P (String a "")) ->
  (forall a b, P (String a (String b ""))) ->
  (forall a b c, P (String a (String b (String c "")))) ->
  (forall a b c d rest, P rest -> P (String a (String b (String c (String d rest))))) ->
  forall s, P s.
Proof.
  intros H0 H1 H2 H3 H4. fix IH 1.
  intros [|a [|b [|c [|d rest]]]];
    [exact H0 | apply H1 | apply H2 | apply H3 | apply H4, IH].
Qed.

(** X21. With padding required the base64 rule accepts only values whose
    length is a multiple of four, and whatever it accepts it also accepts
    when padding is optional. *)
Theorem base64_padding_means_whole_groups (urlSafe : bool) (value : string) :
  base64_validate value true urlSafe = inl (VStr value) ->
  (String.length value mod 4 = 0)%nat /\
  base64_validate value false urlSafe = inl (VStr value).
Proof.
  unfold base64_validate.
  destruct (base64Regex_test true urlSafe value) eqn:E; [| discriminate]. intros _.
  enough (H : (String.length value mod 4 = 0)%nat /\
              base64Regex_test false urlSafe value = true).
  { destruct H as [H1 H2]. rewrite H2. auto. }
  revert E. induction value as [|a|a b|a b c|a b c d rest IH] using base64_strong_ind.
  - auto.
  - discriminate.
  - cbn. rewrite !andb_false_r. discriminate.
  - cbn. rewrite !andb_false_r. discriminate.
  - cbn [base64Regex_test].
    destruct (base64_char urlSafe a && base64_char urlSafe b); cbn [andb]; [| discriminate].
    destruct (base64_char urlSafe c && base64_char urlSafe d).
    + intros E. destruct (IH E) as [H1 H2]. split; [| exact H2].
      cbn [String.length].
      change (S (S (S (S (String.length rest))))) with (4 + String.length rest)%nat.
      rewrite <- Nat.Div0.add_mod_idemp_l. exact H1.
    + intros E. split; [| exact E].
      apply orb_prop in E as [E | E]; apply andb_prop in E as [_ E];
        apply String.eqb_eq in E; subst rest; reflexivity.
Qed.

Lemma X21_witness :
  (String.length "QUJDRA==" mod 4 = 0)%nat /\
  base64_validate "QUJDRA==" false false = inl (VStr "QUJDRA==").
Proof. apply (base64_padding_means_whole_groups false "QUJDRA=="). reflexivity. Defined.

End StringRulesTheory.

(* ===================================================================== *)
(** * Properties of the credit-card rule *)
(* ===================================================================== *)

Module CreditCardTheory.
Import Js Schema CreditCard.

Lemma fold_NaN (l : list ascii) (mul : Z) : fst (fold_left step l (None, mul)) = None.
Proof.
  revert mul. induction l as [|c l IH]; intros mul; [reflexivity|].
  cbn [fold_left]. apply IH.
Qed.

Lemma fold_numeric (l : list ascii) : forall (s mul : Z),
  Forall (fun c => is_Some (char_number c)) l ->
  fst (fold_left step l (Some s, mul)) = Some (s + total l mul).
Proof.
  induction l as [|c l IH]; intros s mul H; cbn [fold_left total].
  - simpl. f_equal. lia.
  - inversion H as [|? ? [n Hn] Hl]; subst.
    replace (step (Some s, mul) c) with (Some (s + weight mul c), Z.lxor mul 3)
      by (unfold step, weight; rewrite Hn; reflexivity).
    rewrite IH by exact Hl. f_equal. lia.
Qed.

Lemma fold_not_numeric (l : list ascii) : forall (sum : option Z) (mul : Z),
  Exists (fun c => char_number c = None) l ->
  fst (fold_left step l (sum, mul)) = None.
Proof.
  induction l as [|c l IH]; intros sum mul H; [inversion H|].
  cbn [fold_left]. inversion H as [? ? Hc|? ? Hl]; subst.
  - replace (step (sum, mul) c) with (@None Z, Z.lxor mul 3)
      by (unfold step; rewrite Hc; destruct sum; reflexivity).
    apply fold_NaN.
  - destruct (step (sum, mul) c) as [sum' mul']. apply IH, Hl.
Qed.

Lemma total_app (l1 l2 : list ascii) : forall mul,
  total (l1 ++ l2) mul = total l1 mul + total l2 (turn (List.length l1) mul).
Proof.
  induction l1 as [|c l1 IH]; intros mul; simpl; [reflexivity|].
  rewrite IH. lia.
Qed.

Lemma turn_one (n : nat) : turn n 1 = 1 \/ turn n 1 = 2.
Proof.
  assert (H : forall m, m = 1 \/ m = 2 -> turn n m = 1 \/ turn n m = 2).
  { induction n as [|n IH]; intros m Hm; simpl; [exact Hm|].
    apply IH. destruct Hm as [-> | ->]; simpl; auto. }
  apply H. auto.
Qed.

Lemma total_nonneg (l : list ascii) : forall mul, (mul = 1 \/ mul = 2) -> 0 <= total l mul.
Proof.
  induction l as [|c l IH]; intros mul Hm; simpl; [lia|].
  assert (0 <= weight mul c).
  { unfold weight. destruct (char_number c) as [n|] eqn:E; [| lia].
    unfold char_number in E.
    destruct ((48 <=? nat_of_ascii c)%nat && (nat_of_ascii c <=? 57)%nat) eqn:D.
    - apply andb_prop in D as [D1 D2]. apply Nat.leb_le in D1, D2.
      injection E as <-. cbv zeta. destruct (9 <? _) eqn:L; [apply Z.ltb_lt in L|]; lia.
    - destruct (is_space c); [| discriminate]. injection E as <-. simpl. lia. }
  assert (0 <= total l (Z.lxor mul 3)).
  { apply IH. destruct Hm as [-> | ->]; simpl; auto. }
  lia.
Qed.

Lemma digit_value (c : ascii) :
  is_digit c = true -> exists n, char_number c = Some n /\ 0 <= n <= 9 /\ n = Z.of_nat (nat_of_ascii c) - 48.
Proof.
  unfold is_digit, char_number. intros H. rewrite H.
  apply andb_prop in H as [D1 D2]. apply Nat.leb_le in D1, D2.
  eexists. split; [reflexivity|]. lia.
Qed.

(** Under either multiplier two different digits weigh differently, by
    less than ten. *)
Lemma weight_differs (mul : Z) (d d' : ascii) :
  mul = 1 \/ mul = 2 -> is_digit d = true -> is_digit d' = true -> d <> d' ->
  weight mul d <> weight mul d' /\ -9 <= weight mul d - weight mul d' <= 9.
Proof.
  intros Hm Hd Hd' Hne.
  destruct (digit_value d Hd) as (n & En & Hn & Hvn).
  destruct (digit_value d' Hd') as (n' & En' & Hn' & Hvn').
  assert (n <> n').
  { intros E. apply Hne. rewrite <- (ascii_nat_embedding d), <- (ascii_nat_embedding d').
    f_equal. lia. }
  unfold weight. rewrite En, En'. cbv zeta.
  destruct Hm as [-> | ->]; destruct (9 <? n * _) eqn:L; destruct (9 <? n' * _) eqn:L';
    try apply Z.ltb_lt in L; try apply Z.ltb_ge in L;
    try apply Z.ltb_lt in L'; try apply Z.ltb_ge in L'; lia.
Qed.

Lemma numeric_digits (s : string) : digits s -> numeric s.
Proof.
  unfold digits, numeric. intros HF. eapply Forall_impl; [exact HF|]. intros c H.
  destruct (digit_value c H) as (n & E & _). eauto.
Qed.

Lemma list_ascii_app (s t : string) :
  list_ascii_of_string (s +:+ t) = list_ascii_of_string s ++ list_ascii_of_string t.
Proof. induction s as [|c s IH]; simpl; [reflexivity | rewrite IH; reflexivity]. Qed.

Lemma checksum_numeric (s : string) :
  numeric s -> checksum s = Some (total (rev (list_ascii_of_string s)) 1).
Proof.
  intros H. unfold checksum. rewrite fold_numeric; [reflexivity|].
  apply Forall_rev, H.
Qed.

(** X14. The credit-card rule detects every single wrong digit: a value of
    digits and white space that the rule accepts is rejected once one of
    its digits is replaced by a different digit. *)
Theorem creditCard_detects_single_digit_error (pre post : string) (d d' : ascii) :
  numeric pre -> numeric post -> is_digit d = true -> is_digit d' = true -> d <> d' ->
  accepted (pre +:+ String d post) -> rejected (pre +:+ String d' post).
Proof.
  intros Hpre Hpost Hd Hd' Hne.
  assert (Hnum : forall c, is_digit c = true -> numeric (pre +:+ String c post)).
  { intros c Hc. unfold numeric. rewrite list_ascii_app. apply Forall_app. split; [exact Hpre|].
    constructor; [| exact Hpost]. destruct (digit_value c Hc) as (n & E & _). eauto. }
  unfold accepted, rejected, validate.
  rewrite (checksum_numeric _ (Hnum d Hd)), (checksum_numeric _ (Hnum d' Hd')).
  rewrite !list_ascii_app. cbn [list_ascii_of_string]. rewrite !rev_app_distr. cbn [rev].
  rewrite <- !app_assoc. cbn [app]. rewrite !total_app. cbn [total].
  set (m := turn (List.length (rev (list_ascii_of_string post))) 1).
  assert (Hm : m = 1 \/ m = 2) by apply turn_one.
  assert (Hm' : Z.lxor m 3 = 1 \/ Z.lxor m 3 = 2) by (destruct Hm as [-> | ->]; simpl; auto).
  pose proof (total_nonneg (rev (list_ascii_of_string post)) 1 (or_introl eq_refl)) as H1.
  pose proof (total_nonneg (rev (list_ascii_of_string pre)) _ Hm') as H2.
  destruct (weight_differs m d d' Hm Hd Hd' Hne) as [Hw Hr].
  set (a := total (rev (list_ascii_of_string post)) 1) in *.
  set (b := total (rev (list_ascii_of_string pre)) (Z.lxor m 3)) in *.
  destruct ((0 <? a + (weight m d + b)) && (Z.rem (a + (weight m d + b)) 10 =? 0)) eqn:E;
    [| discriminate].
  intros _. apply andb_prop in E as [E1 E2]. apply Z.ltb_lt in E1. apply Z.eqb_eq in E2.
  destruct ((0 <? a + (weight m d' + b)) && (Z.rem (a + (weight m d' + b)) 10 =? 0)) eqn:E';
    [| reflexivity].
  exfalso. apply andb_prop in E' as [E1' E2']. apply Z.ltb_lt in E1'. apply Z.eqb_eq in E2'.
  rewrite Z.rem_mod_nonneg in E2, E2' by lia.
  apply Z.mod_divide in E2, E2'; try lia.
  destruct E2 as [q Hq]. destruct E2' as [q' Hq']. lia.
Qed.
Lemma X14_witness : rejected "79927398714".
Proof.
  apply (creditCard_detects_single_digit_error "7992739871" "" "3" "4");
    try reflexivity; try discriminate.
  - unfold numeric. simpl. repeat (constructor; [eexists; reflexivity|]). constructor.
  - constructor.
Defined.

Lemma digit_of_value (c : ascii) (k : nat) :
  nat_of_ascii c = k -> c = ascii_of_nat k.
Proof. intros <-. symmetry. apply ascii_nat_embedding. Qed.

(** What swapping two neighbouring digits changes in the sum *)
Lemma swap_differs (mul : Z) (a b : ascii) :
  mul = 1 \/ mul = 2 -> is_digit a = true -> is_digit b = true -> a <> b ->
  ~ (a = "0"%char /\ b = "9"%char) -> ~ (a = "9"%char /\ b = "0"%char) ->
  let d := (weight mul b + weight (Z.lxor mul 3) a)
           - (weight mul a + weight (Z.lxor mul 3) b) in
  d <> 0 /\ -9 <= d <= 9.
Proof.
  intros Hm Ha Hb Hne H09 H90.
  destruct (digit_value a Ha) as (n & En & Hn & Hvn).
  destruct (digit_value b Hb) as (n' & En' & Hn' & Hvn').
  assert (n <> n').
  { intros E. apply Hne. rewrite <- (ascii_nat_embedding a), <- (ascii_nat_embedding b).
    f_equal. lia. }
  assert (~ (n = 0 /\ n' = 9)).
  { intros [E E']. apply H09.
    split; [apply (digit_of_value a 48) | apply (digit_of_value b 57)]; lia. }
  assert (~ (n = 9 /\ n' = 0)).
  { intros [E E']. apply H90.
    split; [apply (digit_of_value a 57) | apply (digit_of_value b 48)]; lia. }
  unfold weight. rewrite En, En'. cbv zeta.
  destruct Hm as [-> | ->];
    [change (Z.lxor 1 3) with 2 | change (Z.lxor 2 3) with 1];
    destruct (9 <? n * 1) eqn:L1; destruct (9 <? n * 2) eqn:L2;
    destruct (9 <? n' * 1) eqn:L1'; destruct (9 <? n' * 2) eqn:L2';
    try apply Z.ltb_lt in L1; try apply Z.ltb_ge in L1;
    try apply Z.ltb_lt in L2; try apply Z.ltb_ge in L2;
    try apply Z.ltb_lt in L1'; try apply Z.ltb_ge in L1';
    try apply Z.ltb_lt in L2'; try apply Z.ltb_ge in L2'; lia.
Qed.

Lemma swap_zero_nine (mul : Z) :
  mul = 1 \/ mul = 2 ->
  weight mul "9" + weight (Z.lxor mul 3) "0" = weight mul "0" + weight (Z.lxor mul 3) "9".
Proof. intros [-> | ->]; reflexivity. Qed.

Lemma checksum_pair (pre post : string) (a b : ascii) :
  numeric pre -> numeric post -> is_digit a = true -> is_digit b = true ->
  let m := turn (List.length (rev (list_ascii_of_string post))) 1 in
  checksum (pre +:+ String a (String b post))
  = Some (total (rev (list_ascii_of_string post)) 1
          + (weight m b + (weight (Z.lxor m 3) a
             + total (rev (list_ascii_of_string pre)) (Z.lxor (Z.lxor m 3) 3)))).
Proof.
  intros Hpre Hpost Ha Hb m.
  rewrite checksum_numeric.
  - rewrite !list_ascii_app. cbn [list_ascii_of_string]. rewrite !rev_app_distr. cbn [rev].
    rewrite <- !app_assoc. cbn [app]. rewrite !total_app. cbn [total]. reflexivity.
  - unfold numeric. rewrite list_ascii_app. apply Forall_app. split; [exact Hpre|].
    destruct (digit_value a Ha) as (n & E & _). destruct (digit_value b Hb) as (n' & E' & _).
    constructor; [eauto|]. constructor; [eauto | exact Hpost].
Qed.

(** X15. The credit-card rule detects a swap of two neighbouring digits,
    except for the pair 0 and 9: a value of digits and white space that the
    rule accepts is rejected once two different neighbouring digits other
    than 0 and 9 change places, whereas 09 and 90 can replace each other
    in any accepted value. *)
Theorem creditCard_detects_transposition (pre post : string) :
  numeric pre -> numeric post ->
  (forall a b,
     is_digit a = true -> is_digit b = true -> a <> b ->
     ~ (a = "0"%char /\ b = "9"%char) -> ~ (a = "9"%char /\ b = "0"%char) ->
     accepted (pre +:+ String a (String b post)) ->
     rejected (pre +:+ String b (String a post))) /\
  (accepted (pre +:+ String "0" (String "9" post)) ->
   accepted (pre +:+ String "9" (String "0" post))).
Proof.
  intros Hpre Hpost.
  set (m := turn (List.length (rev (list_ascii_of_string post))) 1).
  assert (Hm : m = 1 \/ m = 2) by apply turn_one.
  assert (Hm' : Z.lxor m 3 = 1 \/ Z.lxor m 3 = 2) by (destruct Hm as [-> | ->]; simpl; auto).
  assert (Hm'' : Z.lxor (Z.lxor m 3) 3 = 1 \/ Z.lxor (Z.lxor m 3) 3 = 2)
    by (destruct Hm as [-> | ->]; simpl; auto).
  pose proof (total_nonneg (rev (list_ascii_of_string post)) 1 (or_introl eq_refl)) as H1.
  pose proof (total_nonneg (rev (list_ascii_of_string pre)) _ Hm'') as H2.
  split.
  - intros a b Ha Hb Hne H09 H90. unfold accepted, rejected, validate.
    rewrite (checksum_pair pre post a b Hpre Hpost Ha Hb),
      (checksum_pair pre post b a Hpre Hpost Hb Ha). cbv zeta. fold m.
    destruct (swap_differs m a b Hm Ha Hb Hne H09 H90) as [Hd Hr]. cbv zeta in Hd, Hr.
    set (x := total (rev (list_ascii_of_string post)) 1) in *.
    set (y := total (rev (list_ascii_of_string pre)) (Z.lxor (Z.lxor m 3) 3)) in *.
    destruct ((0 <? x + (weight m b + (weight (Z.lxor m 3) a + y)))
              && (Z.rem (x + (weight m b + (weight (Z.lxor m 3) a + y))) 10 =? 0)) eqn:E;
      [| discriminate].
    intros _. apply andb_prop in E as [E1 E2]. apply Z.ltb_lt in E1. apply Z.eqb_eq in E2.
    destruct ((0 <? x + (weight m a + (weight (Z.lxor m 3) b + y)))
              && (Z.rem (x + (weight m a + (weight (Z.lxor m 3) b + y))) 10 =? 0)) eqn:E';
      [| reflexivity].
    exfalso. apply andb_prop in E' as [E1' E2']. apply Z.ltb_lt in E1'. apply Z.eqb_eq in E2'.
    rewrite Z.rem_mod_nonneg in E2, E2' by lia.
    apply Z.mod_divide in E2, E2'; try lia.
    destruct E2 as [q Hq]. destruct E2' as [q' Hq']. lia.
  - unfold accepted, validate.
    rewrite (checksum_pair pre post "0" "9" Hpre Hpost eq_refl eq_refl),
      (checksum_pair pre post "9" "0" Hpre Hpost eq_refl eq_refl). cbv zeta. fold m.
    replace (weight m "9" + (weight (Z.lxor m 3) "0"
               + total (rev (list_ascii_of_string pre)) (Z.lxor (Z.lxor m 3) 3)))
      with (weight m "0" + (weight (Z.lxor m 3) "9"
               + total (rev (list_ascii_of_string pre)) (Z.lxor (Z.lxor m 3) 3)))
      by (pose proof (swap_zero_nine m Hm); lia).
    destruct (_ && _); [reflexivity | discriminate].
Qed.

Lemma X15_witness :
  rejected "79927398731" /\ accepted "190".
Proof.
  destruct (creditCard_detects_transposition "799273987" "") as [Hswap _].
  - unfold numeric. simpl. repeat (constructor; [eexists; reflexivity|]). constructor.
  - constructor.
  - split.
    + apply (Hswap "1"%char "3"%char); try reflexivity; try discriminate;
        intros [? ?]; discriminate.
    + destruct (creditCard_detects_transposition "1" "") as [_ Hzn].
      * unfold numeric. simpl. repeat (constructor; [eexists; reflexivity|]). constructor.
      * constructor.
      * apply Hzn. reflexivity.
Defined.

(** X16. The credit-card rule accepts no value that holds a character
    other than a digit or white space, and no value whose characters all
    count as zero (the empty string among them). *)
Theorem creditCard_rejects_non_numeric_and_zero (value : string) :
  (Exists (fun c => char_number c = None) (list_ascii_of_string value) -> rejected value) /\
  (Forall (fun c => char_number c = Some 0) (list_ascii_of_string value) -> rejected value).
Proof.
  unfold rejected, validate, checksum. split; intros H.
  - rewrite fold_not_numeric; [reflexivity|]. apply Exists_exists.
    apply Exists_exists in H as (c & Hin & Hc). exists c. split; [| exact Hc].
    apply list_elem_of_In, in_rev. rewrite rev_involutive. apply list_elem_of_In, Hin.
  - rewrite fold_numeric.
    + assert (E : forall l mul, Forall (fun c => char_number c = Some 0) l -> total l mul = 0).
      { induction l as [|c l IH]; intros mul Hl; simpl; [reflexivity|].
        inversion Hl as [|? ? Hc Hl']; subst. rewrite IH by exact Hl'.
        unfold weight. rewrite Hc. reflexivity. }
      rewrite E by (apply Forall_rev, H). reflexivity.
    + apply Forall_rev. eapply Forall_impl; [exact H|]. intros c ->. eauto.
Qed.

End CreditCardTheory.

(* ===================================================================== *)
(** * Properties of the address options *)
(* ===================================================================== *)

Module AddressTheory.
Import Js Address.

Lemma normalizeTable_idem (t : Table) : normalizeTable (normalizeTable t) = normalizeTable t.
Proof. destruct t; reflexivity. Qed.

(** X22. [internals.addressOptions] turns the arrays of [tlds] into sets
    and leaves the other options alone; what it returns it accepts again
    and returns unchanged. It throws for [tlds.allow] or [tlds.deny] of
    another kind, a boolean [tlds.deny], and a [minDomainSegments] that is
    not a positive safe integer. *)
Theorem addressOptions_normalizes_once (options : Options) :
  (forall options',
     addressOptions options = Ok options' ->
     addressOptions options' = Ok options' /\
     a_other options' = a_other options /\
     a_minDomainSegments options' = a_minDomainSegments options /\
     match a_tlds options' with
     | TldsObject allow deny => is_array allow = false /\ is_array deny = false
     | t => t = a_tlds options
     end) /\
  (forall allow deny,
     a_tlds options = TldsObject allow deny ->
     (exists v, allow = TblOther v) \/ (exists v, deny = TblOther v) \/ (exists b, deny = TblBool b) ->
     throws (addressOptions options)) /\
  (forall v,
     a_minDomainSegments options = Some v -> v <> VUndef -> positive_safe_integer v = false ->
     throws (addressOptions options)).
Proof.
  destruct options as [tlds mds other]. unfold addressOptions, throws.
  cbn [a_tlds a_minDomainSegments a_other]. split; [| split].
  - intros options'. destruct tlds as [|b|allow deny]; cbn [bind a_minDomainSegments].
    + destruct (assert _ _) eqn:E; cbn [bind]; [| discriminate].
      intros [= <-]. cbn [a_tlds a_minDomainSegments a_other bind]. rewrite E. auto.
    + destruct (assert _ _) eqn:E; cbn [bind]; [| discriminate].
      intros [= <-]. cbn [a_tlds a_minDomainSegments a_other bind]. rewrite E. auto.
    + destruct allow, deny; cbn [assert bind a_minDomainSegments]; try discriminate;
        (destruct (assert _ _) eqn:E; cbn [bind]; [| discriminate]);
        intros [= <-]; cbn [a_tlds a_minDomainSegments a_other bind normalizeTable assert];
        rewrite E; auto.
  - intros allow deny -> H. destruct H as [[v ->] | [[v ->] | [b ->]]];
      cbn [assert bind]; eauto. all: destruct allow; cbn [assert bind]; eauto.
  - intros v -> Hv Hp. destruct tlds as [|b|allow deny]; cbn [bind a_minDomainSegments].
    1,2: destruct v; try contradiction; rewrite ?Hp; cbn [assert bind]; eauto.
    destruct (assert (match allow with TblOther _ => false | _ => true end) _);
      cbn [bind]; [| eauto].
    destruct (assert (match deny with TblOther _ | TblBool _ => false | _ => true end) _);
      cbn [bind a_minDomainSegments]; [| eauto].
    destruct v; try contradiction; rewrite ?Hp; cbn [assert bind]; eauto.
Qed.

End AddressTheory.
